(** * Client-side page controller of the legal-practice site

    The repository holds three versions of one script: [src/app.js],
    [src/unnamed/part_000] and [src/unnamed/part_001].  Each is embedded in a
    module of its own ([AppJs], [Part000], [Part001]); what they share (the
    DOM primitives, completions, the numeric helpers) comes first.

    Modelling conventions.
    - A DOM element is a record; [classList] is an ordered list of tokens
      without a meaning for duplicates, as [DOMTokenList] is.
    - [localStorage] is a finite map from keys to strings.
    - JavaScript numbers are exact rationals ([Q]) where the source computes
      with fractions and integers ([Z]) where it only counts or indexes.
      Where the outcome turns on the rounding of doubles (the running sum of
      [animateCounter] in [part_000]) the function is given on binary64
      floats as well ([Part000Double]).
    - A function that may throw returns a [Completion]; closures handed to
      [addEventListener], [setTimeout] and [requestAnimationFrame] are
      first-order values of an inductive type, run by an explicit function. *)

From Stdlib Require Import ZArith QArith Qround Qminmax Lqa Lia Ascii Sorted.
From Stdlib Require Import DecimalString.
From Stdlib Require PrimFloat SpecFloat FloatOps.
From stdpp Require Import base option list strings gmap.

Set Default Proof Using "Type".

(** ** Exceptions and completions *)

Inductive Exn :=
  | TypeError (msg : string)
  | ReferenceError (msg : string)
  | Error (msg : string).

Inductive Completion (A : Type) :=
  | Normal (a : A)
  | Throw (e : Exn).
Arguments Normal {A} a.
Arguments Throw {A} e.

(** ** Class lists *)

Module classList.
Definition contains (token : string) (l : list string) : bool :=
  bool_decide (token ∈ l).
Definition add (token : string) (l : list string) : list string :=
  if contains token l then l else l ++ [token].
Definition remove (token : string) (l : list string) : list string :=
  filter (λ t, t ≠ token) l.
(** [toggle(token, force)]: the two-argument form, the only one the scripts
    use on a computed condition. *)
Definition toggle (token : string) (force : bool) (l : list string)
  : list string :=
  if force then add token l else remove token l.
End classList.

Record Element := mkElement {
  classes : list string;
  attributes : gmap string string;
}.

Definition withClasses (f : list string → list string) (e : Element)
  : Element :=
  {| classes := f (classes e); attributes := attributes e |}.

Definition setAttribute (name value : string) (e : Element) : Element :=
  {| classes := classes e; attributes := <[name := value]> (attributes e) |}.

Definition getAttribute (name : string) (e : Element) : option string :=
  attributes e !! name.

Definition hasClass (token : string) (e : Element) : bool :=
  classList.contains token (classes e).

(** [l.forEach((e, i) => e.classList.toggle(token, i === index))] *)
Definition markOnly (token : string) (index : Z) (l : list Element)
  : list Element :=
  imap (λ i e,
          withClasses
            (classList.toggle token (bool_decide (Z.of_nat i = index))) e) l.

(** Number of elements of [l] that carry [token]. *)
Definition countMarked (token : string) (l : list Element) : nat :=
  length (List.filter (hasClass token) l).

(** ** Strings and numbers *)

(** Code units the language counts as white space or line terminators, among
    those below 256. *)
Definition isWhitespace (c : ascii) : bool :=
  let n := nat_of_ascii c in
  bool_decide (n = 9 ∨ n = 10 ∨ n = 11 ∨ n = 12 ∨ n = 13 ∨ n = 32 ∨ n = 160).

Fixpoint trimStart (s : string) : string :=
  match s with
  | String c r => if isWhitespace c then trimStart r else s
  | EmptyString => EmptyString
  end.

(** [s.trim()] *)
Definition trim (s : string) : string :=
  String.rev (trimStart (String.rev (trimStart s))).

(** A string is truthy when it is not empty. *)
Definition truthy (s : string) : bool :=
  match s with
  | EmptyString => false
  | String _ _ => true
  end.

Definition hexValue (c : ascii) : option Z :=
  let n := nat_of_ascii c in
  if bool_decide (48 ≤ n ≤ 57) then Some (Z.of_nat n - 48)%Z
  else if bool_decide (65 ≤ n ≤ 70) then Some (Z.of_nat n - 55)%Z
  else if bool_decide (97 ≤ n ≤ 102) then Some (Z.of_nat n - 87)%Z
  else None.

(** Value of the longest prefix of digits in [radix]; [acc] is [None] until a
    digit has been read. *)
Fixpoint digitsPrefix (radix : Z) (acc : option Z) (s : string) : option Z :=
  match s with
  | String c r =>
      match hexValue c with
      | Some d =>
          if bool_decide (d < radix)%Z
          then digitsPrefix radix (Some (radix * default 0 acc + d))%Z r
          else acc
      | None => acc
      end
  | EmptyString => acc
  end.

(** [parseInt(s)] without a radix; [None] is [NaN]. *)
Definition parseInt (s : string) : option Z :=
  let s1 := trimStart s in
  let '(sign, s2) :=
    match s1 with
    | String "-" r => ((-1)%Z, r)
    | String "+" r => (1%Z, r)
    | _ => (1%Z, s1)
    end in
  let '(radix, s3) :=
    match s2 with
    | String "0" (String "x" r) => (16%Z, r)
    | String "0" (String "X" r) => (16%Z, r)
    | _ => (10%Z, s2)
    end in
  Z.mul sign <$> digitsPrefix radix None s3.

(** [parseInt(s) || 0] *)
Definition parseIntOr0 (s : string) : Z := default 0%Z (parseInt s).

(** The text an integral number is converted to. *)
Definition showZ (z : Z) : string := NilZero.string_of_int (Z.to_int z).

(** [x < y] on numbers. *)
Definition Qltb (x y : Q) : bool := negb (Qle_bool y x).

(** ** The browser around the script *)

Inductive LogEntry :=
  | LogError (msg : string) (e : option Exn)
  | LogInfo (msg : string).

(** An outbound [fetch]; [body] holds the entries of the object that is
    serialised to JSON. *)
Record Request := mkRequest {
  url : string;
  method : string;
  headers : list (string * string);
  body : gmap string string;
}.

(** Closures handed to [setTimeout]. *)
Inductive Callback :=
  | RestoreSubmit (label : string)
  | FocusFirstInput.

Record Browser := mkBrowser {
  localStorage : gmap string string;
  prefersDark : bool;
  colorScheme : option string;
  bodyOverflow : string;
  console : list LogEntry;
  alerts : list string;
  requests : list Request;
  timeouts : list (Z * Callback);
}.

(** [localStorage.setItem(key, value)] *)
Definition setItem (key value : string) (b : Browser) : Browser :=
  let '(mkBrowser ls pd cs bo co al rq tm) := b in
  mkBrowser (<[key := value]> ls) pd cs bo co al rq tm.

(** [document.documentElement.setAttribute('data-color-scheme', v)] *)
Definition setColorScheme (v : string) (b : Browser) : Browser :=
  let '(mkBrowser ls pd cs bo co al rq tm) := b in
  mkBrowser ls pd (Some v) bo co al rq tm.

(** [document.body.style.overflow = v] *)
Definition setBodyOverflow (v : string) (b : Browser) : Browser :=
  let '(mkBrowser ls pd cs bo co al rq tm) := b in
  mkBrowser ls pd cs v co al rq tm.

Definition consoleWrite (entry : LogEntry) (b : Browser) : Browser :=
  let '(mkBrowser ls pd cs bo co al rq tm) := b in
  mkBrowser ls pd cs bo (co ++ [entry]) al rq tm.

Definition alert (msg : string) (b : Browser) : Browser :=
  let '(mkBrowser ls pd cs bo co al rq tm) := b in
  mkBrowser ls pd cs bo co (al ++ [msg]) rq tm.

Definition fetch (r : Request) (b : Browser) : Browser :=
  let '(mkBrowser ls pd cs bo co al rq tm) := b in
  mkBrowser ls pd cs bo co al (rq ++ [r]) tm.

Definition setTimeout (cb : Callback) (delay : Z) (b : Browser) : Browser :=
  let '(mkBrowser ls pd cs bo co al rq tm) := b in
  mkBrowser ls pd cs bo co al rq (tm ++ [(delay, cb)]).

(** The oldest pending timeout leaves the queue (it fires). *)
Definition dropTimeout (b : Browser) : Browser :=
  let '(mkBrowser ls pd cs bo co al rq tm) := b in
  mkBrowser ls pd cs bo co al rq (tail tm).

(** The system colour scheme changes to dark ([matches]) or to light. *)
Definition setPrefersDark (matches : bool) (b : Browser) : Browser :=
  let '(mkBrowser ls pd cs bo co al rq tm) := b in
  mkBrowser ls matches cs bo co al rq tm.

(** What [matchMedia('(prefers-color-scheme: dark)').matches ? 'dark' :
    'light'] evaluates to. *)
Definition systemTheme (b : Browser) : string :=
  if prefersDark b then "dark" else "light".

(** [localStorage.getItem('theme') || systemTheme]: a missing entry is
    [null], and the empty string is falsy as well. *)
Definition storedOrSystemTheme (b : Browser) : string :=
  match localStorage b !! "theme" with
  | Some s => if truthy s then s else systemTheme b
  | None => systemTheme b
  end.

(** The two glyphs of the theme icon. *)
Definition sunIcon : string := "☀️".
Definition moonIcon : string := "🌙".

(** ** Page sections, forms, counters *)

(** A [section[id]] element as a scroll handler sees it: its id, the top of
    its bounding rectangle in the viewport, and its offset box in the
    document. *)
Record Section := mkSection {
  sectionId : string;
  rectTop : Q;
  offsetTop : Q;
  offsetHeight : Q;
}.

Record Field := mkField {
  fieldName : string;
  value : string;
  defaultValue : string;
  required : bool;
}.

(** A submit button: its content (what [innerHTML] reads; [textContent]
    writes plain text into it) and its [disabled] flag. *)
Record Button := mkButton {
  content : string;
  disabled : bool;
}.

Record Form := mkForm {
  fields : list Field;
  submitButton : option Button;
}.

(** [form.reset()] *)
Definition reset (f : Form) : Form :=
  {| fields := (λ x, mkField (fieldName x) (defaultValue x) (defaultValue x)
                              (required x)) <$> fields f;
     submitButton := submitButton f |}.

(** [Object.fromEntries(new FormData(form))]: a later entry of the same name
    replaces an earlier one. *)
Definition formObject (f : Form) : gmap string string :=
  foldl (λ o x, <[fieldName x := value x]> o) ∅ (fields f).

(** How the awaited [fetch] and [response.json()] settle: the request is
    rejected, the body is not JSON, or the body is a JSON object whose
    [success] member is truthy or not. *)
Inductive FetchOutcome :=
  | Rejected
  | BodyNotJson
  | BodyJson (success : bool).

(** A statistic counter element: its text and its [data-suffix]. *)
Record Counter := mkCounter {
  textContent : string;
  dataSuffix : option string;
}.

(** ** Feature modules as the runner sees them

    A module's entry operation works on some world [W] and may throw; the
    [init] property of a module object is missing, present but not callable,
    or a function. *)
Inductive InitProperty (W : Type) :=
  | InitMissing
  | InitNotCallable
  | InitFunction (f : W → W * Completion unit).
Arguments InitMissing {W}.
Arguments InitNotCallable {W}.
Arguments InitFunction {W} f.

(** The two ways a carousel changes state: the autoplay tick ([Next]) and a
    click on the [index]-th selector button ([GoTo index]). *)
Inductive Transition :=
  | Next
  | GoTo (index : Z).

(** * [src/app.js] *)

Module AppJs.

(** ** [AppConfig] *)

Definition carouselInterval : Z := 5000.
Definition counterAnimationDuration : Q := 2500.
Definition web3FormsAccessKey : string :=
  "f172d582-f61e-4dc1-ac3a-c144e252b0dd".

(** ** [Utils.animateNumber] *)

(** The closure [animate]: what it captured from [animateNumber]. *)
Record Animation := mkAnimation {
  start : Z;
  change : Q;
  startTime : Q;
  duration : Q;
  easing : string;
}.

(** [t => 1 - Math.pow(1 - t, 3)] *)
Definition easeOutCubic (t : Q) : Q := 1 - (1 - t) ^ 3.

(** [easingFunctions[easing] ? easingFunctions[easing](progress) : progress];
    the table has the one entry [easeOutCubic]. *)
Definition easeProgress (easing : string) (progress : Q) : Q :=
  if bool_decide (easing = "easeOutCubic") then easeOutCubic progress
  else progress.

Definition progressAt (a : Animation) (currentTime : Q) : Q :=
  Qmin ((currentTime - startTime a) / duration a) 1.

(** The number [animate] writes when it runs at [currentTime]. *)
Definition frameValue (a : Animation) (currentTime : Q) : Z :=
  Qfloor (inject_Z (start a)
          + change a * easeProgress (easing a) (progressAt a currentTime)).

(** One run of [animate]: the element afterwards, and whether it asked for
    another frame. *)
Definition animate (a : Animation) (currentTime : Q) (el : Counter)
  : Counter * bool :=
  ({| textContent := showZ (frameValue a currentTime);
      dataSuffix := dataSuffix el |},
   Qltb (progressAt a currentTime) 1).

(** [animateNumber(element, target, duration, easing)] called at time [now]:
    the element as the call leaves it, and the frame callback it scheduled,
    if any. *)
Definition animateNumber (el : Counter) (target duration : Q)
    (easing : string) (now : Q) : Counter * option Animation :=
  let start := parseIntOr0 (textContent el) in
  let change := (target - inject_Z start)%Q in
  if Qeq_bool change 0 then (el, None)
  else (el, Some {| start := start; change := change; startTime := now;
                    duration := duration; easing := easing |}).

(** The frames of one animation, run at the times [times] in turn: the
    numbers written, up to the frame that asks for no successor. *)
Fixpoint framesShown (a : Animation) (times : list Q) : list Z :=
  match times with
  | [] => []
  | t :: ts =>
      frameValue a t ::
      (if Qltb (progressAt a t) 1 then framesShown a ts else [])
  end.

(** ** [Utils.getCurrentTheme], [Utils.setTheme] *)

Definition getCurrentTheme (b : Browser) : string := storedOrSystemTheme b.

Definition setTheme (theme : string) (b : Browser) : Browser :=
  setItem "theme" theme (setColorScheme theme b).

(** ** Listeners the modules bind *)

Inductive Listener :=
  | NavToggleClick
  | NavCloseClick
  | NavLinkClick (i : nat)
  | WindowScroll
  | TestimonialNavClick (i : nat)
  | CarouselMouseEnter
  | CarouselMouseLeave.

(** ** [Navigation] *)

Record NavDom := mkNavDom {
  header : option Element;
  navToggle : option Element;
  navMenu : option Element;
  navClose : option Element;
  navLinks : list Element;
}.

Definition Navigation_init (d : NavDom) : list Listener * Completion unit :=
  ((if navToggle d is Some _ then [NavToggleClick] else [])
   ++ (if navClose d is Some _ then [NavCloseClick] else [])
   ++ imap (λ i _, NavLinkClick i) (navLinks d)
   ++ [WindowScroll],
   Normal ()).

(** The section id the [forEach] over [section[id]] leaves in
    [currentSectionId]: a later section below the threshold replaces an
    earlier one. *)
Definition currentSectionId (threshold : Q) (secs : list Section) : string :=
  foldl (λ cur sec, if Qltb (rectTop sec) threshold then sectionId sec
                    else cur)
        EmptyString secs.

Definition updateActiveLink (links : list Element) (headerHeight : Z)
    (secs : list Section) : list Element :=
  let cur := currentSectionId (inject_Z (headerHeight + 50)) secs in
  (λ link,
     withClasses
       (classList.toggle "active-link"
          (bool_decide (getAttribute "href" link = Some ("#" +:+ cur))))
       link) <$> links.

(** ** [ThemeToggle] *)

Record ThemeDom := mkThemeDom {
  themeToggle : option Element;
  themeIcon : option string;
}.

Definition applyTheme (theme : string) (d : ThemeDom) (b : Browser)
  : ThemeDom * Browser :=
  ({| themeToggle := themeToggle d;
      themeIcon :=
        match themeIcon d with
        | Some _ =>
            Some (if bool_decide (theme = "dark") then sunIcon else moonIcon)
        | None => None
        end |},
   setTheme theme b).

Definition ThemeToggle_init (d : ThemeDom) (b : Browser)
  : ThemeDom * Browser :=
  match themeToggle d with
  | None => (d, b)
  | Some _ => applyTheme (getCurrentTheme b) d b
  end.

(** The click listener of [#theme-toggle]. *)
Definition ThemeToggle_click (d : ThemeDom) (b : Browser)
  : ThemeDom * Browser :=
  applyTheme (if bool_decide (getCurrentTheme b = "dark") then "light"
              else "dark") d b.

(** ** [TestimonialsCarousel] *)

(** The closure state of [TestimonialsCarousel.init]: the two node lists it
    captured and the variable [currentSlide]. *)
Record Carousel := mkCarousel {
  slides : list Element;
  navButtons : list Element;
  currentSlide : Z;
}.

Definition showSlide (index : Z) (c : Carousel) : Carousel :=
  if bool_decide (index < 0 ∨ index >= Z.of_nat (length (slides c)))%Z
  then c
  else {| slides := markOnly "active" index (slides c);
          navButtons := markOnly "active" index (navButtons c);
          currentSlide := index |}.

(** [%] is the remainder that takes the sign of the dividend. *)
Definition nextSlide (c : Carousel) : Carousel :=
  showSlide (Z.rem (currentSlide c + 1) (Z.of_nat (length (slides c)))) c.

(** The state [init] leaves when it runs to its end: [currentSlide = 0],
    then [showSlide(0)]. *)
Definition initCarousel (ss bs : list Element) : Carousel :=
  showSlide 0 {| slides := ss; navButtons := bs; currentSlide := 0 |}.

(** The timer callback is [nextSlide]; the click listener of button [index]
    calls [showSlide(index)]. *)
Definition step (c : Carousel) (t : Transition) : Carousel :=
  match t with
  | Next => nextSlide c
  | GoTo index => showSlide index c
  end.

Definition run (ts : list Transition) (c : Carousel) : Carousel :=
  foldl step c ts.

Record CarouselDom := mkCarouselDom {
  testimonialsCarousel : option Element;
  testimonialCards : list Element;
  testimonialNavBtns : list Element;
}.

(** What a call of [init] leaves behind: the listeners bound so far, the
    closure state, and whether the autoplay interval is running. *)
Record CarouselRuntime := mkCarouselRuntime {
  bound : list Listener;
  carousel : Carousel;
  autoplay : bool;
}.

Definition TestimonialsCarousel_init (d : CarouselDom)
  : CarouselRuntime * Completion unit :=
  let ss := testimonialCards d in
  let bs := testimonialNavBtns d in
  let c0 := {| slides := ss; navButtons := bs; currentSlide := 0 |} in
  if bool_decide (length ss ≤ 1) then
    ({| bound := []; carousel := c0; autoplay := false |}, Normal ())
  else
    let clicks := imap (λ i _, TestimonialNavClick i) bs in
    match testimonialsCarousel d with
    | None =>
        ({| bound := clicks; carousel := c0; autoplay := false |},
         Throw (TypeError
                  "Cannot read properties of null (reading 'addEventListener')"))
    | Some _ =>
        ({| bound := clicks ++ [CarouselMouseEnter; CarouselMouseLeave];
            carousel := showSlide 0 c0;
            autoplay := true |},
         Normal ())
    end.

(** ** [FormHandler] *)

Definition submitRequest (f : Form) : Request :=
  {| url := "https://api.web3forms.com/submit";
     method := "POST";
     headers := [("Content-Type", "application/json");
                 ("Accept", "application/json")];
     body := <["access_key" := web3FormsAccessKey]> (formObject f) |}.

Definition setButton (btn : Button) (f : Form) : Form :=
  {| fields := fields f; submitButton := Some btn |}.

(** The [submit] listener [attachListener] binds, run to the point where it
    has scheduled its timeout; [outcome] is how the awaited request
    settles. *)
Definition submitListener (outcome : FetchOutcome) (f : Form) (b : Browser)
  : (Form * Browser) * Completion unit :=
  if bool_decide (web3FormsAccessKey = "YOUR_ACCESS_KEY_HERE") then
    ((f, alert "Please replace 'YOUR_ACCESS_KEY_HERE' in app.js with your Web3Forms access key." b),
     Normal ())
  else
    match submitButton f with
    | None =>
        ((f, b),
         Throw (TypeError "Cannot read properties of null (reading 'innerHTML')"))
    | Some btn =>
        let originalButtonText := content btn in
        let b1 := fetch (submitRequest f) b in
        let '(f2, b2) :=
          match outcome with
          | BodyJson true =>
              (reset (setButton (mkButton "<span>Sent Successfully!</span>"
                                          true) f),
               b1)
          | BodyJson false =>
              (setButton (mkButton "<span>Error! Try Again.</span>" true) f,
               consoleWrite (LogError "Form submission error:" None) b1)
          | Rejected | BodyNotJson =>
              (setButton (mkButton "<span>Error! Try Again.</span>" true) f,
               consoleWrite (LogError "Fetch error:" None) b1)
          end in
        ((f2, setTimeout (RestoreSubmit originalButtonText) 4000 b2),
         Normal ())
    end.

(** The timeout callback of the [finally] block. *)
Definition runCallback (cb : Callback) (f : Form) : Form :=
  match cb with
  | RestoreSubmit label => setButton (mkButton label false) f
  | FocusFirstInput => f
  end.

(** ** [Modal] *)

Definition openModal (m : Element) (b : Browser) : Element * Browser :=
  (withClasses (classList.remove "hidden") m, b).

Definition closeModal (m : Element) (b : Browser) : Element * Browser :=
  (withClasses (classList.add "hidden") m, b).

(** ** [App] *)

Section Runner.
Context {W : Type} (consoleWrite : LogEntry → W → W).

Definition initializeModule (w : W) (init : InitProperty W) : W :=
  match init with
  | InitFunction f =>
      match f w with
      | (w', Normal _) => w'
      | (w', Throw e) =>
          consoleWrite (LogError "Error initializing module" (Some e)) w'
      end
  | InitMissing | InitNotCallable => w
  end.

(** The [DOMContentLoaded] listener of [App.init]. *)
Definition App_init (modules : list (InitProperty W)) (w : W) : W :=
  consoleWrite (LogInfo "✅ Website Initialized Successfully!")
               (foldl initializeModule w modules).
End Runner.

(** ** The page as a whole

    One state for the operations above, to say which of them touch what: the
    browser, and the elements each feature owns. *)
Record World := mkWorld {
  wBrowser : Browser;
  wTheme : ThemeDom;
  wModal : Element;
  wCarousel : Carousel;
  wLinks : list Element;
  wForm : Form;
  wCounter : Counter;
}.

Inductive Op :=
  | OpThemeInit
  | OpThemeClick
  | OpOpenModal
  | OpCloseModal
  | OpCarousel (t : Transition)
  | OpScroll (headerHeight : Z) (secs : list Section)
  | OpSubmit (outcome : FetchOutcome)
  | OpTimeout
  | OpFrame (a : Animation) (currentTime : Q).

Definition exec (op : Op) (w : World) : World :=
  let '(mkWorld b th m c ls f ct) := w in
  match op with
  | OpThemeInit =>
      let '(th', b') := ThemeToggle_init th b in mkWorld b' th' m c ls f ct
  | OpThemeClick =>
      let '(th', b') := ThemeToggle_click th b in mkWorld b' th' m c ls f ct
  | OpOpenModal =>
      let '(m', b') := openModal m b in mkWorld b' th m' c ls f ct
  | OpCloseModal =>
      let '(m', b') := closeModal m b in mkWorld b' th m' c ls f ct
  | OpCarousel t => mkWorld b th m (step c t) ls f ct
  | OpScroll h secs => mkWorld b th m c (updateActiveLink ls h secs) f ct
  | OpSubmit outcome =>
      let '((f', b'), _) := submitListener outcome f b in
      mkWorld b' th m c ls f' ct
  | OpTimeout =>
      match timeouts b with
      | (_, cb) :: _ => mkWorld (dropTimeout b) th m c ls (runCallback cb f) ct
      | [] => w
      end
  | OpFrame a t => mkWorld b th m c ls f (fst (animate a t ct))
  end.

End AppJs.

(** * [src/unnamed/part_000] *)

Module Part000.

(** ** [AppConfig] *)

Definition carouselInterval : Z := 5000.
Definition counterAnimationDuration : Q := 2000.

(** ** [Utils.animateCounter], in exact arithmetic

    ([Part000Double] below is the same function with the rounding of the
    engine's numbers.) *)

(** The variables of one [animateCounter] call: [current], the captured
    [target] and [increment], and whether the interval is still set. *)
Record Ticker := mkTicker {
  current : Q;
  target : Q;
  increment : Q;
  running : bool;
}.

Definition animateCounter (el : Counter) (target duration : Q) : Ticker :=
  let start := inject_Z (parseIntOr0 (textContent el)) in
  {| current := start; target := target;
     increment := (target - start) / (duration / 16);
     running := true |}.

(** One firing of the interval callback; a cleared interval fires no more. *)
Definition tick (st : Ticker * Counter) : Ticker * Counter :=
  let '(tk, el) := st in
  if running tk then
    let cur := (current tk + increment tk)%Q in
    let tk' :=
      if Qle_bool (target tk) cur
      then mkTicker (target tk) (target tk) (increment tk) false
      else mkTicker cur (target tk) (increment tk) true in
    (tk', {| textContent := showZ (Qfloor (current tk'));
             dataSuffix := dataSuffix el |})
  else st.

(** ** [Utils.getCurrentTheme], [Utils.setTheme] *)

Definition getCurrentTheme (b : Browser) : string := storedOrSystemTheme b.

Definition setTheme (theme : string) (b : Browser) : Browser :=
  setItem "theme" theme (setColorScheme theme b).

(** ** [Navigation] *)

Definition setActiveLink (target : string) (links : list Element)
  : list Element :=
  (λ link,
     let cleared := withClasses (classList.remove "active-link") link in
     if bool_decide (getAttribute "href" link = Some target)
     then withClasses (classList.add "active-link") cleared
     else cleared) <$> links.

(** [handleActiveLink] with [window.location.hash] as [hash]. *)
Definition handleActiveLink (hash : string) (links : list Element)
  : list Element :=
  setActiveLink (if truthy hash then hash else "#home") links.

Definition updateActiveLink (links : list Element) (scrollY : Q)
    (secs : list Section) : list Element :=
  let scrollPosition := (scrollY + 100)%Q in
  foldl (λ ls sec,
           if Qle_bool (offsetTop sec) scrollPosition
              && Qltb scrollPosition (offsetTop sec + offsetHeight sec)
           then setActiveLink ("#" +:+ sectionId sec) ls
           else ls)
        links secs.

(** ** [ThemeToggle] *)

Record ThemeDom := mkThemeDom {
  themeToggle : option Element;
  themeIcon : option string;
}.

(** [updateIcon]; this version spells the two glyphs differently from the
    other two (the literals below are those of line 314). *)
Definition updateIcon (theme : string) (d : ThemeDom) : ThemeDom :=
  {| themeToggle := themeToggle d;
     themeIcon :=
       match themeIcon d with
       | Some _ =>
           Some (if bool_decide (theme = "dark") then "â˜€ï¸" else "ðŸŒ™")
       | None => None
       end |}.

Definition setInitialTheme (d : ThemeDom) (b : Browser)
  : ThemeDom * Browser :=
  let currentTheme := getCurrentTheme b in
  (updateIcon currentTheme d, setTheme currentTheme b).

(** [init]: [cacheElements], [setInitialTheme], [bindEvents]; binding
    listeners changes none of the state kept here. *)
Definition ThemeToggle_init (d : ThemeDom) (b : Browser)
  : ThemeDom * Browser :=
  setInitialTheme d b.

Definition toggleTheme (d : ThemeDom) (b : Browser) : ThemeDom * Browser :=
  let currentTheme := getCurrentTheme b in
  let newTheme :=
    if bool_decide (currentTheme = "dark") then "light" else "dark" in
  (updateIcon newTheme d, setTheme newTheme b).

(** The system colour scheme changes and the [change] listener of the media
    query runs with [e.matches = matches]. *)
Definition systemThemeChange (matches : bool) (d : ThemeDom) (b : Browser)
  : ThemeDom * Browser :=
  let b1 := setPrefersDark matches b in
  match localStorage b1 !! "theme" with
  | Some s =>
      if truthy s then (d, b1)
      else let newTheme := if matches then "dark" else "light" in
           (updateIcon newTheme d, setTheme newTheme b1)
  | None =>
      let newTheme := if matches then "dark" else "light" in
      (updateIcon newTheme d, setTheme newTheme b1)
  end.

(** ** [TestimonialsCarousel] *)

(** [TestimonialsCarousel]'s own fields. *)
Record Carousel := mkCarousel {
  slides : list Element;
  navButtons : list Element;
  currentSlide : Z;
  totalSlides : Z;
}.

(** [slides[index]], undefined outside the list. *)
Definition addClassAt (token : string) (index : Z) (l : list Element)
  : list Element :=
  if bool_decide (0 <= index)%Z
  then alter (withClasses (classList.add token)) (Z.to_nat index) l
  else l.

Definition showSlide (index : Z) (c : Carousel) : Carousel :=
  let hidden := withClasses (classList.remove "active") <$> slides c in
  {| slides := addClassAt "active" index hidden;
     navButtons := markOnly "active" index (navButtons c);
     currentSlide := index;
     totalSlides := totalSlides c |}.

Definition goToSlide (index : Z) (c : Carousel) : Carousel :=
  if bool_decide (index >= 0 ∧ index < totalSlides c)%Z
  then showSlide index c
  else c.

Definition nextSlide (c : Carousel) : Carousel :=
  showSlide (Z.rem (currentSlide c + 1) (totalSlides c)) c.

(** [cacheElements] then [setupCarousel]. *)
Definition setupCarousel (ss bs : list Element) : Carousel :=
  let c := {| slides := ss; navButtons := bs; currentSlide := 0;
              totalSlides := Z.of_nat (length ss) |} in
  if bool_decide (totalSlides c = 0)%Z then c else showSlide 0 c.

(** The timer callback is [nextSlide]; the click listener of button [index]
    calls [goToSlide(index)]. *)
Definition step (c : Carousel) (t : Transition) : Carousel :=
  match t with
  | Next => nextSlide c
  | GoTo index => goToSlide index c
  end.

Definition run (ts : list Transition) (c : Carousel) : Carousel :=
  foldl step c ts.

(** ** [Modal] *)

(** [this.elements.modal], and whether it holds an input, select or
    textarea. *)
Record ModalDom := mkModalDom {
  modal : option Element;
  hasInput : bool;
}.

Definition openModal (d : ModalDom) (b : Browser) : ModalDom * Browser :=
  match modal d with
  | Some m =>
      let b1 := setBodyOverflow "hidden" b in
      ({| modal := Some (withClasses (classList.remove "hidden") m);
          hasInput := hasInput d |},
       if hasInput d then setTimeout FocusFirstInput 100 b1 else b1)
  | None => (d, b)
  end.

Definition closeModal (d : ModalDom) (b : Browser) : ModalDom * Browser :=
  match modal d with
  | Some m =>
      ({| modal := Some (withClasses (classList.add "hidden") m);
          hasInput := hasInput d |},
       setBodyOverflow EmptyString b)
  | None => (d, b)
  end.

(** ** [App] *)

Section Runner.
Context {W : Type} (consoleWrite : LogEntry → W → W).

Definition initializeModule (w : W) (init : InitProperty W) : W :=
  match init with
  | InitFunction f =>
      match f w with
      | (w', Normal _) => w'
      | (w', Throw e) =>
          consoleWrite (LogError "Error initializing module:" (Some e)) w'
      end
  | InitMissing | InitNotCallable => w
  end.

(** [initializeModules]; the two calls after the loop only bind listeners. *)
Definition initializeModules (modules : list (InitProperty W)) (w : W) : W :=
  foldl initializeModule w modules.
End Runner.

(** ** The page as a whole *)

Record World := mkWorld {
  wBrowser : Browser;
  wTheme : ThemeDom;
  wModal : ModalDom;
  wCarousel : Carousel;
  wLinks : list Element;
  wCounter : Ticker * Counter;
}.

Inductive Op :=
  | OpThemeInit
  | OpThemeClick
  | OpSystemThemeChange (matches : bool)
  | OpOpenModal
  | OpCloseModal
  | OpCarousel (t : Transition)
  | OpScroll (scrollY : Q) (secs : list Section)
  | OpTimeout
  | OpTick.

Definition exec (op : Op) (w : World) : World :=
  let '(mkWorld b th m c ls ct) := w in
  match op with
  | OpThemeInit =>
      let '(th', b') := ThemeToggle_init th b in mkWorld b' th' m c ls ct
  | OpThemeClick =>
      let '(th', b') := toggleTheme th b in mkWorld b' th' m c ls ct
  | OpSystemThemeChange matches =>
      let '(th', b') := systemThemeChange matches th b in
      mkWorld b' th' m c ls ct
  | OpOpenModal =>
      let '(m', b') := openModal m b in mkWorld b' th m' c ls ct
  | OpCloseModal =>
      let '(m', b') := closeModal m b in mkWorld b' th m' c ls ct
  | OpCarousel t => mkWorld b th m (step c t) ls ct
  | OpScroll y secs => mkWorld b th m c (updateActiveLink ls y secs) ct
  | OpTimeout => mkWorld (dropTimeout b) th m c ls ct
  | OpTick => mkWorld b th m c ls (tick ct)
  end.

End Part000.

(** * [Utils.animateCounter] of [src/unnamed/part_000] in doubles

    [Part000.animateCounter] and [Part000.tick] above add in exact
    arithmetic.  The numbers of the language are IEEE 754 doubles and the
    running sum of [animateCounter] is rounded at every firing, so the
    firing at which it reaches the target is decided by that rounding.
    Here is the same function on binary64 floats. *)

Module Part000Double.

(** The double nearest to an integer: what an integer literal and the
    result of [parseInt] denote. *)
Definition number (z : Z) : PrimFloat.float :=
  FloatOps.SF2Prim
    (SpecFloat.binary_normalize FloatOps.prec FloatOps.emax z 0 false).

(** [Math.floor(x)] for a finite [x]; [None] for [NaN] and the
    infinities, which [Math.floor] returns as they are. *)
Definition floor (x : PrimFloat.float) : option Z :=
  match FloatOps.Prim2SF x with
  | SpecFloat.S754_zero _ => Some 0%Z
  | SpecFloat.S754_finite s m e =>
      Some (Z.shiftl (if s then Z.neg m else Z.pos m) e)
  | SpecFloat.S754_infinity _ | SpecFloat.S754_nan => None
  end.

(** The text of [Math.floor(x)].  (An integer of magnitude 10^21 or more
    prints with an exponent; counters do not get there and that form is
    not produced here.) *)
Definition floorText (x : PrimFloat.float) : string :=
  match floor x with
  | Some n => showZ n
  | None =>
      if PrimFloat.is_nan x then "NaN"
      else if PrimFloat.ltb x (number 0) then "-Infinity" else "Infinity"
  end.

Record Ticker := mkTicker {
  current : PrimFloat.float;
  target : PrimFloat.float;
  increment : PrimFloat.float;
  running : bool;
}.

Definition animateCounter (el : Counter) (target duration : PrimFloat.float)
  : Ticker :=
  let start := number (parseIntOr0 (textContent el)) in
  {| current := start; target := target;
     increment := PrimFloat.div (PrimFloat.sub target start)
                                (PrimFloat.div duration (number 16));
     running := true |}.

(** One firing of the interval callback; a cleared interval fires no more. *)
Definition tick (st : Ticker * Counter) : Ticker * Counter :=
  let '(tk, el) := st in
  if running tk then
    let cur := PrimFloat.add (current tk) (increment tk) in
    let tk' :=
      if PrimFloat.leb (target tk) cur
      then mkTicker (target tk) (target tk) (increment tk) false
      else mkTicker cur (target tk) (increment tk) true in
    (tk', {| textContent := floorText (current tk');
             dataSuffix := dataSuffix el |})
  else st.

End Part000Double.

(** * [src/unnamed/part_001] *)

Module Part001.

(** ** [AppConfig]

    [window.__APP_CONFIG__] when the page defines it, the literal
    otherwise; of its members the listeners below read the access key,
    which a page-supplied object may lack. *)
Record AppConfig := mkAppConfig {
  counterAnimationDuration : Q;
  web3FormsAccessKey : option string;
}.

Definition defaultConfig : AppConfig :=
  {| counterAnimationDuration := 2500;
     web3FormsAccessKey := Some "f172d582-f61e-4dc1-ac3a-c144e252b0dd" |}.

(** ** [Utils.animateNumber] *)

Record Animation := mkAnimation {
  start : Z;
  change : Q;
  suffix : string;
  startTime : Q;
  duration : Q;
}.

Definition progressAt (a : Animation) (time : Q) : Q :=
  Qmin ((time - startTime a) / duration a) 1.

(** The number [animate] writes, before the suffix, when it runs at
    [time]. *)
Definition frameValue (a : Animation) (time : Q) : Z :=
  let progress := progressAt a time in
  let eased := (1 - (1 - progress) ^ 3)%Q in
  Qfloor (inject_Z (start a) + change a * eased).

Definition animate (a : Animation) (time : Q) (el : Counter)
  : Counter * bool :=
  ({| textContent := showZ (frameValue a time) +:+ suffix a;
      dataSuffix := dataSuffix el |},
   Qltb (progressAt a time) 1).

Definition animateNumber (el : Counter) (target duration : Q) (now : Q)
  : Counter * option Animation :=
  let start := parseIntOr0 (textContent el) in
  (el, Some {| start := start;
               change := target - inject_Z start;
               suffix := match dataSuffix el with
                         | Some s => if truthy s then s else EmptyString
                         | None => EmptyString
                         end;
               startTime := now;
               duration := duration |}).

Fixpoint framesShown (a : Animation) (times : list Q) : list Z :=
  match times with
  | [] => []
  | t :: ts =>
      frameValue a t ::
      (if Qltb (progressAt a t) 1 then framesShown a ts else [])
  end.

(** ** [Utils.getTheme], [Utils.setTheme] *)

Definition getTheme (b : Browser) : string := storedOrSystemTheme b.

Definition setTheme (theme : string) (b : Browser) : Browser :=
  setItem "theme" theme (setColorScheme theme b).

(** ** [Navigation.updateActive] *)

Definition currentSection (threshold : Q) (secs : list Section) : string :=
  foldl (λ cur sec, if Qltb (rectTop sec) threshold then sectionId sec
                    else cur)
        EmptyString secs.

Definition updateActive (links : list Element) (offset : Z)
    (secs : list Section) : list Element :=
  let current := currentSection (inject_Z (offset + 60)) secs in
  (λ l,
     withClasses
       (classList.toggle "active-link"
          (bool_decide (getAttribute "href" l = Some ("#" +:+ current))))
       l) <$> links.

(** ** [ThemeToggle] *)

Record ThemeDom := mkThemeDom {
  themeToggle : option Element;
  themeIcon : option string;
}.

Definition apply (t : string) (d : ThemeDom) (b : Browser)
  : ThemeDom * Browser :=
  ({| themeToggle := themeToggle d;
      themeIcon :=
        match themeIcon d with
        | Some _ =>
            Some (if bool_decide (t = "dark") then sunIcon else moonIcon)
        | None => None
        end |},
   setTheme t b).

Definition ThemeToggle_init (d : ThemeDom) (b : Browser)
  : ThemeDom * Browser :=
  match themeToggle d with
  | None => (d, b)
  | Some _ => apply (getTheme b) d b
  end.

Definition ThemeToggle_click (d : ThemeDom) (b : Browser)
  : ThemeDom * Browser :=
  apply (if bool_decide (getTheme b = "dark") then "light" else "dark") d b.

(** ** [FormHandler] *)

(** [[...form.elements].every(el => !el.required || el.value.trim())] *)
Definition allRequiredFilled (f : Form) : bool :=
  forallb (λ el, negb (required el) || truthy (trim (value el))) (fields f).

Definition submitRequest (key : string) (f : Form) : Request :=
  {| url := "https://api.web3forms.com/submit";
     method := "POST";
     headers := [("Content-Type", "application/json")];
     body := <["access_key" := key]> (formObject f) |}.

Definition setButton (btn : Button) (f : Form) : Form :=
  {| fields := fields f; submitButton := Some btn |}.

(** The [submit] listener [attach] binds, run to the point where it has
    scheduled its timeout; [outcome] is how the awaited request settles. *)
Definition submitListener (cfg : AppConfig) (outcome : FetchOutcome)
    (f : Form) (b : Browser) : (Form * Browser) * Completion unit :=
  match web3FormsAccessKey cfg with
  | None => ((f, alert "Web3Forms key missing" b), Normal ())
  | Some key =>
      if negb (truthy key) then
        ((f, alert "Web3Forms key missing" b), Normal ())
      else if negb (allRequiredFilled f) then
        ((f, alert "Please fill all required fields" b), Normal ())
      else
        match submitButton f with
        | None =>
            ((f, b),
             Throw (TypeError
                      "Cannot set properties of null (setting 'disabled')"))
        | Some _ =>
            let b1 := fetch (submitRequest key f) b in
            let f2 :=
              match outcome with
              | BodyJson true =>
                  reset (setButton (mkButton "Sent Successfully!" true) f)
              | BodyJson false | Rejected | BodyNotJson =>
                  setButton (mkButton "Error! Try Again" true) f
              end in
            ((f2, setTimeout (RestoreSubmit "Submit") 4000 b1), Normal ())
        end
  end.

Definition runCallback (cb : Callback) (f : Form) : Form :=
  match cb with
  | RestoreSubmit label => setButton (mkButton label false) f
  | FocusFirstInput => f
  end.

(** ** [Modal] *)

Definition openModal (m : Element) (b : Browser) : Element * Browser :=
  (setAttribute "aria-hidden" "false"
     (withClasses (classList.remove "hidden") m),
   setBodyOverflow "hidden" b).

Definition closeModal (m : Element) (b : Browser) : Element * Browser :=
  (setAttribute "aria-hidden" "true"
     (withClasses (classList.add "hidden") m),
   setBodyOverflow EmptyString b).

(** ** [App] *)

Section Runner.
Context {W : Type} (consoleWrite : LogEntry → W → W).

(** [this.modules.forEach(m => m.init?.())]: nothing catches what a call
    throws, and calling a property that is not a function throws. *)
Fixpoint forEachInit (modules : list (InitProperty W)) (w : W)
  : W * Completion unit :=
  match modules with
  | [] => (w, Normal ())
  | InitMissing :: rest => forEachInit rest w
  | InitNotCallable :: rest => (w, Throw (TypeError "m.init is not a function"))
  | InitFunction f :: rest =>
      match f w with
      | (w', Normal _) => forEachInit rest w'
      | (w', Throw e) => (w', Throw e)
      end
  end.

Definition App_init (modules : list (InitProperty W)) (w : W)
  : W * Completion unit :=
  match forEachInit modules w with
  | (w', Normal _) =>
      (consoleWrite (LogInfo "✅ Website Initialized Successfully") w',
       Normal ())
  | (w', Throw e) => (w', Throw e)
  end.
End Runner.

(** ** The page as a whole *)

Record World := mkWorld {
  wBrowser : Browser;
  wTheme : ThemeDom;
  wModal : Element;
  wLinks : list Element;
  wForm : Form;
  wCounter : Counter;
}.

Inductive Op :=
  | OpThemeInit
  | OpThemeClick
  | OpOpenModal
  | OpCloseModal
  | OpScroll (offset : Z) (secs : list Section)
  | OpSubmit (cfg : AppConfig) (outcome : FetchOutcome)
  | OpTimeout
  | OpFrame (a : Animation) (time : Q).

Definition exec (op : Op) (w : World) : World :=
  let '(mkWorld b th m ls f ct) := w in
  match op with
  | OpThemeInit =>
      let '(th', b') := ThemeToggle_init th b in mkWorld b' th' m ls f ct
  | OpThemeClick =>
      let '(th', b') := ThemeToggle_click th b in mkWorld b' th' m ls f ct
  | OpOpenModal =>
      let '(m', b') := openModal m b in mkWorld b' th m' ls f ct
  | OpCloseModal =>
      let '(m', b') := closeModal m b in mkWorld b' th m' ls f ct
  | OpScroll offset secs => mkWorld b th m (updateActive ls offset secs) f ct
  | OpSubmit cfg outcome =>
      let '((f', b'), _) := submitListener cfg outcome f b in
      mkWorld b' th m ls f' ct
  | OpTimeout =>
      match timeouts b with
      | (_, cb) :: _ => mkWorld (dropTimeout b) th m ls (runCallback cb f) ct
      | [] => w
      end
  | OpFrame a t => mkWorld b th m ls f (fst (animate a t ct))
  end.

End Part001.

(** * Further parts of the scripts *)

(** ** The listeners of the dialog

    What the dialog of each version is told: a click on a trigger button, on
    its close button, inside the dialog (on its backdrop, that is with the
    dialog itself as the event target, or on its content), or a key press
    anywhere in the document. *)
Inductive ModalEvent :=
  | OpenClick
  | CloseClick
  | ModalClick (onBackdrop : bool)
  | Keydown (key : string).

Module ModalEvents.

(** [Modal.init] of [src/app.js], lines 320 to 327. *)
Definition AppJs_handle (ev : ModalEvent) (st : Element * Browser)
  : Element * Browser :=
  let '(m, b) := st in
  match ev with
  | OpenClick => AppJs.openModal m b
  | CloseClick => AppJs.closeModal m b
  | ModalClick onBackdrop => if onBackdrop then AppJs.closeModal m b else st
  | Keydown key =>
      if bool_decide (key = "Escape") && negb (hasClass "hidden" m)
      then AppJs.closeModal m b
      else st
  end.

(** [isModalOpen] of [src/unnamed/part_000]. *)
Definition isModalOpen (d : Part000.ModalDom) : bool :=
  match Part000.modal d with
  | Some m => negb (hasClass "hidden" m)
  | None => false
  end.

(** [Modal.bindEvents] of [src/unnamed/part_000]; the backdrop listener is
    bound only when the dialog exists. *)
Definition Part000_handle (ev : ModalEvent) (st : Part000.ModalDom * Browser)
  : Part000.ModalDom * Browser :=
  let '(d, b) := st in
  match ev with
  | OpenClick => Part000.openModal d b
  | CloseClick => Part000.closeModal d b
  | ModalClick onBackdrop => if onBackdrop then Part000.closeModal d b else st
  | Keydown key =>
      if bool_decide (key = "Escape") && isModalOpen d
      then Part000.closeModal d b
      else st
  end.

(** [Modal.init] of [src/unnamed/part_001], lines 292 to 296: the key
    listener closes on every Escape. *)
Definition Part001_handle (ev : ModalEvent) (st : Element * Browser)
  : Element * Browser :=
  let '(m, b) := st in
  match ev with
  | OpenClick => Part001.openModal m b
  | CloseClick => Part001.closeModal m b
  | ModalClick onBackdrop =>
      if onBackdrop then Part001.closeModal m b else st
  | Keydown key =>
      if bool_decide (key = "Escape") then Part001.closeModal m b else st
  end.

End ModalEvents.

(** ** [Utils.throttle] and [Utils.debounce] *)

Module Timing.

(** What the function [throttle] returns keeps in its closure: the flag
    [inThrottle], and here also the number of reset timeouts it has
    pending. *)
Record Throttle := mkThrottle {
  inThrottle : bool;
  pendingResets : nat;
}.

Definition newThrottle : Throttle := mkThrottle false 0.

Section Throttle.
Context {A W : Type} (func : A → W → W * Completion unit).

(** One call of the throttled function.  When [func] throws, the statements
    after it do not run: the flag stays clear and no timeout is set. *)
Definition throttled (args : A) (st : Throttle * W)
  : (Throttle * W) * Completion unit :=
  let '(t, w) := st in
  if inThrottle t then (st, Normal ())
  else
    match func args w with
    | (w', Normal _) => ((mkThrottle true (S (pendingResets t)), w'), Normal ())
    | (w', Throw e) => ((t, w'), Throw e)
    end.

(** A pending reset timeout fires: [inThrottle = false]. *)
Definition resetFires (st : Throttle * W) : Throttle * W :=
  let '(t, w) := st in
  match pendingResets t with
  | 0 => st
  | S n => (mkThrottle false n, w)
  end.
End Throttle.

(** What happens to a throttled function: it is called, or a timeout it set
    fires. *)
Inductive ThrottleEvent (A : Type) :=
  | Called (args : A)
  | ResetFired.
Arguments Called {A} args.
Arguments ResetFired {A}.

(** The closure state of [debounce]: the variable [timeout], the timeouts
    that are set and not yet fired or cleared, each with the arguments its
    [later] captured, and the next handle the browser hands out. *)
Record Debounce (A : Type) := mkDebounce {
  timeout : option nat;
  liveTimeouts : gmap nat A;
  nextHandle : nat;
}.
Arguments mkDebounce {A} timeout liveTimeouts nextHandle.
Arguments timeout {A} d.
Arguments liveTimeouts {A} d.
Arguments nextHandle {A} d.

Definition newDebounce {A : Type} : Debounce A := mkDebounce None ∅ 1.

(** [clearTimeout(timeout)] *)
Definition clearPending {A : Type} (d : Debounce A) : gmap nat A :=
  match timeout d with
  | Some h => delete h (liveTimeouts d)
  | None => liveTimeouts d
  end.

(** One call of [executedFunction(...args)]. *)
Definition debounced {A : Type} (args : A) (d : Debounce A) : Debounce A :=
  let h := nextHandle d in
  mkDebounce (Some h) (<[h := args]> (clearPending d)) (S h).

Section Debounce.
Context {A W : Type} (func : A → W → W * Completion unit).

(** The timeout with handle [h] fires and runs its [later]; a handle that is
    not set fires nothing. *)
Definition laterFires (h : nat) (st : Debounce A * W)
  : (Debounce A * W) * Completion unit :=
  let '(d, w) := st in
  match liveTimeouts d !! h with
  | None => (st, Normal ())
  | Some args =>
      let d1 := mkDebounce (timeout d) (delete h (liveTimeouts d))
                           (nextHandle d) in
      let d2 := mkDebounce (timeout d1) (clearPending d1) (nextHandle d1) in
      match func args w with
      | (w', r) => ((d2, w'), r)
      end
  end.
End Debounce.

End Timing.

(** ** The scroll listener of [Navigation.init], [src/unnamed/part_001] *)

Module Part001Scroll.

(** The header, the links, the variable [ticking], and the number of frame
    callbacks requested and not yet run. *)
Record State := mkState {
  header : Element;
  links : list Element;
  ticking : bool;
  requested : nat;
}.

(** A [scroll] event. *)
Definition onScroll (s : State) : State :=
  if ticking s then s
  else mkState (header s) (links s) true (S (requested s)).

(** A requested frame runs; [scrollY], the header's [offsetHeight] and the
    sections are what it reads from the page at that time. *)
Definition onFrame (scrollY : Q) (offsetHeight : Z) (secs : list Section)
    (s : State) : State :=
  match requested s with
  | 0 => s
  | S n =>
      mkState
        (withClasses (classList.toggle "scrolled" (Qltb 50 scrollY))
                     (header s))
        (Part001.updateActive (links s) offsetHeight secs)
        false n
  end.

Inductive Event :=
  | Scroll
  | Frame (scrollY : Q) (offsetHeight : Z) (secs : list Section).

Definition handle (s : State) (ev : Event) : State :=
  match ev with
  | Scroll => onScroll s
  | Frame y h secs => onFrame y h secs s
  end.

End Part001Scroll.

(** ** Carousel autoplay *)

(** What the carousel widgets are told: a click on the [i]-th selector
    button, the pointer entering or leaving the carousel, or the interval
    with handle [h] coming due. *)
Inductive CarouselEvent :=
  | NavClick (i : nat)
  | MouseEnter
  | MouseLeave
  | IntervalDue (h : nat).

(** [clearInterval(h)]: the interval with that handle, if it is set, is set
    no more; [null] clears nothing. *)
Definition clearInterval (h : option nat) (set : gset nat) : gset nat :=
  match h with
  | Some id => set ∖ {[id]}
  | None => set
  end.

Module AppJsAutoplay.

(** Whether the click listener of the [i]-th selector button, the
    [mouseenter] listener and the [mouseleave] listener of the carousel are
    among the listeners [init] has bound. *)
Definition navClickBound (i : nat) (l : list AppJs.Listener) : bool :=
  existsb (λ x, match x with
                | AppJs.TestimonialNavClick j => bool_decide (j = i)
                | _ => false
                end) l.

Definition mouseEnterBound (l : list AppJs.Listener) : bool :=
  existsb (λ x, match x with AppJs.CarouselMouseEnter => true | _ => false end)
          l.

Definition mouseLeaveBound (l : list AppJs.Listener) : bool :=
  existsb (λ x, match x with AppJs.CarouselMouseLeave => true | _ => false end)
          l.

(** What [TestimonialsCarousel.init] of [src/app.js] leaves: the listeners
    it bound, its closure state with the variable [autoplayTimer], the
    intervals that are set, and the next handle [setInterval] returns. *)
Record State := mkState {
  bound : list AppJs.Listener;
  carousel : AppJs.Carousel;
  autoplayTimer : option nat;
  intervals : gset nat;
  nextHandle : nat;
}.

Definition startAutoplay (s : State) : State :=
  let cleared := clearInterval (autoplayTimer s) (intervals s) in
  let id := nextHandle s in
  mkState (bound s) (carousel s) (Some id) (cleared ∪ {[id]}) (S id).

(** [init], as [AppJs.TestimonialsCarousel_init] runs it: with at most one
    card it returns at once, and without the carousel container it throws
    after binding the selector buttons; either way no interval is set.
    Run to its end, it ends in [showSlide(0); startAutoplay();]. *)
Definition started (d : AppJs.CarouselDom) : State :=
  let rt := (AppJs.TestimonialsCarousel_init d).1 in
  let s := mkState (AppJs.bound rt) (AppJs.carousel rt) None ∅ 1 in
  if AppJs.autoplay rt then startAutoplay s else s.

(** An event reaches the listener bound for it, if any. *)
Definition handle (s : State) (ev : CarouselEvent) : State :=
  match ev with
  | NavClick i =>
      if navClickBound i (bound s) then
        startAutoplay
          (mkState (bound s) (AppJs.showSlide (Z.of_nat i) (carousel s))
                   (autoplayTimer s) (intervals s) (nextHandle s))
      else s
  | MouseEnter =>
      if mouseEnterBound (bound s) then
        mkState (bound s) (carousel s) (autoplayTimer s)
                (clearInterval (autoplayTimer s) (intervals s))
                (nextHandle s)
      else s
  | MouseLeave => if mouseLeaveBound (bound s) then startAutoplay s else s
  | IntervalDue h =>
      if bool_decide (h ∈ intervals s)
      then mkState (bound s) (AppJs.nextSlide (carousel s)) (autoplayTimer s)
                   (intervals s) (nextHandle s)
      else s
  end.

End AppJsAutoplay.

Module Part000Autoplay.

(** [TestimonialsCarousel] of [src/unnamed/part_000] with its field
    [autoplayTimer], the intervals that are set, and the next handle. *)
Record State := mkState {
  carousel : Part000.Carousel;
  autoplayTimer : option nat;
  intervals : gset nat;
  nextHandle : nat;
}.

(** [if (this.autoplayTimer)]: [null] and the number 0 are falsy. *)
Definition stopAutoplay (s : State) : State :=
  match autoplayTimer s with
  | Some id =>
      if bool_decide (id = 0) then s
      else mkState (carousel s) None (intervals s ∖ {[id]}) (nextHandle s)
  | None => s
  end.

Definition startAutoplay (s : State) : State :=
  let s1 := stopAutoplay s in
  if bool_decide (Part000.totalSlides (carousel s1) > 1)%Z
  then mkState (carousel s1) (Some (nextHandle s1))
               (intervals s1 ∪ {[nextHandle s1]}) (S (nextHandle s1))
  else s1.

Definition restartAutoplay (s : State) : State :=
  startAutoplay (stopAutoplay s).

(** [init]: [setupCarousel], [bindEvents], [startAutoplay]. *)
Definition started (ss bs : list Element) : State :=
  startAutoplay (mkState (Part000.setupCarousel ss bs) None ∅ 1).

Definition handle (s : State) (ev : CarouselEvent) : State :=
  match ev with
  | NavClick i =>
      restartAutoplay
        (mkState (Part000.goToSlide (Z.of_nat i) (carousel s))
                 (autoplayTimer s) (intervals s) (nextHandle s))
  | MouseEnter => stopAutoplay s
  | MouseLeave => startAutoplay s
  | IntervalDue h =>
      if bool_decide (h ∈ intervals s)
      then mkState (Part000.nextSlide (carousel s)) (autoplayTimer s)
                   (intervals s) (nextHandle s)
      else s
  end.

End Part000Autoplay.

(** ** Form validation and form messages of [src/unnamed/part_000] *)

Module Part000Forms.

(** One element of a pattern anchored at both ends: a character class,
    matched once or one or more times. *)
Inductive Item :=
  | Once (class : ascii → bool)
  | OneOrMore (class : ascii → bool).

(** [pattern.test(s)] *)
Fixpoint test (pattern : list Item) (s : string) : bool :=
  match pattern with
  | [] => match s with EmptyString => true | String _ _ => false end
  | Once class :: rest =>
      match s with
      | String c r => class c && test rest r
      | EmptyString => false
      end
  | OneOrMore class :: rest =>
      (fix more (s : string) : bool :=
         match s with
         | String c r => class c && (more r || test rest r)
         | EmptyString => false
         end) s
  end.

(** [[^\s@]] *)
Definition notSpaceOrAt (c : ascii) : bool :=
  negb (isWhitespace c || bool_decide (c = "@"%char)).

Definition only (x c : ascii) : bool := bool_decide (c = x).

(** [/^[^\s@]+@[^\s@]+\.[^\s@]+$/] *)
Definition emailRegex : list Item :=
  [OneOrMore notSpaceOrAt; Once (only "@"); OneOrMore notSpaceOrAt;
   Once (only "."); OneOrMore notSpaceOrAt].

(** [s.replace(from, to)] with one-character strings: the first occurrence
    only. *)
Fixpoint replaceFirst (from to : ascii) (s : string) : string :=
  match s with
  | String c r =>
      if bool_decide (c = from) then String to r
      else String c (replaceFirst from to r)
  | EmptyString => EmptyString
  end.

(** [!data[field] || data[field].trim() === ''] *)
Definition isBlank (data : gmap string string) (field : string) : bool :=
  match data !! field with
  | Some v => negb (truthy v) || bool_decide (trim v = EmptyString)
  | None => true
  end.

(** The [for] loop over the required names: the first blank one ends it. *)
Fixpoint firstBlank (required : list string) (data : gmap string string)
  : option string :=
  match required with
  | field :: rest =>
      if isBlank data field then Some field else firstBlank rest data
  | [] => None
  end.

(** [emailRegex.test(data.email)]; a missing member is converted to the
    string [undefined]. *)
Definition emailTest (data : gmap string string) : bool :=
  test emailRegex (default "undefined" (data !! "email")).

(** A [.form-message] element: its type ([error] or [success]) and text. *)
Record Message := mkMessage {
  messageType : string;
  messageText : string;
}.

(** [Modal.showFormMessage] on the messages of the dialog, [None] when the
    page has no [#consultation-modal]: the lookup in the dialog then throws.
    Otherwise the first message there is removed and the new one is
    inserted at the top of the form (the form lies in the dialog, and the
    messages of the dialog are those of its form). *)
Definition showFormMessage (message type : string)
    (modal : option (list Message))
  : option (list Message) * Completion unit :=
  match modal with
  | Some ms => (Some (mkMessage type message :: tail ms), Normal ())
  | None =>
      (None,
       Throw (TypeError
                "Cannot read properties of null (reading 'querySelector')"))
  end.

Definition showFormError (message : string) (modal : option (list Message))
  : option (list Message) * Completion unit :=
  showFormMessage message "error" modal.

(** [Modal.validateForm]: what it returns, or what [showFormError] threw. *)
Definition Modal_validateForm (data : gmap string string)
    (modal : option (list Message))
  : option (list Message) * Completion bool :=
  let reject message :=
    match showFormError message modal with
    | (modal', Normal _) => (modal', Normal false)
    | (modal', Throw e) => (modal', Throw e)
    end in
  match firstBlank ["name"; "email"; "phone"; "legal-area"; "message"] data
  with
  | Some field =>
      reject ("Please fill in the " +:+ replaceFirst "-" " " field
              +:+ " field.")
  | None =>
      if emailTest data then (modal, Normal true)
      else reject "Please enter a valid email address."
  end.

(** The contact form: its messages, each with the identity of its element,
    the number of elements created so far, and the elements with a pending
    removal timeout. *)
Record ContactState := mkContactState {
  messages : list (nat * Message);
  created : nat;
  removals : list nat;
}.

(** [ContactForm.showMessage]: as [Modal.showFormMessage], and a timeout at
    5000 ms is set to remove the new element. *)
Definition showMessage (message type : string) (st : ContactState)
  : ContactState :=
  {| messages := (created st, mkMessage type message) :: tail (messages st);
     created := S (created st);
     removals := removals st ++ [created st] |}.

(** The timeout callback for the element [id]:
    [if (messageElement.parentNode) messageElement.remove()]. *)
Definition autoRemove (id : nat) (st : ContactState) : ContactState :=
  {| messages := filter (λ m, m.1 ≠ id) (messages st);
     created := created st;
     removals := removals st |}.

(** [ContactForm.validateForm] *)
Definition ContactForm_validateForm (data : gmap string string)
    (st : ContactState) : bool * ContactState :=
  match firstBlank ["name"; "email"; "message"] data with
  | Some field =>
      (false,
       showMessage ("Please fill in the " +:+ field +:+ " field.") "error" st)
  | None =>
      if emailTest data then (true, st)
      else (false,
            showMessage "Please enter a valid email address." "error" st)
  end.

(** What happens to the contact form's messages: a message is shown, or the
    removal timeout of an element fires. *)
Inductive MessageEvent :=
  | ShowMessage (message type : string)
  | FireRemoval (id : nat).

Definition handle (st : ContactState) (ev : MessageEvent) : ContactState :=
  match ev with
  | ShowMessage message type => showMessage message type st
  | FireRemoval id => autoRemove id st
  end.

End Part000Forms.

(** ** The mobile menu of [src/unnamed/part_000] *)

Module Part000Menu.

Record State := mkState {
  isMenuOpen : bool;
  navMenu : option Element;
  navToggle : option Element;
}.

(** [Navigation.toggleMenu]; reading [classList] of a missing element
    throws, after what precedes it has taken effect. *)
Definition toggleMenu (s : State) (b : Browser)
  : (State * Browser) * Completion unit :=
  let open := negb (isMenuOpen s) in
  match navMenu s with
  | None =>
      ((mkState open None (navToggle s), b),
       Throw (TypeError "Cannot read properties of null (reading 'classList')"))
  | Some menu =>
      let menu' := withClasses (classList.toggle "show-menu" open) menu in
      match navToggle s with
      | None =>
          ((mkState open (Some menu') None, b),
           Throw (TypeError
                    "Cannot read properties of null (reading 'classList')"))
      | Some toggle =>
          ((mkState open (Some menu')
              (Some (withClasses (classList.toggle "active" open) toggle)),
            setBodyOverflow (if open then "hidden" else EmptyString) b),
           Normal ())
      end
  end.

(** [Navigation.closeMenu] *)
Definition closeMenu (s : State) (b : Browser)
  : (State * Browser) * Completion unit :=
  match navMenu s with
  | None =>
      ((mkState false None (navToggle s), b),
       Throw (TypeError "Cannot read properties of null (reading 'classList')"))
  | Some menu =>
      let menu' := withClasses (classList.remove "show-menu") menu in
      match navToggle s with
      | None =>
          ((mkState false (Some menu') None, b),
           Throw (TypeError
                    "Cannot read properties of null (reading 'classList')"))
      | Some toggle =>
          ((mkState false (Some menu')
              (Some (withClasses (classList.remove "active") toggle)),
            setBodyOverflow EmptyString b),
           Normal ())
      end
  end.

(** The click listener on the document; [inMenu] and [inToggle] tell whether
    the menu, the toggle, contains the event target. *)
Definition documentClick (inMenu inToggle : bool) (s : State) (b : Browser)
  : (State * Browser) * Completion unit :=
  if isMenuOpen s then
    match navMenu s with
    | None =>
        ((s, b),
         Throw (TypeError
                  "Cannot read properties of null (reading 'contains')"))
    | Some _ =>
        if inMenu then ((s, b), Normal ())
        else
          match navToggle s with
          | None =>
              ((s, b),
               Throw (TypeError
                        "Cannot read properties of null (reading 'contains')"))
          | Some _ =>
              if inToggle then ((s, b), Normal ()) else closeMenu s b
          end
    end
  else ((s, b), Normal ()).

(** The clicks the menu hears: on the toggle, on the close button, on a
    navigation link whose [href] starts with [#], or anywhere else.  Each
    target listener runs first and the document listener after it; what a
    listener throws is reported and does not stop the next one. *)
Inductive Click :=
  | ToggleClick (inMenu : bool)
  | CloseClick (inMenu : bool)
  | HashLinkClick (inMenu : bool)
  | OtherClick (inMenu inToggle : bool).

Definition handle (st : State * Browser) (ev : Click) : State * Browser :=
  let '(s, b) := st in
  match ev with
  | ToggleClick inMenu =>
      let '(s1, b1) := fst (toggleMenu s b) in
      fst (documentClick inMenu true s1 b1)
  | CloseClick inMenu =>
      let '(s1, b1) := fst (closeMenu s b) in
      fst (documentClick inMenu false s1 b1)
  | HashLinkClick inMenu =>
      let '(s1, b1) := fst (closeMenu s b) in
      fst (documentClick inMenu false s1 b1)
  | OtherClick inMenu inToggle => fst (documentClick inMenu inToggle s b)
  end.

End Part000Menu.

(** ** [StatsCounter] *)

Module StatsCounters.

(** A [.stat-card__number[data-target]] element: the counter and its
    [data-target] attribute. *)
Record Stat := mkStat {
  counter : Counter;
  dataTarget : string;
}.

(** *** [src/unnamed/part_000]

    The module's flag, whether its observer is still connected, and the
    intervals [animateCounter] has started, each with the position of its
    counter. *)
Record Part000_State := mkPart000_State {
  hasAnimated : bool;
  connected : bool;
  tickers : list (nat * Part000.Ticker);
}.

(** [animateCounters]: a counter whose target does not parse is skipped. *)
Definition animateCounters (counters : list Stat)
  : list (nat * Part000.Ticker) :=
  omap id
    (imap (λ i s,
             (λ target,
                (i, Part000.animateCounter (counter s) (inject_Z target)
                      Part000.counterAnimationDuration))
             <$> parseInt (dataTarget s))
          counters).

(** [setupObserver]: no observer is made for an empty list of counters. *)
Definition Part000_setupObserver (counters : list Stat) : Part000_State :=
  {| hasAnimated := false;
     connected := negb (bool_decide (counters = []));
     tickers := [] |}.

(** The observer callback on a batch of entries, each given by its
    [isIntersecting]. *)
Definition Part000_callback (counters : list Stat) (entries : list bool)
    (st : Part000_State) : Part000_State :=
  foldl (λ st isIntersecting,
           if isIntersecting && negb (hasAnimated st)
           then {| hasAnimated := true;
                   connected := false;
                   tickers := tickers st ++ animateCounters counters |}
           else st)
        st entries.

(** A batch reaches the callback only while the observer is connected. *)
Definition Part000_deliver (counters : list Stat) (st : Part000_State)
    (entries : list bool) : Part000_State :=
  if connected st then Part000_callback counters entries st else st.

(** *** [src/app.js] and [src/unnamed/part_001]

    Whether the observer of [.hero__stats] is still connected, and the
    timeouts set: the delay and the position of the counter to animate. *)
Record Frame_State := mkFrame_State {
  observing : bool;
  scheduled : list (Z * nat);
}.

(** [init]: without a [.hero__stats] element nothing is observed. *)
Definition Frame_init (heroStats : bool) : Frame_State :=
  {| observing := heroStats; scheduled := [] |}.

(** The observer callback; [first] is [entries[0].isIntersecting]. *)
Definition Frame_callback (counters : list Stat) (first : bool)
    (st : Frame_State) : Frame_State :=
  if first
  then {| observing := false;
          scheduled := scheduled st
                       ++ imap (λ i _, ((Z.of_nat i * 150)%Z, i)) counters |}
  else st.

Definition Frame_deliver (counters : list Stat) (st : Frame_State)
    (first : bool) : Frame_State :=
  if observing st then Frame_callback counters first st else st.

End StatsCounters.

(** * Specification predicates *)

(** The carousel invariant: the current index is in range, exactly one slide
    carries [active] and it is the current one, a selector button carries
    [active] exactly when it is the current slide's, and with one button per
    slide exactly one button carries it. *)
Definition OneActive (ss bs : list Element) (cur : Z) : Prop :=
  (0 <= cur < Z.of_nat (length ss))%Z ∧
  countMarked "active" ss = 1 ∧
  (∀ i e, ss !! i = Some e →
          hasClass "active" e = bool_decide (Z.of_nat i = cur)) ∧
  (∀ j b, bs !! j = Some b →
          hasClass "active" b = bool_decide (Z.of_nat j = cur)) ∧
  (length bs = length ss → countMarked "active" bs = 1).

(** The invariant on the state of each version, with the sizes of the two
    node lists, which no transition changes. *)
Definition AppJs_Inv (n m : nat) (c : AppJs.Carousel) : Prop :=
  length (AppJs.slides c) = n ∧
  length (AppJs.navButtons c) = m ∧
  OneActive (AppJs.slides c) (AppJs.navButtons c) (AppJs.currentSlide c).

Definition Part000_Inv (n m : nat) (c : Part000.Carousel) : Prop :=
  length (Part000.slides c) = n ∧
  length (Part000.navButtons c) = m ∧
  Part000.totalSlides c = Z.of_nat n ∧
  OneActive (Part000.slides c) (Part000.navButtons c)
            (Part000.currentSlide c).

(** A non-empty theme preference is stored. *)
Definition themeStored (b : Browser) : bool :=
  match localStorage b !! "theme" with
  | Some s => truthy s
  | None => false
  end.

(** Every code unit of the string is white space: what a user sees as a
    blank field. *)
Fixpoint allWhitespace (s : string) : bool :=
  match s with
  | EmptyString => true
  | String c r => isWhitespace c && allWhitespace r
  end.

(** The interval-driven counter of [src/unnamed/part_000] in doubles,
    started on [el] towards the integer [target] over [duration] ms: what
    [k] firings of the callback leave. *)
Definition doubleTicks (el : Counter) (target duration : Z) (k : nat)
  : Part000Double.Ticker * Counter :=
  Nat.iter k Part000Double.tick
    (Part000Double.animateCounter el (Part000Double.number target)
       (Part000Double.number duration), el).

(** * Sample pages *)

Definition freshBrowser : Browser :=
  mkBrowser ∅ false None EmptyString [] [] [] [].

Definition darkSystemBrowser : Browser :=
  mkBrowser ∅ true None EmptyString [] [] [] [].

Definition element (cls : list string) : Element := mkElement cls ∅.

Definition anchor (href : string) (cls : list string) : Element :=
  mkElement cls {["href" := href]}.

(** A dialog as the markup ships it: hidden. *)
Definition hiddenModal : Element := element ["modal"; "hidden"].

Definition threeCards : list Element :=
  [element ["testimonial-card"; "active"]; element ["testimonial-card"];
   element ["testimonial-card"]].

Definition threeDots : list Element :=
  [element ["testimonial-nav-btn"]; element ["testimonial-nav-btn"];
   element ["testimonial-nav-btn"]].

(** A console alone as the world the runner works on. *)
Definition appendLog (entry : LogEntry) (w : list LogEntry) : list LogEntry :=
  w ++ [entry].

(** A module whose entry operation throws at once, and one that reports on
    the console that it ran. *)
Definition throwingInit : InitProperty (list LogEntry) :=
  InitFunction (λ w, (w, Throw (TypeError "localStorage is not available"))).

Definition reportingInit (msg : string) : InitProperty (list LogEntry) :=
  InitFunction (λ w, (w ++ [LogInfo msg], Normal ())).

(** The contact form with a name of three spaces; both fields are marked
    required. *)
Definition blankNameForm : Form :=
  {| fields := [mkField "name" "   " EmptyString true;
                mkField "email" "client@example.org" EmptyString true];
     submitButton := Some (mkButton "Send Message" false) |}.

Definition filledForm : Form :=
  {| fields := [mkField "name" "A. Client" EmptyString true;
                mkField "email" "client@example.org" EmptyString true];
     submitButton := Some (mkButton "Send Message" false) |}.

(** The navigation links of a first visit to [src/unnamed/part_000]:
    [handleActiveLink] found no hash and marked the link to [#home]. *)
Definition homeMarkedLinks : list Element :=
  Part000.handleActiveLink EmptyString
    [anchor "#home" ["nav__link"]; anchor "#about" ["nav__link"]].

(** One section, 900 pixels down the page, seen at scroll position 0. *)
Definition farSection : list Section := [mkSection "about" 900 900 600].

Definition zeroCounter : Counter := mkCounter "0" (Some "+").

(** The page of [src/app.js] on a first visit with a dark system scheme. *)
Definition firstVisit : AppJs.World :=
  AppJs.mkWorld darkSystemBrowser
    (AppJs.mkThemeDom (Some (element ["theme-toggle"])) (Some moonIcon))
    hiddenModal (AppJs.initCarousel threeCards threeDots)
    [anchor "#home" ["nav__link"]; anchor "#about" ["nav__link"]]
    filledForm zeroCounter.

(** The two sections of a page scrolled to its top, under a 70 pixel
    header: [home] at the top of the viewport, [about] 900 pixels below. *)
Definition homeSection : Section := mkSection "home" 0 0 900.
Definition aboutSection : Section := mkSection "about" 900 900 600.

(** ** Theme *)

(** The glyph the icon shows for a theme. *)
Definition iconFor (theme : string) : string :=
  if bool_decide (theme = "dark") then sunIcon else moonIcon.

(** The theme [t] is in force: it is the document's colour scheme, the
    stored preference, what the scripts read as the current theme, and what
    the icon, when there is one, shows. *)
Definition ThemeInForce (t : string) (icon : option string) (b : Browser)
  : Prop :=
  colorScheme b = Some t ∧ localStorage b !! "theme" = Some t ∧
  storedOrSystemTheme b = t ∧ (icon = None ∨ icon = Some (iconFor t)).

(** ** Dialog *)

(** The two-state dialog: whether it is visible after an event. *)
Definition visibleAfter (visible : bool) (ev : ModalEvent) : bool :=
  match ev with
  | OpenClick => true
  | CloseClick => false
  | ModalClick onBackdrop => if onBackdrop then false else visible
  | Keydown key => if bool_decide (key = "Escape") then false else visible
  end.

(** In [src/unnamed/part_001] the accessibility attribute and the scroll
    lock follow the [hidden] class. *)
Definition ModalConsistent (st : Element * Browser) : Prop :=
  let '(m, b) := st in
  getAttribute "aria-hidden" m
  = Some (if hasClass "hidden" m then "true" else "false") ∧
  bodyOverflow b = (if hasClass "hidden" m then EmptyString else "hidden").

(** The listener of the system colour scheme in [src/unnamed/part_000], run
    on a sequence of changes. *)
Definition systemChanges (ms : list bool) (st : Part000.ThemeDom * Browser)
  : Part000.ThemeDom * Browser :=
  foldl (λ s m, Part000.systemThemeChange m (fst s) (snd s)) st ms.

(** A sequence of events, handled in turn. *)
Definition modalRun {S : Type} (handle : ModalEvent → S → S)
    (evs : list ModalEvent) (st : S) : S :=
  foldl (λ s ev, handle ev s) st evs.

(** ** Throttled and debounced functions under observation *)

(** A function that records the arguments it is applied to. *)
Definition recordArgs {A : Type} (args : A) (w : list A)
  : list A * Completion unit :=
  (w ++ [args], Normal ()).

Definition throttleStep {A : Type} (st : Timing.Throttle * list A)
    (ev : Timing.ThrottleEvent A) : Timing.Throttle * list A :=
  match ev with
  | Timing.Called args => fst (Timing.throttled recordArgs args st)
  | Timing.ResetFired => Timing.resetFires st
  end.

Definition throttleRun {A : Type} (evs : list (Timing.ThrottleEvent A))
  : Timing.Throttle * list A :=
  foldl throttleStep (Timing.newThrottle, []) evs.

(** The arguments of the calls among the events, and the number of reset
    firings. *)
Definition calledArgs {A : Type} (evs : list (Timing.ThrottleEvent A))
  : list A :=
  omap (λ ev, match ev with
              | Timing.Called args => Some args
              | Timing.ResetFired => None
              end) evs.

Definition resetCount {A : Type} (evs : list (Timing.ThrottleEvent A)) : nat :=
  length (List.filter (λ ev, match ev with
                             | Timing.ResetFired => true
                             | Timing.Called _ => false
                             end) evs).

(** What happens to a debounced function: it is called, or the timeout with
    some handle fires. *)
Inductive DebounceEvent (A : Type) :=
  | DebouncedCall (args : A)
  | TimeoutFired (h : nat).
Arguments DebouncedCall {A} args.
Arguments TimeoutFired {A} h.

Definition debounceStep {A : Type} (st : Timing.Debounce A * list A)
    (ev : DebounceEvent A) : Timing.Debounce A * list A :=
  match ev with
  | DebouncedCall args => (Timing.debounced args (fst st), snd st)
  | TimeoutFired h => fst (Timing.laterFires recordArgs h st)
  end.

Definition debounceRun {A : Type} (evs : list (DebounceEvent A))
  : Timing.Debounce A * list A :=
  foldl debounceStep (Timing.newDebounce, []) evs.

(** The scroll listener of [part_001] from the state [Navigation.init]
    leaves. *)
Definition scrollRun (header : Element) (links : list Element)
    (evs : list Part001Scroll.Event) : Part001Scroll.State :=
  foldl Part001Scroll.handle (Part001Scroll.mkState header links false 0) evs.

(** ** Autoplay *)

(** The carousel transition an event amounts to, given the intervals set
    when it arrives: a selector click is a [GoTo], an interval that is set
    coming due is a [Next], anything else is none. *)
Definition transitionOf (set : gset nat) (ev : CarouselEvent)
  : option Transition :=
  match ev with
  | NavClick i => Some (GoTo (Z.of_nat i))
  | IntervalDue h => if bool_decide (h ∈ set) then Some Next else None
  | MouseEnter | MouseLeave => None
  end.

(** The variable [autoplayTimer] names the one interval that is set, or
    none is set. *)
Definition AtMostTheNamedInterval (timer : option nat) (set : gset nat)
    (next : nat) : Prop :=
  (set = ∅ ∨ ∃ id, timer = Some id ∧ set = {[id]}) ∧
  (∀ id, timer = Some id → 0 < id < next) ∧ 0 < next.

Definition autoplayRunAppJs (d : AppJs.CarouselDom)
    (evs : list CarouselEvent) : AppJsAutoplay.State :=
  foldl AppJsAutoplay.handle (AppJsAutoplay.started d) evs.

Definition autoplayRunPart000 (ss bs : list Element)
    (evs : list CarouselEvent) : Part000Autoplay.State :=
  foldl Part000Autoplay.handle (Part000Autoplay.started ss bs) evs.

(** ** Counters *)

(** The interval-driven counter of [part_000] towards any target: what [k]
    firings of the callback leave. *)
Definition ticksTowards (el : Counter) (target D : Q) (k : nat)
  : Part000.Ticker * Counter :=
  Nat.iter k Part000.tick (Part000.animateCounter el target D, el).

(** ** Validation, messages and menu of [part_000] *)

(** Every code unit of [s] is an ASCII character.  On such text the code
    units of the model are the characters of the source, and its white
    space is the language's. *)
Fixpoint isAscii (s : string) : bool :=
  match s with
  | EmptyString => true
  | String c r => bool_decide (nat_of_ascii c < 128) && isAscii r
  end.

(** Every code unit of [s] is in [class]. *)
Fixpoint allChars (class : ascii → bool) (s : string) : bool :=
  match s with
  | EmptyString => true
  | String c r => class c && allChars class r
  end.

(** A form value a user would call filled in: present, with a character that
    is not white space. *)
Definition filledIn (data : gmap string string) (field : string) : Prop :=
  ∃ v, data !! field = Some v ∧ allWhitespace v = false.

(** The contact form's messages after some events, on a page that starts
    without a message. *)
Definition contactRun (evs : list Part000Forms.MessageEvent)
  : Part000Forms.ContactState :=
  foldl Part000Forms.handle (Part000Forms.mkContactState [] 0 []) evs.

(** The menu flag, the two classes and the scroll lock agree. *)
Definition MenuMirrored (st : Part000Menu.State * Browser) : Prop :=
  ∃ menu toggle,
    Part000Menu.navMenu st.1 = Some menu ∧
    Part000Menu.navToggle st.1 = Some toggle ∧
    hasClass "show-menu" menu = Part000Menu.isMenuOpen st.1 ∧
    hasClass "active" toggle = Part000Menu.isMenuOpen st.1 ∧
    bodyOverflow st.2
    = (if Part000Menu.isMenuOpen st.1 then "hidden" else EmptyString).

(** ** Probing the module runners

    A module that records its call: its [init] is missing, is not a
    function, or appends [Called i] to the trace and completes as given.
    The console writes into the same trace. *)
Inductive Trace :=
  | Called (i : nat)
  | Logged (entry : LogEntry).

Inductive Probe :=
  | NoInit
  | BadInit
  | Init (c : Completion unit).

Definition probeModule (i : nat) (p : Probe) : InitProperty (list Trace) :=
  match p with
  | NoInit => InitMissing
  | BadInit => InitNotCallable
  | Init c => InitFunction (λ w, (w ++ [Called i], c))
  end.

Definition record (entry : LogEntry) (w : list Trace) : list Trace :=
  w ++ [Logged entry].

(** The call of module [i], if it has a function. *)
Definition called (i : nat) (p : Probe) : list Trace :=
  match p with
  | Init _ => [Called i]
  | NoInit | BadInit => []
  end.

(** The call of module [i] and the report of what it threw. *)
Definition calledAndLogged (msg : string) (i : nat) (p : Probe)
  : list Trace :=
  match p with
  | Init (Throw e) => [Called i; Logged (LogError msg (Some e))]
  | Init (Normal _) => [Called i]
  | NoInit | BadInit => []
  end.

(** What calling [m.init?.()] on the module throws, if anything. *)
Definition thrown (p : Probe) : option Exn :=
  match p with
  | BadInit => Some (TypeError "m.init is not a function")
  | Init (Throw e) => Some e
  | Init (Normal _) | NoInit => None
  end.

(** The theme [t] has been applied: it is the document's colour scheme, the
    stored preference and what the scripts read as the current theme.
    ([part_000] spells the two icon glyphs in a garbled encoding, so for that
    version the icon is described by [Part000.updateIcon] alone.) *)
Definition ThemeApplied (t : string) (b : Browser) : Prop :=
  colorScheme b = Some t ∧ localStorage b !! "theme" = Some t ∧
  storedOrSystemTheme b = t.

(** * Properties *)

(** ** Class lists and marked elements *)

Lemma contains_add token l :
  classList.contains token (classList.add token l) = true.
Proof.
  unfold classList.add. destruct (classList.contains token l) eqn:E; [done|].
  unfold classList.contains. apply bool_decide_eq_true.
  apply elem_of_app. right. by apply list_elem_of_singleton.
Qed.

Lemma contains_remove token l :
  classList.contains token (classList.remove token l) = false.
Proof.
  unfold classList.contains, classList.remove. apply bool_decide_eq_false.
  rewrite list_elem_of_filter. tauto.
Qed.

Lemma contains_toggle token force l :
  classList.contains token (classList.toggle token force l) = force.
Proof.
  destruct force; simpl; [apply contains_add | apply contains_remove].
Qed.

Lemma length_markOnly token index l :
  length (markOnly token index l) = length l.
Proof. apply length_imap. Qed.

Lemma hasClass_markOnly token index l i e :
  markOnly token index l !! i = Some e →
  hasClass token e = bool_decide (Z.of_nat i = index).
Proof.
  unfold markOnly. rewrite list_lookup_imap.
  destruct (l !! i) as [x|]; simpl; [|done].
  intros [= <-]. apply contains_toggle.
Qed.

(** A list in which exactly the [k]-th element satisfies [P] has one such
    element when [k] is in range and none otherwise. *)
Lemma count_single (P : Element → bool) (l : list Element) (k : nat) :
  (∀ i e, l !! i = Some e → P e = bool_decide (i = k)) →
  length (List.filter P l) = if bool_decide (k < length l) then 1 else 0.
Proof.
  revert k. induction l as [|x l IH]; intros k H.
  - done.
  - pose proof (H 0 x eq_refl) as Hx. cbn [List.filter length].
    destruct k as [|k].
    + rewrite Hx. rewrite bool_decide_eq_true_2 by done. cbn [length].
      rewrite (IH (length l)).
      * repeat case_bool_decide; lia.
      * intros i e Hi. rewrite (H (S i) e Hi).
        apply lookup_lt_Some in Hi.
        repeat case_bool_decide; done || lia.
    + rewrite Hx. rewrite bool_decide_eq_false_2 by done. rewrite (IH k).
      * repeat case_bool_decide; done || lia.
      * intros i e Hi. rewrite (H (S i) e Hi).
        repeat case_bool_decide; done || lia.
Qed.

Lemma countMarked_markOnly token index l :
  (0 <= index < Z.of_nat (length l))%Z →
  countMarked token (markOnly token index l) = 1.
Proof.
  intros Hr. unfold countMarked.
  rewrite (count_single _ _ (Z.to_nat index)).
  - rewrite length_markOnly. case_bool_decide; done || lia.
  - intros i e Hi. rewrite (hasClass_markOnly _ _ _ _ _ Hi).
    repeat case_bool_decide; done || lia.
Qed.

Lemma OneActive_markOnly ss bs index :
  (0 <= index < Z.of_nat (length ss))%Z →
  OneActive (markOnly "active" index ss) (markOnly "active" index bs) index.
Proof.
  intros Hr. unfold OneActive. rewrite !length_markOnly.
  split_and!; [lia | lia | by apply countMarked_markOnly | | | ].
  - intros i e. apply hasClass_markOnly.
  - intros j b. apply hasClass_markOnly.
  - intros Hl. apply countMarked_markOnly. lia.
Qed.

(** Index arithmetic of [next]: [k] steps from [cur] land on
    [(cur + k) mod n], which is [cur] again exactly at the multiples of [n]. *)
Lemma rem_succ_mod (cur n : Z) :
  (0 <= cur < n)%Z → Z.rem (cur + 1) n = ((cur + 1) mod n)%Z.
Proof. intros. apply Z.rem_mod_nonneg; lia. Qed.

Lemma mod_add_period (cur k n : Z) :
  (0 <= cur < n)%Z → (0 <= k)%Z →
  ((cur + k) mod n = cur ↔ k mod n = 0)%Z.
Proof.
  intros Hc Hk. rewrite <- (Z.add_mod_idemp_r cur k n) by lia.
  pose proof (Z.mod_pos_bound k n ltac:(lia)) as Hr.
  set (r := (k mod n)%Z) in *.
  destruct (decide (cur + r < n)%Z) as [Hs|Hs].
  - rewrite Z.mod_small by lia. lia.
  - replace (cur + r)%Z with ((cur + r - n) + 1 * n)%Z by lia.
    rewrite Z.mod_add by lia. rewrite Z.mod_small by lia. lia.
Qed.

(** ** Reading numbers from text *)

Example parseInt_reads_leading_digits :
  parseInt "25+" = Some 25%Z ∧ parseInt "  -7px" = Some (-7)%Z ∧
  parseInt "0x1f" = Some 31%Z ∧ parseInt "years" = None ∧
  parseInt EmptyString = None.
Proof. by split_and!. Qed.

Example showZ_then_parseInt :
  parseIntOr0 (showZ 100) = 100%Z ∧ parseIntOr0 (showZ 0) = 0%Z ∧
  parseIntOr0 (showZ (-3)) = (-3)%Z.
Proof. by split_and!. Qed.

(** ** Carousel of [src/app.js] *)

Lemma AppJs_showSlide_in_range index c :
  (0 <= index < Z.of_nat (length (AppJs.slides c)))%Z →
  AppJs.showSlide index c =
  AppJs.mkCarousel (markOnly "active" index (AppJs.slides c))
                   (markOnly "active" index (AppJs.navButtons c)) index.
Proof.
  intros Hr. unfold AppJs.showSlide.
  by rewrite bool_decide_eq_false_2 by lia.
Qed.

Lemma AppJs_showSlide_out_of_range index c :
  (index < 0 ∨ Z.of_nat (length (AppJs.slides c)) <= index)%Z →
  AppJs.showSlide index c = c.
Proof.
  intros Hr. unfold AppJs.showSlide.
  by rewrite bool_decide_eq_true_2 by lia.
Qed.

(** Whatever the cards carried before (the markup, or the state an
    interrupted [init] left), a [showSlide] in range marks exactly one. *)
Lemma AppJs_showSlide_marks_one index c :
  (0 <= index < Z.of_nat (length (AppJs.slides c)))%Z →
  let c' := AppJs.showSlide index c in
  OneActive (AppJs.slides c') (AppJs.navButtons c') (AppJs.currentSlide c').
Proof.
  intros Hr. simpl. rewrite AppJs_showSlide_in_range by done. simpl.
  by apply OneActive_markOnly.
Qed.

Lemma AppJs_showSlide_inv n m index c :
  AppJs_Inv n m c → AppJs_Inv n m (AppJs.showSlide index c).
Proof.
  intros (Hn & Hm & Hone).
  destruct (decide (0 <= index < Z.of_nat (length (AppJs.slides c)))%Z)
    as [Hr|Hr].
  - rewrite AppJs_showSlide_in_range by done. unfold AppJs_Inv. simpl.
    rewrite !length_markOnly. split_and!; [done | done |].
    by apply OneActive_markOnly.
  - rewrite AppJs_showSlide_out_of_range by lia. by split_and!.
Qed.

Lemma AppJs_initCarousel_inv ss bs :
  1 ≤ length ss → AppJs_Inv (length ss) (length bs) (AppJs.initCarousel ss bs).
Proof.
  intros Hn. unfold AppJs.initCarousel.
  rewrite AppJs_showSlide_in_range by (simpl; lia).
  unfold AppJs_Inv. simpl. rewrite !length_markOnly.
  split_and!; [done | done |]. apply OneActive_markOnly. lia.
Qed.

Lemma AppJs_nextSlide_index n m c :
  AppJs_Inv n m c →
  AppJs.currentSlide (AppJs.nextSlide c) =
  ((AppJs.currentSlide c + 1) mod Z.of_nat n)%Z.
Proof.
  intros (Hn & Hm & Hr & _). unfold AppJs.nextSlide.
  rewrite Hn in *. rewrite rem_succ_mod by done.
  pose proof (Z.mod_pos_bound (AppJs.currentSlide c + 1) (Z.of_nat n)
                ltac:(lia)).
  rewrite AppJs_showSlide_in_range by (rewrite Hn; lia). done.
Qed.

Lemma AppJs_step_inv n m c t :
  AppJs_Inv n m c → AppJs_Inv n m (AppJs.step c t).
Proof. destruct t; apply AppJs_showSlide_inv. Qed.

Lemma AppJs_run_inv n m ts c :
  AppJs_Inv n m c → AppJs_Inv n m (AppJs.run ts c).
Proof.
  revert c. induction ts as [|t ts IH]; intros c Hc; [done|].
  apply IH. by apply AppJs_step_inv.
Qed.

Lemma AppJs_iter_next n m k c :
  AppJs_Inv n m c →
  AppJs_Inv n m (Nat.iter k AppJs.nextSlide c) ∧
  AppJs.currentSlide (Nat.iter k AppJs.nextSlide c) =
  ((AppJs.currentSlide c + Z.of_nat k) mod Z.of_nat n)%Z.
Proof.
  intros Hc. induction k as [|k [IHi IHk]].
  - split; [done|]. destruct Hc as (Hn & _ & Hr & _). rewrite Hn in Hr.
    simpl. rewrite Z.add_0_r. by rewrite Z.mod_small by lia.
  - rewrite Nat.iter_succ. split; [by apply (AppJs_step_inv n m _ Next)|].
    rewrite (AppJs_nextSlide_index n m) by done. rewrite IHk.
    destruct Hc as (Hn & _ & Hr & _). rewrite Hn in Hr.
    rewrite Z.add_mod_idemp_l by lia. f_equal. lia.
Qed.

(** ** Carousel of [src/unnamed/part_000] *)

Lemma length_addClassAt token index l :
  length (Part000.addClassAt token index l) = length l.
Proof.
  unfold Part000.addClassAt. case_bool_decide; [apply length_alter | done].
Qed.

Lemma hasClass_show_slides index ss i e :
  (0 <= index)%Z →
  Part000.addClassAt "active" index
    (withClasses (classList.remove "active") <$> ss) !! i = Some e →
  hasClass "active" e = bool_decide (Z.of_nat i = index).
Proof.
  intros Hi. unfold Part000.addClassAt.
  rewrite bool_decide_eq_true_2 by done.
  destruct (decide (Z.to_nat index = i)) as [<-|Hne].
  - rewrite list_lookup_alter_eq, list_lookup_fmap.
    destruct (ss !! Z.to_nat index) as [x|]; simpl; [|done].
    intros [= <-]. unfold hasClass. simpl. rewrite contains_add.
    by rewrite bool_decide_eq_true_2 by lia.
  - rewrite list_lookup_alter_ne by done. rewrite list_lookup_fmap.
    destruct (ss !! i) as [x|]; simpl; [|done].
    intros [= <-]. unfold hasClass. simpl. rewrite contains_remove.
    by rewrite bool_decide_eq_false_2 by lia.
Qed.

Lemma Part000_showSlide_marks_one index c :
  (0 <= index < Z.of_nat (length (Part000.slides c)))%Z →
  let c' := Part000.showSlide index c in
  OneActive (Part000.slides c') (Part000.navButtons c')
            (Part000.currentSlide c').
Proof.
  intros Hr. unfold Part000.showSlide. simpl. unfold OneActive.
  rewrite length_addClassAt, length_fmap, length_markOnly.
  split_and!; [lia | lia | | | |].
  - unfold countMarked. rewrite (count_single _ _ (Z.to_nat index)).
    + rewrite length_addClassAt, length_fmap.
      by rewrite bool_decide_eq_true_2 by lia.
    + intros i e Hi.
      rewrite (hasClass_show_slides index _ i e) by (lia || done).
      repeat case_bool_decide; done || lia.
  - intros i e. apply hasClass_show_slides. lia.
  - intros j b. apply hasClass_markOnly.
  - intros Hl. apply countMarked_markOnly. lia.
Qed.

Lemma Part000_showSlide_inv n m index c :
  (0 <= index < Z.of_nat n)%Z →
  Part000_Inv n m c → Part000_Inv n m (Part000.showSlide index c).
Proof.
  intros Hr (Hn & Hm & Ht & _). split_and!.
  - unfold Part000.showSlide. simpl.
    by rewrite length_addClassAt, length_fmap.
  - unfold Part000.showSlide. simpl. by rewrite length_markOnly.
  - done.
  - apply Part000_showSlide_marks_one. by rewrite Hn.
Qed.

Lemma Part000_goToSlide_inv n m index c :
  Part000_Inv n m c → Part000_Inv n m (Part000.goToSlide index c).
Proof.
  intros Hc. unfold Part000.goToSlide. case_bool_decide as Hr; [|done].
  destruct Hc as (Hn & Hm & Ht & Hone) eqn:E. clear E.
  apply Part000_showSlide_inv; [lia | by split_and!].
Qed.

Lemma Part000_nextSlide_index n m c :
  Part000_Inv n m c →
  Part000.currentSlide (Part000.nextSlide c) =
  ((Part000.currentSlide c + 1) mod Z.of_nat n)%Z.
Proof.
  intros (Hn & Hm & Ht & Hr & _). unfold Part000.nextSlide. simpl.
  rewrite Ht. rewrite Hn in Hr. by apply rem_succ_mod.
Qed.

Lemma Part000_nextSlide_inv n m c :
  Part000_Inv n m c → Part000_Inv n m (Part000.nextSlide c).
Proof.
  intros Hc. pose proof Hc as (Hn & Hm & Ht & Hr & _).
  unfold Part000.nextSlide. rewrite Ht. rewrite Hn in Hr.
  rewrite rem_succ_mod by done.
  apply Part000_showSlide_inv; [|done].
  apply Z.mod_pos_bound. lia.
Qed.

Lemma Part000_step_inv n m c t :
  Part000_Inv n m c → Part000_Inv n m (Part000.step c t).
Proof.
  destruct t; [apply Part000_nextSlide_inv | apply Part000_goToSlide_inv].
Qed.

Lemma Part000_run_inv n m ts c :
  Part000_Inv n m c → Part000_Inv n m (Part000.run ts c).
Proof.
  revert c. induction ts as [|t ts IH]; intros c Hc; [done|].
  apply IH. by apply Part000_step_inv.
Qed.

Lemma Part000_setupCarousel_inv ss bs :
  1 ≤ length ss →
  Part000_Inv (length ss) (length bs) (Part000.setupCarousel ss bs).
Proof.
  intros Hn. unfold Part000.setupCarousel. simpl.
  rewrite bool_decide_eq_false_2 by lia. split_and!.
  - unfold Part000.showSlide. simpl.
    by rewrite length_addClassAt, length_fmap.
  - unfold Part000.showSlide. simpl. by rewrite length_markOnly.
  - done.
  - apply Part000_showSlide_marks_one. simpl. lia.
Qed.

Lemma Part000_iter_next n m k c :
  Part000_Inv n m c →
  Part000_Inv n m (Nat.iter k Part000.nextSlide c) ∧
  Part000.currentSlide (Nat.iter k Part000.nextSlide c) =
  ((Part000.currentSlide c + Z.of_nat k) mod Z.of_nat n)%Z.
Proof.
  intros Hc. induction k as [|k [IHi IHk]].
  - split; [done|]. destruct Hc as (Hn & _ & _ & Hr & _). rewrite Hn in Hr.
    simpl. rewrite Z.add_0_r. by rewrite Z.mod_small by lia.
  - rewrite Nat.iter_succ. split; [by apply Part000_nextSlide_inv|].
    rewrite (Part000_nextSlide_index n m) by done. rewrite IHk.
    destruct Hc as (Hn & _ & _ & Hr & _). rewrite Hn in Hr.
    rewrite Z.add_mod_idemp_l by lia. f_equal. lia.
Qed.

(** C6.  For every carousel with [n >= 2] slides, in [src/app.js] and in
    [src/unnamed/part_000]: from the state initialization leaves, [k] calls of
    [next] put the current index at [k mod n], so the index runs through
    [0 .. n-1] and back to [0]; from any state reached by [next] and [goTo]
    transitions the index is back where it was exactly at the multiples of
    [n]; and in every such state exactly one slide carries [active], it is the
    current one, a selector button carries [active] exactly when it is the
    current slide's, and with one button per slide that is exactly one
    button. *)
Theorem carousel_cycle_and_single_active (ss bs : list Element) :
  2 ≤ length ss →
  let n := Z.of_nat (length ss) in
  ((∀ k, AppJs.currentSlide
           (Nat.iter k AppJs.nextSlide (AppJs.initCarousel ss bs)) =
         (Z.of_nat k mod n)%Z) ∧
   (∀ ts, let c := AppJs.run ts (AppJs.initCarousel ss bs) in
          OneActive (AppJs.slides c) (AppJs.navButtons c)
                    (AppJs.currentSlide c) ∧
          length (AppJs.slides c) = length ss ∧
          ∀ k, AppJs.currentSlide (Nat.iter k AppJs.nextSlide c) =
               AppJs.currentSlide c ↔ (Z.of_nat k mod n = 0)%Z)) ∧
  ((∀ k, Part000.currentSlide
           (Nat.iter k Part000.nextSlide (Part000.setupCarousel ss bs)) =
         (Z.of_nat k mod n)%Z) ∧
   (∀ ts, let c := Part000.run ts (Part000.setupCarousel ss bs) in
          OneActive (Part000.slides c) (Part000.navButtons c)
                    (Part000.currentSlide c) ∧
          length (Part000.slides c) = length ss ∧
          ∀ k, Part000.currentSlide (Nat.iter k Part000.nextSlide c) =
               Part000.currentSlide c ↔ (Z.of_nat k mod n = 0)%Z)).
Proof.
  intros Hn n. split.
  - pose proof (AppJs_initCarousel_inv ss bs ltac:(lia)) as H0. split.
    + intros k. destruct (AppJs_iter_next _ _ k _ H0) as [_ ->].
      f_equal. unfold AppJs.initCarousel.
      by rewrite AppJs_showSlide_in_range by (simpl; lia).
    + intros ts c.
      pose proof (AppJs_run_inv _ _ ts _ H0) as Hc. fold c in Hc.
      pose proof Hc as (Hl & _ & Hone). split_and!; [done | done |].
      intros k. destruct (AppJs_iter_next _ _ k _ Hc) as [_ ->].
      destruct Hone as (Hr & _). rewrite Hl in Hr.
      apply mod_add_period; lia.
  - pose proof (Part000_setupCarousel_inv ss bs ltac:(lia)) as H0. split.
    + intros k. destruct (Part000_iter_next _ _ k _ H0) as [_ ->].
      f_equal. unfold Part000.setupCarousel. simpl.
      by rewrite bool_decide_eq_false_2 by lia.
    + intros ts c.
      pose proof (Part000_run_inv _ _ ts _ H0) as Hc. fold c in Hc.
      pose proof Hc as (Hl & _ & _ & Hone). split_and!; [done | done |].
      intros k. destruct (Part000_iter_next _ _ k _ Hc) as [_ ->].
      destruct Hone as (Hr & _). rewrite Hl in Hr.
      apply mod_add_period; lia.
Qed.

(** [C6] at three cards with one selector button each. *)
Lemma carousel_cycle_witness :
  2 ≤ length threeCards ∧
  AppJs.currentSlide
    (Nat.iter 4 AppJs.nextSlide (AppJs.initCarousel threeCards threeDots))
  = 1%Z.
Proof.
  split; [simpl; lia|].
  exact (proj1 (proj1 (carousel_cycle_and_single_active threeCards threeDots
                         ltac:(simpl; lia))) 4).
Defined.

(** ** The browser record *)

Lemma bodyOverflow_setBodyOverflow v b :
  bodyOverflow (setBodyOverflow v b) = v.
Proof. by destruct b. Qed.

Lemma localStorage_setBodyOverflow v b :
  localStorage (setBodyOverflow v b) = localStorage b.
Proof. by destruct b. Qed.

Lemma localStorage_setTimeout cb d b :
  localStorage (setTimeout cb d b) = localStorage b.
Proof. by destruct b. Qed.

Lemma localStorage_fetch r b : localStorage (fetch r b) = localStorage b.
Proof. by destruct b. Qed.

Lemma localStorage_alert msg b : localStorage (alert msg b) = localStorage b.
Proof. by destruct b. Qed.

Lemma localStorage_consoleWrite e b :
  localStorage (consoleWrite e b) = localStorage b.
Proof. by destruct b. Qed.

Lemma localStorage_dropTimeout b :
  localStorage (dropTimeout b) = localStorage b.
Proof. by destruct b. Qed.

Lemma localStorage_setPrefersDark m b :
  localStorage (setPrefersDark m b) = localStorage b.
Proof. by destruct b. Qed.

Lemma localStorage_setColorScheme v b :
  localStorage (setColorScheme v b) = localStorage b.
Proof. by destruct b. Qed.

Lemma localStorage_setItem k v b :
  localStorage (setItem k v b) = <[k := v]> (localStorage b).
Proof. by destruct b. Qed.

Lemma requests_fetch r b : requests (fetch r b) = requests b ++ [r].
Proof. by destruct b. Qed.

Lemma requests_alert msg b : requests (alert msg b) = requests b.
Proof. by destruct b. Qed.

Lemma timeouts_setTimeout cb d b :
  timeouts (setTimeout cb d b) = timeouts b ++ [(d, cb)].
Proof. by destruct b. Qed.

Lemma timeouts_fetch r b : timeouts (fetch r b) = timeouts b.
Proof. by destruct b. Qed.

Lemma timeouts_consoleWrite e b : timeouts (consoleWrite e b) = timeouts b.
Proof. by destruct b. Qed.

(** ** Modal dialog *)

(** C7 at a failing input.  On a page with the dialog hidden and the body
    scrolling freely, opening the dialog in [src/app.js] shows it and does
    nothing else: the body overflow stays empty, so the page behind still
    scrolls, and no [aria-hidden] attribute is set; closing it then only
    hides it again.  On the same page [src/unnamed/part_001] locks the
    scroll and sets [aria-hidden] to [false] on opening, and unlocks and
    sets it to [true] on closing; [src/unnamed/part_000] locks and unlocks
    the scroll and sets no attribute. *)
Theorem modal_open_appjs_no_scroll_lock :
  (let '(mo, bo) := AppJs.openModal hiddenModal freshBrowser in
   let '(mc, bc) := AppJs.closeModal mo bo in
   hasClass "hidden" mo = false ∧ bodyOverflow bo = EmptyString ∧
   getAttribute "aria-hidden" mo = None ∧
   hasClass "hidden" mc = true ∧ getAttribute "aria-hidden" mc = None) ∧
  (let '(mo, bo) := Part001.openModal hiddenModal freshBrowser in
   let '(mc, bc) := Part001.closeModal mo bo in
   hasClass "hidden" mo = false ∧ bodyOverflow bo = "hidden" ∧
   getAttribute "aria-hidden" mo = Some "false" ∧
   hasClass "hidden" mc = true ∧ bodyOverflow bc = EmptyString ∧
   getAttribute "aria-hidden" mc = Some "true") ∧
  (let '(d1, bo) :=
     Part000.openModal (Part000.mkModalDom (Some hiddenModal) true)
                       freshBrowser in
   let '(d2, bc) := Part000.closeModal d1 bo in
   bodyOverflow bo = "hidden" ∧ bodyOverflow bc = EmptyString ∧
   (getAttribute "aria-hidden" <$> Part000.modal d1) = Some None ∧
   (getAttribute "aria-hidden" <$> Part000.modal d2) = Some None).
Proof. by vm_compute. Qed.

(** What opening and closing do in each version, on any dialog and page.
    In [src/unnamed/part_001] opening the dialog removes its [hidden] class,
    sets the body overflow to [hidden] and [aria-hidden] to [false]; closing
    puts the class back, clears the overflow and sets [aria-hidden] to
    [true].  In [src/unnamed/part_000] opening and closing do the same to
    the class and the body overflow and leave the attributes of the dialog
    alone.  In [src/app.js] they change the class. *)
Lemma modal_open_close_effects (m : Element) (b : Browser) (inp : bool) :
  (let '(mo, bo) := Part001.openModal m b in
   let '(mc, bc) := Part001.closeModal mo bo in
   (hasClass "hidden" mo = false ∧ bodyOverflow bo = "hidden" ∧
    getAttribute "aria-hidden" mo = Some "false") ∧
   (hasClass "hidden" mc = true ∧ bodyOverflow bc = EmptyString ∧
    getAttribute "aria-hidden" mc = Some "true")) ∧
  (let '(d1, bo) := Part000.openModal (Part000.mkModalDom (Some m) inp) b in
   let '(d2, bc) := Part000.closeModal d1 bo in
   ∃ mo mc, Part000.modal d1 = Some mo ∧ Part000.modal d2 = Some mc ∧
     (hasClass "hidden" mo = false ∧ bodyOverflow bo = "hidden" ∧
      attributes mo = attributes m) ∧
     (hasClass "hidden" mc = true ∧ bodyOverflow bc = EmptyString ∧
      attributes mc = attributes m)) ∧
  (let '(mo, bo) := AppJs.openModal m b in
   let '(mc, bc) := AppJs.closeModal mo bo in
   hasClass "hidden" mo = false ∧ hasClass "hidden" mc = true).
Proof.
  split_and!.
  - simpl. unfold hasClass, getAttribute. simpl.
    rewrite contains_remove, contains_add, !bodyOverflow_setBodyOverflow.
    by rewrite !lookup_insert_eq.
  - simpl. eexists _, _. split_and!; try reflexivity.
    + unfold hasClass. simpl. apply contains_remove.
    + destruct inp; [destruct (setBodyOverflow "hidden" b) eqn:E|];
        try apply bodyOverflow_setBodyOverflow.
      simpl. apply (f_equal bodyOverflow) in E.
      by rewrite bodyOverflow_setBodyOverflow in E.
    + unfold hasClass. simpl. apply contains_add.
    + apply bodyOverflow_setBodyOverflow.
  - simpl. unfold hasClass. simpl. by rewrite contains_remove, contains_add.
Qed.

(** ** Theme preference *)

Lemma storedOrSystemTheme_stored b :
  themeStored b = true →
  localStorage b !! "theme" = Some (storedOrSystemTheme b).
Proof.
  unfold themeStored, storedOrSystemTheme.
  destruct (localStorage b !! "theme") as [s|]; [|done].
  by intros ->.
Qed.

(** Storing the theme that is stored already leaves the store as it is. *)
Lemma store_current_theme b :
  themeStored b = true →
  <["theme" := storedOrSystemTheme b]> (localStorage b) = localStorage b.
Proof. intros H. apply insert_id. by apply storedOrSystemTheme_stored. Qed.

Lemma AppJs_setTheme_storage theme b :
  localStorage (AppJs.setTheme theme b) = <["theme" := theme]> (localStorage b).
Proof. by destruct b. Qed.

Lemma Part000_setTheme_storage theme b :
  localStorage (Part000.setTheme theme b)
  = <["theme" := theme]> (localStorage b).
Proof. by destruct b. Qed.

Lemma Part001_setTheme_storage theme b :
  localStorage (Part001.setTheme theme b)
  = <["theme" := theme]> (localStorage b).
Proof. by destruct b. Qed.

Lemma AppJs_submit_storage outcome f b :
  localStorage (snd (fst (AppJs.submitListener outcome f b)))
  = localStorage b.
Proof.
  unfold AppJs.submitListener. case_bool_decide; simpl.
  - apply localStorage_alert.
  - destruct (submitButton f); [|done].
    destruct outcome as [| |[]]; simpl;
      rewrite localStorage_setTimeout, ?localStorage_consoleWrite;
      apply localStorage_fetch.
Qed.

Lemma Part001_submit_storage cfg outcome f b :
  localStorage (snd (fst (Part001.submitListener cfg outcome f b)))
  = localStorage b.
Proof.
  unfold Part001.submitListener.
  destruct (Part001.web3FormsAccessKey cfg) as [key|]; simpl;
    [|apply localStorage_alert].
  destruct (truthy key); simpl; [|apply localStorage_alert].
  destruct (Part001.allRequiredFilled f); simpl; [|apply localStorage_alert].
  destruct (submitButton f); [|done]. simpl.
  rewrite localStorage_setTimeout. apply localStorage_fetch.
Qed.

(** C4 at a failing input.  On a first visit (nothing stored, the system
    scheme dark) the initialization of [ThemeToggle] writes the stored
    preference: [dark] is stored although nothing was stored before and
    nothing was toggled, in [src/unnamed/part_000] as in [src/app.js] and
    [src/unnamed/part_001].  In [part_000] that write also silences the
    version's own listener for system changes, which acts only while nothing
    is stored: before initialization a change of the system scheme to light
    makes the document light, after it the same change leaves the document,
    the store and the icon as they were. *)
Theorem theme_init_writes_store :
  let toggle := Some (element ["theme-toggle"]) in
  let d0 := Part000.mkThemeDom toggle (Some EmptyString) in
  let st := Part000.ThemeToggle_init d0 darkSystemBrowser in
  (localStorage darkSystemBrowser !! "theme" = None ∧
   localStorage st.2 !! "theme" = Some "dark" ∧
   colorScheme st.2 = Some "dark") ∧
  (colorScheme (Part000.systemThemeChange false d0 darkSystemBrowser).2
   = Some "light" ∧
   Part000.systemThemeChange false st.1 st.2
   = (st.1, setPrefersDark false st.2) ∧
   colorScheme (Part000.systemThemeChange false st.1 st.2).2
   = Some "dark") ∧
  localStorage
    (AppJs.ThemeToggle_init (AppJs.mkThemeDom toggle None)
                            darkSystemBrowser).2 !! "theme"
  = Some "dark" ∧
  localStorage
    (Part001.ThemeToggle_init (Part001.mkThemeDom toggle None)
                              darkSystemBrowser).2 !! "theme"
  = Some "dark".
Proof. by vm_compute. Qed.

(** Apart from that, the store is left alone.  In each version the stored
    theme preference changes only through the theme-toggle action, through
    the initialization of [ThemeToggle] when no non-empty preference is
    stored, or (in [src/unnamed/part_000], the one version with that
    listener) through a system-preference-change notification when no
    non-empty preference is stored.  The carousel, the dialog, the link
    highlighter, form submission, its timeout and the counter animation
    leave it as it is. *)
Lemma theme_store_changed_only_by_theme_ops :
  (∀ op w,
     localStorage (AppJs.wBrowser (AppJs.exec op w))
     ≠ localStorage (AppJs.wBrowser w) →
     op = AppJs.OpThemeClick ∨
     (op = AppJs.OpThemeInit ∧ themeStored (AppJs.wBrowser w) = false)) ∧
  (∀ op w,
     localStorage (Part000.wBrowser (Part000.exec op w))
     ≠ localStorage (Part000.wBrowser w) →
     op = Part000.OpThemeClick ∨
     ((op = Part000.OpThemeInit ∨ ∃ m, op = Part000.OpSystemThemeChange m) ∧
      themeStored (Part000.wBrowser w) = false)) ∧
  (∀ op w,
     localStorage (Part001.wBrowser (Part001.exec op w))
     ≠ localStorage (Part001.wBrowser w) →
     op = Part001.OpThemeClick ∨
     (op = Part001.OpThemeInit ∧ themeStored (Part001.wBrowser w) = false)).
Proof.
  split_and!.
  - intros op [b th m c ls f ct] H. destruct op; simpl in H;
      try (by left); try done.
    + right. split; [done|]. destruct (themeStored b) eqn:E; [|done].
      exfalso. apply H. unfold AppJs.ThemeToggle_init.
      destruct (AppJs.themeToggle th); [|done]. simpl.
      rewrite AppJs_setTheme_storage. by apply store_current_theme.
    + pose proof (AppJs_submit_storage outcome f b) as Hs.
      destruct (AppJs.submitListener outcome f b) as [[f' b'] r]. done.
    + destruct (timeouts b) as [|[d cb] tm]; [done|]. simpl in H.
      by rewrite localStorage_dropTimeout in H.
  - intros op [b th m c ls ct] H. destruct op; simpl in H;
      try (by left); try done.
    + right. split; [by left|]. destruct (themeStored b) eqn:E; [|done].
      exfalso. apply H. rewrite Part000_setTheme_storage.
      by apply store_current_theme.
    + right. split; [by eauto|]. destruct (themeStored b) eqn:E; [|done].
      exfalso. apply H. unfold Part000.systemThemeChange.
      unfold themeStored in E. rewrite localStorage_setPrefersDark.
      destruct (localStorage b !! "theme") as [s|]; [|done].
      rewrite E. simpl. apply localStorage_setPrefersDark.
    + exfalso. apply H. unfold Part000.openModal.
      destruct (Part000.modal m); [|done]. simpl.
      destruct (Part000.hasInput m);
        rewrite ?localStorage_setTimeout; apply localStorage_setBodyOverflow.
    + exfalso. apply H. unfold Part000.closeModal.
      destruct (Part000.modal m); [|done]. simpl.
      apply localStorage_setBodyOverflow.
    + by rewrite localStorage_dropTimeout in H.
  - intros op [b th m ls f ct] H. destruct op; simpl in H;
      try (by left); try done.
    + right. split; [done|]. destruct (themeStored b) eqn:E; [|done].
      exfalso. apply H. unfold Part001.ThemeToggle_init.
      destruct (Part001.themeToggle th); [|done]. simpl.
      rewrite Part001_setTheme_storage. by apply store_current_theme.
    + by rewrite localStorage_setBodyOverflow in H.
    + by rewrite localStorage_setBodyOverflow in H.
    + pose proof (Part001_submit_storage cfg outcome f b) as Hs.
      destruct (Part001.submitListener cfg outcome f b) as [[f' b'] r]. done.
    + destruct (timeouts b) as [|[d cb] tm]; [done|]. simpl in H.
      by rewrite localStorage_dropTimeout in H.
Qed.

(** ** Module runner *)

(** In [src/app.js] and [src/unnamed/part_000] a module that throws is logged
    and the modules after it are initialized from the state it left. *)
Lemma AppJs_runner_isolates {W} (cw : LogEntry → W → W) pre f post w w' e :
  f (foldl (AppJs.initializeModule cw) w pre) = (w', Throw e) →
  AppJs.App_init cw (pre ++ InitFunction f :: post) w
  = AppJs.App_init cw post
      (cw (LogError "Error initializing module" (Some e)) w').
Proof.
  intros H. unfold AppJs.App_init. rewrite foldl_app. simpl. by rewrite H.
Qed.

Lemma Part000_runner_isolates {W} (cw : LogEntry → W → W)
    pre f post w w' e :
  f (foldl (Part000.initializeModule cw) w pre) = (w', Throw e) →
  Part000.initializeModules cw (pre ++ InitFunction f :: post) w
  = Part000.initializeModules cw post
      (cw (LogError "Error initializing module:" (Some e)) w').
Proof.
  intros H. unfold Part000.initializeModules. rewrite foldl_app. simpl.
  by rewrite H.
Qed.

(** In [src/unnamed/part_001] the first module that throws ends the loop:
    the exception leaves [App.init] and no later module runs. *)
Lemma Part001_runner_stops {W} (cw : LogEntry → W → W)
    pre f post w w1 w' e :
  Part001.forEachInit pre w = (w1, Normal ()) →
  f w1 = (w', Throw e) →
  Part001.App_init cw (pre ++ InitFunction f :: post) w = (w', Throw e).
Proof.
  intros Hpre Hf. unfold Part001.App_init.
  assert (Part001.forEachInit (pre ++ InitFunction f :: post) w
          = (w', Throw e)) as ->; [|done].
  revert w Hpre. induction pre as [|[| |g] pre IH]; intros w Hpre; simpl in *.
  - injection Hpre as ->. by rewrite Hf.
  - by apply IH.
  - done.
  - destruct (g w) as [w2 [[]|e2]]; [by apply IH | done].
Qed.

(** C1 at a failing input.  With a first module that throws and a second that
    reports on the console, [App.init] of [src/unnamed/part_001] ends with
    the exception and an empty console: nothing was caught or logged and the
    second module never ran.  On the same modules the runners of
    [src/app.js] and [src/unnamed/part_000] log the error and run the second
    module. *)
Theorem runner_part001_stops_at_first_throw :
  let modules := [throwingInit; reportingInit "second module bound"] in
  Part001.App_init appendLog modules []
  = ([], Throw (TypeError "localStorage is not available")) ∧
  AppJs.App_init appendLog modules []
  = [LogError "Error initializing module"
       (Some (TypeError "localStorage is not available"));
     LogInfo "second module bound";
     LogInfo "✅ Website Initialized Successfully!"] ∧
  Part000.initializeModules appendLog modules []
  = [LogError "Error initializing module:"
       (Some (TypeError "localStorage is not available"));
     LogInfo "second module bound"].
Proof. by split_and!. Qed.

(** ** Missing elements at initialization *)

(** [Navigation.init] of [src/app.js] binds what it finds and returns. *)
Lemma AppJs_Navigation_init_returns d :
  snd (AppJs.Navigation_init d) = Normal ().
Proof. done. Qed.

(** With its container present, or with at most one card,
    [TestimonialsCarousel.init] of [src/app.js] returns. *)
Lemma AppJs_carousel_init_returns d :
  is_Some (AppJs.testimonialsCarousel d)
  ∨ length (AppJs.testimonialCards d) ≤ 1 →
  snd (AppJs.TestimonialsCarousel_init d) = Normal ().
Proof.
  intros H. unfold AppJs.TestimonialsCarousel_init.
  case_bool_decide; [done|].
  destruct H as [[c ->]|H]; [done | lia].
Qed.

(** C5 at a failing input.  On a page with three testimonial cards and their
    selector buttons but no [#testimonials-carousel] element,
    [TestimonialsCarousel.init] of [src/app.js] throws a [TypeError] after it
    has bound the button listeners: no card was marked and no autoplay timer
    was started. *)
Theorem carousel_init_throws_without_container :
  AppJs.TestimonialsCarousel_init
    (AppJs.mkCarouselDom None threeCards threeDots)
  = ({| AppJs.bound := [AppJs.TestimonialNavClick 0;
                        AppJs.TestimonialNavClick 1;
                        AppJs.TestimonialNavClick 2];
        AppJs.carousel := AppJs.mkCarousel threeCards threeDots 0;
        AppJs.autoplay := false |},
     Throw (TypeError
              "Cannot read properties of null (reading 'addEventListener')")).
Proof. reflexivity. Qed.

(** ** Form submission *)

Lemma trimStart_allWhitespace s :
  allWhitespace s = true → trimStart s = EmptyString.
Proof.
  induction s as [|c r IH]; [done|]. simpl.
  destruct (isWhitespace c); [apply IH | done].
Qed.

Lemma trim_allWhitespace s : allWhitespace s = true → trim s = EmptyString.
Proof. intros H. unfold trim. by rewrite (trimStart_allWhitespace s H). Qed.

(** In [src/unnamed/part_001] a blank required field ends the listener at
    its alert: the form and the request log are as before. *)
Lemma Part001_blank_required_aborts cfg outcome f b x :
  x ∈ fields f → required x = true → allWhitespace (value x) = true →
  ∃ msg, Part001.submitListener cfg outcome f b = ((f, alert msg b), Normal ()).
Proof.
  intros Hx Hreq Hblank. unfold Part001.submitListener.
  destruct (Part001.web3FormsAccessKey cfg) as [key|]; [|by eexists].
  destruct (truthy key); simpl; [|by eexists].
  assert (Part001.allRequiredFilled f = false) as ->; [|by eexists].
  unfold Part001.allRequiredFilled. apply not_true_is_false. intros Hall.
  rewrite forallb_forall in Hall.
  specialize (Hall x (proj1 (list_elem_of_In _ _) Hx)).
  by rewrite Hreq, (trim_allWhitespace _ Hblank) in Hall.
Qed.

(** C2 at a failing input.  The listener of [src/app.js] run on a form whose
    required name holds three spaces issues the POST, whatever the endpoint
    answers, and leaves the submit control disabled under another label; the
    listener of
    [src/unnamed/part_001] run on the same form issues none and leaves the
    form as it was. *)
Theorem appjs_submit_posts_blank_required_field (outcome : FetchOutcome) :
  (let '((f, b), _) :=
     AppJs.submitListener outcome blankNameForm freshBrowser in
   requests b = [AppJs.submitRequest blankNameForm] ∧
   disabled <$> submitButton f = Some true ∧
   content <$> submitButton f ≠ content <$> submitButton blankNameForm) ∧
  (let '((f, b), _) :=
     Part001.submitListener Part001.defaultConfig outcome blankNameForm
       freshBrowser in
   requests b = [] ∧ f = blankNameForm).
Proof. by destruct outcome as [| |[]]. Qed.

(** In [src/app.js] an accepted submission resets every field to its default
    value, and the one timeout it schedules, at 4000 ms, puts the label read
    at submission back and enables the control. *)
Lemma AppJs_accepted_submission f btn b :
  submitButton f = Some btn →
  ∃ f' b',
    AppJs.submitListener (BodyJson true) f b = ((f', b'), Normal ()) ∧
    Forall (λ x, value x = defaultValue x) (fields f') ∧
    timeouts b' = timeouts b ++ [(4000%Z, RestoreSubmit (content btn))] ∧
    submitButton (AppJs.runCallback (RestoreSubmit (content btn)) f')
    = Some (mkButton (content btn) false).
Proof.
  intros Hbtn. unfold AppJs.submitListener.
  rewrite bool_decide_eq_false_2 by done. rewrite Hbtn. simpl.
  eexists _, _. split_and!; [done | | | done].
  - apply Forall_fmap, Forall_true. done.
  - by rewrite timeouts_setTimeout, timeouts_fetch.
Qed.

(** C3 at a failing input.  In [src/unnamed/part_001] a submission of the
    filled form that the endpoint accepts resets the fields, but the timeout
    it schedules writes the fixed label [Submit]: the control, labelled
    [Send Message] before, is enabled again under another label. *)
Theorem part001_submit_restores_fixed_label :
  let '((f, b), _) :=
    Part001.submitListener Part001.defaultConfig (BodyJson true) filledForm
      freshBrowser in
  Forall (λ x, value x = defaultValue x) (fields f) ∧
  timeouts b = [(4000%Z, RestoreSubmit "Submit")] ∧
  submitButton (Part001.runCallback (RestoreSubmit "Submit") f)
  = Some (mkButton "Submit" false) ∧
  content <$> submitButton filledForm = Some "Send Message".
Proof.
  vm_compute. split_and!; try done. repeat constructor.
Qed.

(** ** Active-link highlighter *)

Lemma Qltb_true x y : Qltb x y = true ↔ (x < y)%Q.
Proof.
  unfold Qltb. rewrite negb_true_iff, <- not_true_iff_false, Qle_bool_iff.
  split; [apply Qnot_le_lt | apply Qlt_not_le].
Qed.

Lemma Qltb_false x y : Qltb x y = false ↔ ¬ (x < y)%Q.
Proof. rewrite <- Qltb_true. by destruct (Qltb x y). Qed.

(** A [forEach] that overwrites a variable at each qualifying element leaves
    the value of the last qualifying one. *)
Lemma foldl_overwrite_last {A} (P : Section → bool) (g : Section → A)
    (init : A) (before after : list Section) (sec : Section) :
  P sec = true → Forall (λ s, P s = false) after →
  foldl (λ cur s, if P s then g s else cur) init (before ++ sec :: after)
  = g sec.
Proof.
  intros Hsec Hafter. rewrite foldl_app. simpl. rewrite Hsec.
  induction Hafter as [|s after Hs _ IH]; [done|]. simpl. by rewrite Hs.
Qed.

Lemma foldl_overwrite_none {A} (P : Section → bool) (g : A → Section → A)
    (init : A) (secs : list Section) :
  Forall (λ s, P s = false) secs →
  foldl (λ cur s, if P s then g cur s else cur) init secs = init.
Proof.
  intros H. induction H as [|s secs Hs _ IH]; [done|]. simpl. by rewrite Hs.
Qed.

Lemma toggled_link_active (cond : Element → bool) (links : list Element)
    (i : nat) (l : Element) :
  links !! i = Some l →
  ∃ l', ((λ x, withClasses (classList.toggle "active-link" (cond x)) x)
           <$> links) !! i = Some l' ∧
        hasClass "active-link" l' = cond l.
Proof.
  intros Hl. rewrite list_lookup_fmap, Hl. simpl. eexists. split; [done|].
  unfold hasClass. simpl. apply contains_toggle.
Qed.

Lemma remove_remove token l :
  classList.remove token (classList.remove token l) = classList.remove token l.
Proof.
  unfold classList.remove. induction l as [|x l IH]; [done|].
  rewrite (filter_cons _ x l). destruct (decide (x ≠ token)) as [Hx|Hx].
  - rewrite filter_cons. rewrite decide_True by done. by rewrite IH.
  - done.
Qed.

Lemma remove_add_remove token l :
  classList.remove token (classList.add token (classList.remove token l))
  = classList.remove token l.
Proof.
  unfold classList.add. rewrite contains_remove.
  unfold classList.remove at 1. rewrite filter_app.
  fold (classList.remove token (classList.remove token l)).
  rewrite remove_remove. rewrite filter_cons, decide_False by tauto.
  rewrite filter_nil. apply app_nil_r.
Qed.

(** A later [setActiveLink] undoes an earlier one. *)
Lemma setActiveLink_twice t1 t2 links :
  Part000.setActiveLink t2 (Part000.setActiveLink t1 links)
  = Part000.setActiveLink t2 links.
Proof.
  unfold Part000.setActiveLink. rewrite <- list_fmap_compose.
  apply list_fmap_ext. intros _ link _. simpl.
  destruct (bool_decide (getAttribute "href" link = Some t1)); simpl;
    unfold getAttribute, withClasses; simpl;
    rewrite ?remove_add_remove, ?remove_remove; done.
Qed.

Lemma setActiveLink_active target (links : list Element) (i : nat)
    (l : Element) :
  links !! i = Some l →
  ∃ l', Part000.setActiveLink target links !! i = Some l' ∧
        hasClass "active-link" l'
        = bool_decide (getAttribute "href" l = Some target).
Proof.
  intros Hl. unfold Part000.setActiveLink. rewrite list_lookup_fmap, Hl.
  simpl. eexists. split; [done|]. unfold hasClass.
  case_bool_decide; simpl; [apply contains_add | apply contains_remove].
Qed.

(** After any number of sections the links are the original ones or the
    result of one [setActiveLink] on them. *)
Lemma Part000_fold_links (P : Section → bool) links secs :
  let step := λ ls sec,
    if P sec then Part000.setActiveLink ("#" +:+ sectionId sec) ls else ls in
  foldl step links secs = links
  ∨ ∃ t, foldl step links secs = Part000.setActiveLink t links.
Proof.
  intros step. induction secs as [|sec secs IH] using rev_ind; [by left|].
  rewrite foldl_app. simpl. unfold step at 1 3.
  destruct (P sec); [|done]. right.
  destruct IH as [->|[t ->]]; [by eexists|].
  rewrite setActiveLink_twice. by eexists.
Qed.

Lemma Part000_updateActiveLink_last links scrollY before sec after :
  (offsetTop sec <= scrollY + 100)%Q →
  (scrollY + 100 < offsetTop sec + offsetHeight sec)%Q →
  Forall (λ s, ¬ ((offsetTop s <= scrollY + 100)%Q ∧
                  (scrollY + 100 < offsetTop s + offsetHeight s)%Q)) after →
  Part000.updateActiveLink links scrollY (before ++ sec :: after)
  = Part000.setActiveLink ("#" +:+ sectionId sec) links.
Proof.
  intros Hlo Hhi Hafter. unfold Part000.updateActiveLink.
  set (P := λ s : Section,
         Qle_bool (offsetTop s) (scrollY + 100)
         && Qltb (scrollY + 100) (offsetTop s + offsetHeight s)).
  change (foldl (λ ls s, if P s
                         then Part000.setActiveLink ("#" +:+ sectionId s) ls
                         else ls) links (before ++ sec :: after)
          = Part000.setActiveLink ("#" +:+ sectionId sec) links).
  rewrite foldl_app. simpl.
  assert (P sec = true) as ->.
  { unfold P. apply andb_true_intro. split.
    - by apply Qle_bool_iff.
    - by apply Qltb_true. }
  rewrite foldl_overwrite_none.
  - destruct (Part000_fold_links P links before) as [->|[t ->]]; [done|].
    apply setActiveLink_twice.
  - eapply Forall_impl; [exact Hafter|]. intros s Hs. unfold P.
    apply not_true_is_false. intros Ht. apply andb_prop in Ht as [H1 H2].
    apply Hs. split; [by apply Qle_bool_iff | by apply Qltb_true].
Qed.

Lemma Part000_updateActiveLink_none links scrollY secs :
  Forall (λ s, ¬ ((offsetTop s <= scrollY + 100)%Q ∧
                  (scrollY + 100 < offsetTop s + offsetHeight s)%Q)) secs →
  Part000.updateActiveLink links scrollY secs = links.
Proof.
  intros H. unfold Part000.updateActiveLink.
  apply (foldl_overwrite_none
           (λ s, Qle_bool (offsetTop s) (scrollY + 100)
                 && Qltb (scrollY + 100) (offsetTop s + offsetHeight s))
           (λ ls s, Part000.setActiveLink ("#" +:+ sectionId s) ls)).
  eapply Forall_impl; [exact H|]. intros s Hs.
  apply not_true_is_false. intros Ht. apply andb_prop in Ht as [H1 H2].
  apply Hs. split; [by apply Qle_bool_iff | by apply Qltb_true].
Qed.

Lemma AppJs_currentSectionId_last thr before sec after :
  (rectTop sec < thr)%Q → Forall (λ s, ¬ (rectTop s < thr)%Q) after →
  AppJs.currentSectionId thr (before ++ sec :: after) = sectionId sec.
Proof.
  intros Hsec Hafter. unfold AppJs.currentSectionId.
  apply (foldl_overwrite_last (λ s, Qltb (rectTop s) thr) sectionId).
  - by apply Qltb_true.
  - eapply Forall_impl; [exact Hafter|]. intros s. apply Qltb_false.
Qed.

Lemma AppJs_currentSectionId_none thr secs :
  Forall (λ s, ¬ (rectTop s < thr)%Q) secs →
  AppJs.currentSectionId thr secs = EmptyString.
Proof.
  intros H. unfold AppJs.currentSectionId.
  apply (foldl_overwrite_none (λ s, Qltb (rectTop s) thr)
                              (λ _ s, sectionId s)).
  eapply Forall_impl; [exact H|]. intros s. apply Qltb_false.
Qed.

Lemma Part001_currentSection_eq thr secs :
  Part001.currentSection thr secs = AppJs.currentSectionId thr secs.
Proof. done. Qed.

(** C8, as stated, fails on [src/unnamed/part_000]: with the link to [#home]
    marked and the only section still far below the threshold, no section
    qualifies, and the recomputation leaves the link marked. *)
Lemma highlighter_part000_keeps_stale_link :
  Forall (λ s, ¬ (rectTop s < inject_Z (70 + 50))%Q ∧
               ¬ (offsetTop s <= 0 + 100)%Q) farSection ∧
  ¬ Forall (λ l, hasClass "active-link" l = false)
           (Part000.updateActiveLink homeMarkedLinks 0 farSection).
Proof.
  split.
  - repeat constructor; by vm_compute.
  - intros H. apply Forall_cons in H as [H _]. by vm_compute in H.
Qed.

(** In [src/app.js] a link whose href is the bare [#] is marked when no
    section qualifies. *)
Lemma highlighter_appjs_marks_bare_hash :
  hasClass "active-link"
    <$> AppJs.updateActiveLink [anchor "#" ["nav__link"]] 70 farSection
  = [true].
Proof. by vm_compute. Qed.

(** C8, amended.  In [src/app.js] and [src/unnamed/part_001], after a
    recomputation a link is marked exactly when its href is [#] followed by
    the id of the last section, in document order, whose top lies above the
    header height plus 50 (plus 60 in [part_001]); when no section qualifies,
    no link with an href other than the bare [#] is marked.  In
    [src/unnamed/part_000] a section qualifies when the scroll position plus
    100 falls inside its offset box; a link is marked exactly when its href
    is [#] followed by the id of the last qualifying section, and when no
    section qualifies the links are left as they were. *)
Theorem active_link_follows_last_section (links : list Element) :
  (∀ h before sec after,
     (rectTop sec < inject_Z (h + 50))%Q →
     Forall (λ s, ¬ (rectTop s < inject_Z (h + 50))%Q) after →
     ∀ i l, links !! i = Some l →
       ∃ l', AppJs.updateActiveLink links h (before ++ sec :: after) !! i
             = Some l' ∧
             hasClass "active-link" l'
             = bool_decide
                 (getAttribute "href" l = Some ("#" +:+ sectionId sec))) ∧
  (∀ h secs,
     Forall (λ s, ¬ (rectTop s < inject_Z (h + 50))%Q) secs →
     ∀ i l, links !! i = Some l → getAttribute "href" l ≠ Some "#" →
       ∃ l', AppJs.updateActiveLink links h secs !! i = Some l' ∧
             hasClass "active-link" l' = false) ∧
  (∀ h before sec after,
     (rectTop sec < inject_Z (h + 60))%Q →
     Forall (λ s, ¬ (rectTop s < inject_Z (h + 60))%Q) after →
     ∀ i l, links !! i = Some l →
       ∃ l', Part001.updateActive links h (before ++ sec :: after) !! i
             = Some l' ∧
             hasClass "active-link" l'
             = bool_decide
                 (getAttribute "href" l = Some ("#" +:+ sectionId sec))) ∧
  (∀ h secs,
     Forall (λ s, ¬ (rectTop s < inject_Z (h + 60))%Q) secs →
     ∀ i l, links !! i = Some l → getAttribute "href" l ≠ Some "#" →
       ∃ l', Part001.updateActive links h secs !! i = Some l' ∧
             hasClass "active-link" l' = false) ∧
  (∀ scrollY before sec after,
     (offsetTop sec <= scrollY + 100)%Q →
     (scrollY + 100 < offsetTop sec + offsetHeight sec)%Q →
     Forall (λ s, ¬ ((offsetTop s <= scrollY + 100)%Q ∧
                     (scrollY + 100 < offsetTop s + offsetHeight s)%Q))
            after →
     ∀ i l, links !! i = Some l →
       ∃ l', Part000.updateActiveLink links scrollY (before ++ sec :: after)
             !! i = Some l' ∧
             hasClass "active-link" l'
             = bool_decide
                 (getAttribute "href" l = Some ("#" +:+ sectionId sec))) ∧
  (∀ scrollY secs,
     Forall (λ s, ¬ ((offsetTop s <= scrollY + 100)%Q ∧
                     (scrollY + 100 < offsetTop s + offsetHeight s)%Q))
            secs →
     Part000.updateActiveLink links scrollY secs = links).
Proof.
  split_and!.
  - intros h before sec after Hsec Hafter i l Hl.
    unfold AppJs.updateActiveLink.
    rewrite (AppJs_currentSectionId_last _ _ _ _ Hsec Hafter).
    apply (toggled_link_active
             (λ x, bool_decide (getAttribute "href" x
                                = Some ("#" +:+ sectionId sec)))); done.
  - intros h secs Hnone i l Hl Hhref. unfold AppJs.updateActiveLink.
    rewrite (AppJs_currentSectionId_none _ _ Hnone).
    destruct (toggled_link_active
                (λ x, bool_decide (getAttribute "href" x
                                   = Some ("#" +:+ EmptyString)))
                links i l Hl) as (l' & Hl' & Hc).
    exists l'. split; [done|]. rewrite Hc. by apply bool_decide_eq_false_2.
  - intros h before sec after Hsec Hafter i l Hl.
    unfold Part001.updateActive. rewrite Part001_currentSection_eq.
    rewrite (AppJs_currentSectionId_last _ _ _ _ Hsec Hafter).
    apply (toggled_link_active
             (λ x, bool_decide (getAttribute "href" x
                                = Some ("#" +:+ sectionId sec)))); done.
  - intros h secs Hnone i l Hl Hhref. unfold Part001.updateActive.
    rewrite Part001_currentSection_eq.
    rewrite (AppJs_currentSectionId_none _ _ Hnone).
    destruct (toggled_link_active
                (λ x, bool_decide (getAttribute "href" x
                                   = Some ("#" +:+ EmptyString)))
                links i l Hl) as (l' & Hl' & Hc).
    exists l'. split; [done|]. rewrite Hc. by apply bool_decide_eq_false_2.
  - intros scrollY before sec after Hlo Hhi Hafter i l Hl.
    rewrite Part000_updateActiveLink_last by done.
    by apply setActiveLink_active.
  - intros scrollY secs. apply Part000_updateActiveLink_none.
Qed.

(** ** Counter animation *)

Section Easing.
Local Open Scope Q_scope.

Lemma Qcube x : x ^ 3 == x * x * x.
Proof. simpl. ring. Qed.

Lemma cube_mono (x y : Q) : x <= y → x ^ 3 <= y ^ 3.
Proof.
  intros H. rewrite !Qcube.
  assert (0 <= (y - x) * ((2 * x + y) * (2 * x + y) + 3 * y * y)) as H1.
  { apply Qmult_le_0_compat; [lra | nra]. }
  nra.
Qed.

Lemma eased_mono p1 p2 : p1 <= p2 → 1 - (1 - p1) ^ 3 <= 1 - (1 - p2) ^ 3.
Proof.
  intros H. assert ((1 - p2) ^ 3 <= (1 - p1) ^ 3) by (apply cube_mono; lra).
  lra.
Qed.

Lemma progress_mono s D t1 t2 :
  0 < D → t1 <= t2 → Qmin ((t1 - s) / D) 1 <= Qmin ((t2 - s) / D) 1.
Proof.
  intros HD Ht. apply Q.min_le_compat_r. unfold Qdiv.
  apply Qmult_le_compat_r; [lra|]. by apply Qlt_le_weak, Qinv_lt_0_compat.
Qed.

Lemma progress_start s D : Qmin ((s - s) / D) 1 == 0.
Proof.
  assert ((s - s) / D == 0) as H by (unfold Qdiv; ring).
  rewrite H. by apply Q.min_l.
Qed.

Lemma progress_end s D t : 0 < D → s + D <= t → Qmin ((t - s) / D) 1 == 1.
Proof. intros HD Ht. apply Q.min_r. apply Qle_shift_div_l; [done | lra]. Qed.

(** The eased value at progress 0 is the start, at progress 1 the target. *)
Lemma cubic_floor_start (start : Z) (change p : Q) :
  p == 0 → Qfloor (inject_Z start + change * (1 - (1 - p) ^ 3)) = start.
Proof.
  intros Hp. rewrite <- (Qfloor_Z start) at 2. apply Qfloor_comp.
  rewrite Hp. simpl. ring.
Qed.

Lemma cubic_floor_end (start : Z) (target p : Q) :
  p == 1 →
  Qfloor (inject_Z start + (target - inject_Z start) * (1 - (1 - p) ^ 3))
  = Qfloor target.
Proof. intros Hp. apply Qfloor_comp. rewrite Hp. simpl. ring. Qed.

Lemma cubic_floor_mono (start : Z) (change p1 p2 : Q) :
  0 <= change → p1 <= p2 →
  (Qfloor (inject_Z start + change * (1 - (1 - p1) ^ 3))
   <= Qfloor (inject_Z start + change * (1 - (1 - p2) ^ 3)))%Z.
Proof.
  intros Hc Hp. apply Qfloor_resp_le. pose proof (eased_mono p1 p2 Hp).
  assert (change * (1 - (1 - p1) ^ 3) <= change * (1 - (1 - p2) ^ 3)).
  { rewrite !(Qmult_comm change). by apply Qmult_le_compat_r. }
  lra.
Qed.

End Easing.

Lemma AppJs_frameValue_cubic a t :
  AppJs.easing a = "easeOutCubic" →
  AppJs.frameValue a t
  = Qfloor (inject_Z (AppJs.start a)
            + AppJs.change a * (1 - (1 - AppJs.progressAt a t) ^ 3))%Q.
Proof.
  intros He. unfold AppJs.frameValue, AppJs.easeProgress. rewrite He.
  by rewrite bool_decide_eq_true_2.
Qed.

Lemma Forall_framesShown_AppJs a v times :
  Forall (λ t, (v <= AppJs.frameValue a t)%Z) times →
  Forall (λ x, (v <= x)%Z) (AppJs.framesShown a times).
Proof.
  induction 1 as [|t ts Ht _ IH]; simpl; [done|].
  constructor; [done|]. by destruct (Qltb _ _).
Qed.

Lemma framesShown_sorted_AppJs a times :
  (∀ t1 t2, (t1 <= t2)%Q →
            (AppJs.frameValue a t1 <= AppJs.frameValue a t2)%Z) →
  StronglySorted Qle times → StronglySorted Z.le (AppJs.framesShown a times).
Proof.
  intros Hmono. induction 1 as [|t ts _ IH Hall]; simpl; [constructor|].
  constructor.
  - destruct (Qltb _ _); [done | constructor].
  - destruct (Qltb _ _); [|done].
    apply Forall_framesShown_AppJs.
    eapply Forall_impl; [exact Hall|]. intros t' Ht'. by apply Hmono.
Qed.

Lemma Forall_framesShown_Part001 a v times :
  Forall (λ t, (v <= Part001.frameValue a t)%Z) times →
  Forall (λ x, (v <= x)%Z) (Part001.framesShown a times).
Proof.
  induction 1 as [|t ts Ht _ IH]; simpl; [done|].
  constructor; [done|]. by destruct (Qltb _ _).
Qed.

Lemma framesShown_sorted_Part001 a times :
  (∀ t1 t2, (t1 <= t2)%Q →
            (Part001.frameValue a t1 <= Part001.frameValue a t2)%Z) →
  StronglySorted Qle times →
  StronglySorted Z.le (Part001.framesShown a times).
Proof.
  intros Hmono. induction 1 as [|t ts _ IH Hall]; simpl; [constructor|].
  constructor.
  - destruct (Qltb _ _); [done | constructor].
  - destruct (Qltb _ _); [|done].
    apply Forall_framesShown_Part001.
    eapply Forall_impl; [exact Hall|]. intros t' Ht'. by apply Hmono.
Qed.

Lemma progress_before_end s D t :
  (0 < D)%Q → (t < s + D)%Q → (Qmin ((t - s) / D) 1 < 1)%Q.
Proof.
  intros HD Ht. apply Q.min_lt_iff. left.
  apply Qlt_shift_div_r; [done | lra].
Qed.

(** The frame-driven counters of [src/app.js] and [src/unnamed/part_001]
    reach their target at the duration.  A counter whose text reads as 0 is animated to 100
    over a duration [D > 0]: the frame callback writes 0 when it runs at
    elapsed time 0 and 100 when it runs at any elapsed time of [D] or more,
    where it stops asking for frames; before [D] it always asks for the
    next frame; and the number it writes does not decrease with the time it
    runs at, so the numbers written over any ascending run of frame times
    ascend.  Numbers are exact rationals. *)
Lemma frame_counter_0_to_100 (el : Counter) (D now : Q) :
  parseIntOr0 (textContent el) = 0%Z → (0 < D)%Q →
  (∃ a, AppJs.animateNumber el 100 D "easeOutCubic" now = (el, Some a) ∧
        AppJs.frameValue a now = 0%Z ∧
        (∀ t, (now + D <= t)%Q →
              AppJs.frameValue a t = 100%Z ∧
              snd (AppJs.animate a t el) = false) ∧
        (∀ t c, (t < now + D)%Q → snd (AppJs.animate a t c) = true) ∧
        (∀ t1 t2, (t1 <= t2)%Q →
                  (AppJs.frameValue a t1 <= AppJs.frameValue a t2)%Z) ∧
        (∀ times, StronglySorted Qle times →
                  StronglySorted Z.le (AppJs.framesShown a times)) ∧
        (∀ t c, textContent (fst (AppJs.animate a t c))
                = showZ (AppJs.frameValue a t))) ∧
  (∃ a, Part001.animateNumber el 100 D now = (el, Some a) ∧
        Part001.frameValue a now = 0%Z ∧
        (∀ t, (now + D <= t)%Q →
              Part001.frameValue a t = 100%Z ∧
              snd (Part001.animate a t el) = false) ∧
        (∀ t c, (t < now + D)%Q → snd (Part001.animate a t c) = true) ∧
        (∀ t1 t2, (t1 <= t2)%Q →
                  (Part001.frameValue a t1 <= Part001.frameValue a t2)%Z) ∧
        (∀ times, StronglySorted Qle times →
                  StronglySorted Z.le (Part001.framesShown a times)) ∧
        (∀ t c, textContent (fst (Part001.animate a t c))
                = showZ (Part001.frameValue a t) +:+ Part001.suffix a)).
Proof.
  intros Hstart HD.
  assert (0 <= 100 - inject_Z 0)%Q as Hchange by (by compute).
  split_and!.
  - unfold AppJs.animateNumber. rewrite Hstart.
    eexists. split; [reflexivity|].
    set (a := AppJs.mkAnimation 0 (100 - inject_Z 0) now D "easeOutCubic").
    assert (∀ t, AppJs.frameValue a t
                 = Qfloor (inject_Z 0 + (100 - inject_Z 0)
                           * (1 - (1 - Qmin ((t - now) / D) 1) ^ 3))%Q)
      as Hval by (intros t; by rewrite AppJs_frameValue_cubic).
    assert (∀ t1 t2, (t1 <= t2)%Q →
              (AppJs.frameValue a t1 <= AppJs.frameValue a t2)%Z) as Hmono.
    { intros t1 t2 Ht. rewrite !Hval.
      apply cubic_floor_mono; [done | by apply progress_mono]. }
    split_and!.
    + rewrite Hval. apply cubic_floor_start. apply progress_start.
    + intros t Ht.
      pose proof (progress_end now D t HD Ht) as Hp. split.
      * rewrite Hval. by rewrite (cubic_floor_end 0 100).
      * unfold AppJs.animate, AppJs.progressAt, a.
        cbn [snd AppJs.startTime AppJs.duration].
        apply Qltb_false. rewrite Hp. apply Qlt_irrefl.
    + intros t c Ht. unfold AppJs.animate, AppJs.progressAt, a.
      cbn [snd AppJs.startTime AppJs.duration].
      apply Qltb_true. by apply progress_before_end.
    + exact Hmono.
    + intros times. by apply framesShown_sorted_AppJs.
    + done.
  - unfold Part001.animateNumber. rewrite Hstart.
    eexists. split; [reflexivity|].
    match goal with
    | |- context [Part001.frameValue ?x now] => set (a := x)
    end.
    assert (∀ t, Part001.frameValue a t
                 = Qfloor (inject_Z 0 + (100 - inject_Z 0)
                           * (1 - (1 - Qmin ((t - now) / D) 1) ^ 3))%Q)
      as Hval by done.
    assert (∀ t1 t2, (t1 <= t2)%Q →
              (Part001.frameValue a t1 <= Part001.frameValue a t2)%Z)
      as Hmono.
    { intros t1 t2 Ht. rewrite !Hval.
      apply cubic_floor_mono; [done | by apply progress_mono]. }
    split_and!.
    + rewrite Hval. apply cubic_floor_start. apply progress_start.
    + intros t Ht.
      pose proof (progress_end now D t HD Ht) as Hp. split.
      * rewrite Hval. by rewrite (cubic_floor_end 0 100).
      * unfold Part001.animate, Part001.progressAt, a.
        cbn [snd Part001.startTime Part001.duration].
        apply Qltb_false. rewrite Hp. apply Qlt_irrefl.
    + intros t c Ht. unfold Part001.animate, Part001.progressAt, a.
      cbn [snd Part001.startTime Part001.duration].
      apply Qltb_true. by apply progress_before_end.
    + exact Hmono.
    + intros times. by apply framesShown_sorted_Part001.
    + done.
Qed.

(** What the doubles of [part_000]'s counter hold through the first 125
    firings on the way from 0 to 100 over 2000 ms: always a number whose
    integer part is below 100, with the interval still set. *)
Lemma doubleTicks_below_100 k :
  k ≤ 125 →
  ∃ n, Part000Double.floor
         (Part000Double.current (doubleTicks zeroCounter 100 2000 k).1)
       = Some n ∧
       (n < 100)%Z ∧
       Part000Double.running (doubleTicks zeroCounter 100 2000 k).1 = true.
Proof.
  intros Hk.
  assert (forallb
            (λ j, match Part000Double.floor
                          (Part000Double.current
                             (doubleTicks zeroCounter 100 2000 j).1) with
                  | Some n =>
                      (n <? 100)%Z
                      && Part000Double.running
                           (doubleTicks zeroCounter 100 2000 j).1
                  | None => false
                  end)
            (seq 0 126) = true) as Hall by (by vm_compute).
  rewrite forallb_forall in Hall.
  assert (In k (seq 0 126)) as Hin by (apply in_seq; lia).
  specialize (Hall k Hin).
  destruct (Part000Double.floor _) as [n|]; [|done].
  apply andb_true_iff in Hall as [Hn Hr]. exists n.
  split_and!; [done | by apply Z.ltb_lt | done].
Qed.

(** C9 at a failing input.  The counter of [src/unnamed/part_000] on an
    element that reads 0, sent to 100 over the version's own duration of
    2000 ms.  The interval fires every 16 ms at the earliest, so by an
    elapsed time of 2000 ms it has fired 125 times at most: after any such
    number of firings the number shown is below 100 and the interval is
    still set, and after exactly 125 the element reads 99 (the running sum
    of the doubles is 99.99999999999977).  Only the 126th firing writes 100
    and clears the interval.  On the same element, target and duration the
    frame callbacks of [src/app.js] and [src/unnamed/part_001] write 0 at
    elapsed time 0 and ask for the next frame, and write 100 at elapsed time
    2000 and ask for none. *)
Theorem counter_part000_shows_99_at_duration :
  (∀ k, k ≤ 125 →
        ∃ n, Part000Double.floor
               (Part000Double.current
                  (doubleTicks zeroCounter 100 2000 k).1) = Some n ∧
             (n < 100)%Z ∧
             Part000Double.running (doubleTicks zeroCounter 100 2000 k).1
             = true) ∧
  textContent (doubleTicks zeroCounter 100 2000 125).2 = "99" ∧
  (textContent (doubleTicks zeroCounter 100 2000 126).2 = "100" ∧
   Part000Double.running (doubleTicks zeroCounter 100 2000 126).1 = false) ∧
  (∃ a, AppJs.animateNumber zeroCounter 100 2000 "easeOutCubic" 0
        = (zeroCounter, Some a) ∧
        AppJs.animate a 0 zeroCounter = (mkCounter "0" (Some "+"), true) ∧
        AppJs.animate a 2000 zeroCounter
        = (mkCounter "100" (Some "+"), false)) ∧
  (∃ a, Part001.animateNumber zeroCounter 100 2000 0
        = (zeroCounter, Some a) ∧
        Part001.animate a 0 zeroCounter = (mkCounter "0+" (Some "+"), true) ∧
        Part001.animate a 2000 zeroCounter
        = (mkCounter "100+" (Some "+"), false)).
Proof.
  split_and!.
  - apply doubleTicks_below_100.
  - by vm_compute.
  - by vm_compute.
  - by vm_compute.
  - eexists. split; [reflexivity|]. by vm_compute.
  - eexists. split; [reflexivity|]. by vm_compute.
Qed.

(** C10.  When the number read from the element's text equals the target,
    [animateNumber] of [src/app.js] returns the element as it is and
    schedules no frame. *)
Theorem animateNumber_returns_at_target (el : Counter)
    (target duration : Q) (easing : string) (now : Q) :
  (inject_Z (parseIntOr0 (textContent el)) == target)%Q →
  AppJs.animateNumber el target duration easing now = (el, None).
Proof.
  intros H. unfold AppJs.animateNumber.
  assert (Qeq_bool (target - inject_Z (parseIntOr0 (textContent el))) 0
          = true) as ->; [|done].
  apply Qeq_bool_iff. rewrite H. ring.
Qed.

(** [C10] at a counter that shows [100+] already. *)
Lemma animateNumber_returns_witness :
  (inject_Z (parseIntOr0 (textContent (mkCounter "100+" (Some "+"))))
   == 100)%Q ∧
  AppJs.animateNumber (mkCounter "100+" (Some "+")) 100 2500 "easeOutCubic" 0
  = (mkCounter "100+" (Some "+"), None).
Proof.
  split; [reflexivity|].
  apply animateNumber_returns_at_target. reflexivity.
Defined.

(** [C8] at the top of the page: [home] qualifies, [about] does not, and the
    first link, to [#home], is the marked one. *)
Lemma active_link_witness :
  ((rectTop homeSection < inject_Z (70 + 50))%Q ∧
   Forall (λ s, ¬ (rectTop s < inject_Z (70 + 50))%Q) [aboutSection] ∧
   [anchor "#home" ["nav__link"]; anchor "#about" ["nav__link"]] !! 0
   = Some (anchor "#home" ["nav__link"])) ∧
  ∃ l', AppJs.updateActiveLink
          [anchor "#home" ["nav__link"]; anchor "#about" ["nav__link"]] 70
          ([] ++ homeSection :: [aboutSection]) !! 0 = Some l' ∧
        hasClass "active-link" l'
        = bool_decide (getAttribute "href" (anchor "#home" ["nav__link"])
                       = Some ("#" +:+ sectionId homeSection)).
Proof.
  assert ((rectTop homeSection < inject_Z (70 + 50))%Q) as H1 by reflexivity.
  assert (Forall (λ s, ¬ (rectTop s < inject_Z (70 + 50))%Q) [aboutSection])
    as H2 by (repeat constructor; by vm_compute).
  split; [by split_and!|].
  exact (proj1 (active_link_follows_last_section
                  [anchor "#home" ["nav__link"]; anchor "#about" ["nav__link"]])
               70%Z [] homeSection [aboutSection] H1 H2 0
               (anchor "#home" ["nav__link"]) eq_refl).
Defined.

(** * Further properties *)

(** ** Theme: what is in force after an operation *)

Lemma storedOrSystemTheme_truthy b : truthy (storedOrSystemTheme b) = true.
Proof.
  unfold storedOrSystemTheme, systemTheme.
  destruct (localStorage b !! "theme") as [s|].
  - destruct (truthy s) eqn:E; [done|]. by destruct (prefersDark b).
  - by destruct (prefersDark b).
Qed.

Lemma theme_in_force_after_store t (icon : option string) b :
  truthy t = true →
  ThemeInForce t
    (match icon with Some _ => Some (iconFor t) | None => None end)
    (setItem "theme" t (setColorScheme t b)).
Proof.
  intros Ht. destruct b as [ls pd cs bo co al rq tm].
  unfold ThemeInForce, storedOrSystemTheme. simpl.
  rewrite lookup_insert_eq, Ht. split_and!; try done.
  destruct icon; [by right | by left].
Qed.




Lemma restore_theme t t' b :
  colorScheme b = Some t → localStorage b !! "theme" = Some t →
  setItem "theme" t (setColorScheme t
    (setItem "theme" t' (setColorScheme t' b))) = b.
Proof.
  destruct b as [ls pd cs bo co al rq tm]. simpl. intros -> Hls.
  f_equal. rewrite insert_insert_eq. by apply insert_id.
Qed.

Lemma current_after_store t b :
  truthy t = true →
  storedOrSystemTheme (setItem "theme" t (setColorScheme t b)) = t.
Proof.
  intros Ht. destruct b as [ls pd cs bo co al rq tm].
  unfold storedOrSystemTheme. simpl. by rewrite lookup_insert_eq, Ht.
Qed.

(** X2.  With [dark] or [light] in force, two clicks on the theme toggle
    bring back the browser state and the icon exactly, in every version.
    (The icon of [part_000] is in force when [updateIcon] for the theme
    leaves it as it is.) *)
Theorem theme_toggle_twice_restores (t : string) (b : Browser) :
  t = "dark" ∨ t = "light" →
  (∀ d, ThemeInForce t (AppJs.themeIcon d) b →
        (let '(d1, b1) := AppJs.ThemeToggle_click d b in
         AppJs.ThemeToggle_click d1 b1) = (d, b)) ∧
  (∀ d, ThemeApplied t b → Part000.updateIcon t d = d →
        (let '(d1, b1) := Part000.toggleTheme d b in
         Part000.toggleTheme d1 b1) = (d, b)) ∧
  (∀ d, ThemeInForce t (Part001.themeIcon d) b →
        (let '(d1, b1) := Part001.ThemeToggle_click d b in
         Part001.ThemeToggle_click d1 b1) = (d, b)).
Proof.
  intros Ht.
  assert (∀ icon : option string,
            icon = None ∨ icon = Some (iconFor t) →
            match match icon with
                  | Some _ =>
                      Some (iconFor (if bool_decide (t = "dark")
                                     then "light" else "dark"))
                  | None => None
                  end return option string with
            | Some _ => Some (iconFor t)
            | None => None
            end = icon) as Hicon.
  { intros icon [->| ->]; done. }
  assert ((if bool_decide
                ((if bool_decide (t = "dark") then "light" else "dark")
                 = "dark") then "light" else "dark") = t) as Hback
    by (by destruct Ht as [-> | ->]).
  assert (truthy (if bool_decide (t = "dark") then "light" else "dark")
          = true) as Htr by (by destruct Ht as [-> | ->]).
  split_and!.
  - intros [tg icon] (Hcs & Hls & Hcur & Hic); simpl in Hic.
    unfold AppJs.ThemeToggle_click, AppJs.applyTheme, AppJs.getCurrentTheme,
      AppJs.setTheme. simpl. rewrite Hcur.
    rewrite current_after_store by done. rewrite Hback.
    rewrite restore_theme by done. f_equal. f_equal. by apply Hicon.
  - intros [tg icon] (Hcs & Hls & Hcur) Hd.
    unfold Part000.toggleTheme, Part000.getCurrentTheme, Part000.setTheme.
    rewrite Hcur. rewrite current_after_store by done. rewrite Hback.
    rewrite restore_theme by done. f_equal.
    unfold Part000.updateIcon in *. simpl in *.
    destruct icon as [i|]; [exact Hd | done].
  - intros [tg icon] (Hcs & Hls & Hcur & Hic); simpl in Hic.
    unfold Part001.ThemeToggle_click, Part001.apply, Part001.getTheme,
      Part001.setTheme. simpl. rewrite Hcur.
    rewrite current_after_store by done. rewrite Hback.
    rewrite restore_theme by done. f_equal. f_equal. by apply Hicon.
Qed.

(** [X2] on the page of a first visit under a dark system theme, after
    initialisation. *)
Lemma theme_toggle_twice_witness :
  let st := AppJs.ThemeToggle_init (AppJs.wTheme firstVisit)
                                   darkSystemBrowser in
  ("dark" = "dark" ∨ "dark" = "light") ∧
  ThemeInForce "dark" (AppJs.themeIcon (fst st)) (snd st) ∧
  (let '(d1, b1) := AppJs.ThemeToggle_click (fst st) (snd st) in
   AppJs.ThemeToggle_click d1 b1) = st.
Proof.
  assert (ThemeInForce "dark"
            (AppJs.themeIcon
               (fst (AppJs.ThemeToggle_init (AppJs.wTheme firstVisit)
                                            darkSystemBrowser)))
            (snd (AppJs.ThemeToggle_init (AppJs.wTheme firstVisit)
                                         darkSystemBrowser))) as Hin.
  { split_and!; [reflexivity | reflexivity | reflexivity | right; reflexivity]. }
  split; [by left|]. split; [exact Hin|].
  exact (proj1 (theme_toggle_twice_restores "dark" _ (or_introl eq_refl))
               _ Hin).
Defined.

Lemma Part000_system_change_when_stored m d b :
  themeStored b = true →
  Part000.systemThemeChange m d b = (d, setPrefersDark m b).
Proof.
  intros Hs. unfold Part000.systemThemeChange. unfold themeStored in Hs.
  rewrite localStorage_setPrefersDark.
  destruct (localStorage b !! "theme") as [s|]; [by rewrite Hs | done].
Qed.

Lemma setPrefersDark_keeps_theme m b :
  themeStored b = true →
  themeStored (setPrefersDark m b) = true ∧
  localStorage (setPrefersDark m b) = localStorage b ∧
  colorScheme (setPrefersDark m b) = colorScheme b ∧
  storedOrSystemTheme (setPrefersDark m b) = storedOrSystemTheme b.
Proof.
  destruct b as [ls pd cs bo co al rq tm].
  unfold themeStored, storedOrSystemTheme. simpl.
  destruct (ls !! "theme") as [s|]; [|done]. by intros ->.
Qed.

(** X3.  In [src/unnamed/part_000], once [ThemeToggle.init] has run, the
    listener for changes of the system colour scheme never acts: whatever
    changes follow, the icon, the stored preference, the document's colour
    scheme and the current theme stay as initialization left them. *)
Theorem part000_system_changes_inert_after_init
    (d : Part000.ThemeDom) (b : Browser) (ms : list bool) :
  let st0 := Part000.ThemeToggle_init d b in
  let st := systemChanges ms st0 in
  fst st = fst st0 ∧
  localStorage (snd st) = localStorage (snd st0) ∧
  colorScheme (snd st) = colorScheme (snd st0) ∧
  storedOrSystemTheme (snd st) = storedOrSystemTheme (snd st0).
Proof.
  intros st0 st.
  assert (themeStored (snd st0) = true) as H0.
  { destruct (theme_in_force_after_store (storedOrSystemTheme b)
                (Part000.themeIcon d) b (storedOrSystemTheme_truthy b))
      as (_ & Hls & _).
    unfold themeStored.
    change (snd st0) with (setItem "theme" (storedOrSystemTheme b)
                             (setColorScheme (storedOrSystemTheme b) b)).
    rewrite Hls. apply storedOrSystemTheme_truthy. }
  subst st. revert H0. generalize st0. clear st0.
  induction ms as [|m ms IH]; intros [d0 b0] H0; [done|].
  unfold systemChanges in *. simpl in *.
  rewrite Part000_system_change_when_stored by done.
  destruct (setPrefersDark_keeps_theme m b0 H0) as (H1 & H2 & H3 & H4).
  destruct (IH (d0, setPrefersDark m b0) H1) as (I1 & I2 & I3 & I4).
  simpl in *. by rewrite I1, I2, I3, I4.
Qed.


(** ** Dialog: the listeners as a two-state machine *)

Lemma hidden_after_close_AppJs m b :
  hasClass "hidden" (fst (AppJs.closeModal m b)) = true.
Proof. unfold hasClass. simpl. apply contains_add. Qed.

Lemma hidden_after_open_AppJs m b :
  hasClass "hidden" (fst (AppJs.openModal m b)) = false.
Proof. unfold hasClass. simpl. apply contains_remove. Qed.

Lemma hidden_after_close_Part001 m b :
  hasClass "hidden" (fst (Part001.closeModal m b)) = true.
Proof. unfold hasClass. simpl. apply contains_add. Qed.

Lemma hidden_after_open_Part001 m b :
  hasClass "hidden" (fst (Part001.openModal m b)) = false.
Proof. unfold hasClass. simpl. apply contains_remove. Qed.

Lemma AppJs_modal_step ev st :
  negb (hasClass "hidden" (fst (ModalEvents.AppJs_handle ev st)))
  = visibleAfter (negb (hasClass "hidden" (fst st))) ev.
Proof.
  destruct st as [m b].
  destruct ev as [| |[]|key]; unfold ModalEvents.AppJs_handle, visibleAfter;
    rewrite ?hidden_after_close_AppJs, ?hidden_after_open_AppJs; try done.
  destruct (bool_decide (key = "Escape")); [|done].
  destruct (hasClass "hidden" m) eqn:E; cbn [negb andb fst]; [by rewrite E|].
  by rewrite hidden_after_close_AppJs.
Qed.

Lemma Part001_modal_step ev st :
  negb (hasClass "hidden" (fst (ModalEvents.Part001_handle ev st)))
  = visibleAfter (negb (hasClass "hidden" (fst st))) ev.
Proof.
  destruct st as [m b].
  destruct ev as [| |[]|key];
    unfold ModalEvents.Part001_handle, visibleAfter;
    rewrite ?hidden_after_close_Part001, ?hidden_after_open_Part001;
    try done.
  destruct (bool_decide (key = "Escape")); [|done].
  by rewrite hidden_after_close_Part001.
Qed.

Lemma Part000_modal_step ev st :
  is_Some (Part000.modal (fst st)) →
  is_Some (Part000.modal (fst (ModalEvents.Part000_handle ev st))) ∧
  ModalEvents.isModalOpen (fst (ModalEvents.Part000_handle ev st))
  = visibleAfter (ModalEvents.isModalOpen (fst st)) ev.
Proof.
  destruct st as [[m hi] b]. simpl. intros [el ->].
  assert (∀ b0, ModalEvents.isModalOpen
                  (fst (Part000.closeModal (Part000.mkModalDom (Some el) hi)
                                           b0)) = false) as Hclose.
  { intros b0. unfold ModalEvents.isModalOpen, hasClass. simpl.
    by rewrite contains_add. }
  destruct ev as [| |[]|key];
    unfold ModalEvents.Part000_handle, visibleAfter.
  - split; [by eexists|]. unfold ModalEvents.isModalOpen, hasClass. simpl.
    by rewrite contains_remove.
  - split; [by eexists | apply Hclose].
  - split; [by eexists | apply Hclose].
  - split; [by eexists | done].
  - destruct (bool_decide (key = "Escape")); [|split; [by eexists | done]].
    destruct (ModalEvents.isModalOpen (Part000.mkModalDom (Some el) hi))
      eqn:E; cbn [andb].
    + split; [by eexists | apply Hclose].
    + split; [by eexists | done].
Qed.

(** X4.  The listeners of the dialog make it a two-state machine, the same
    in all three versions: after any sequence of clicks and key presses the
    dialog is visible exactly when the last trigger click came after the
    last close click, backdrop click and Escape.  A click inside the content
    and any other key change nothing.  ([part_000] needs the dialog to
    exist.) *)
Theorem modal_listeners_two_state_machine (evs : list ModalEvent) :
  (∀ st, negb (hasClass "hidden" (fst (modalRun ModalEvents.AppJs_handle
                                                evs st)))
         = foldl visibleAfter (negb (hasClass "hidden" (fst st))) evs) ∧
  (∀ st, is_Some (Part000.modal (fst st)) →
         ModalEvents.isModalOpen
           (fst (modalRun ModalEvents.Part000_handle evs st))
         = foldl visibleAfter (ModalEvents.isModalOpen (fst st)) evs) ∧
  (∀ st, negb (hasClass "hidden" (fst (modalRun ModalEvents.Part001_handle
                                                evs st)))
         = foldl visibleAfter (negb (hasClass "hidden" (fst st))) evs).
Proof.
  unfold modalRun. split_and!.
  - induction evs as [|ev evs IH] using rev_ind; intros st; [done|].
    rewrite !foldl_app. simpl. by rewrite AppJs_modal_step, IH.
  - induction evs as [|ev evs IH] using rev_ind; intros st Hm; [done|].
    rewrite !foldl_app. simpl.
    assert (is_Some (Part000.modal
              (fst (foldl (λ s e, ModalEvents.Part000_handle e s) st evs))))
      as Hm'.
    { clear IH. revert st Hm. induction evs as [|e evs IH]; [done|].
      intros st Hm. simpl. apply IH. by apply Part000_modal_step. }
    rewrite (proj2 (Part000_modal_step ev _ Hm')). by rewrite IH.
  - induction evs as [|ev evs IH] using rev_ind; intros st; [done|].
    rewrite !foldl_app. simpl. by rewrite Part001_modal_step, IH.
Qed.

(** [X4] at the dialog of [part_000], opened and then closed by Escape. *)
Lemma modal_two_state_witness :
  is_Some (Part000.modal (Part000.mkModalDom (Some hiddenModal) true)) ∧
  ModalEvents.isModalOpen
    (fst (modalRun ModalEvents.Part000_handle [OpenClick; Keydown "Escape"]
            (Part000.mkModalDom (Some hiddenModal) true, freshBrowser)))
  = false.
Proof.
  split; [by eexists|].
  exact (proj1 (proj2 (modal_listeners_two_state_machine
                         [OpenClick; Keydown "Escape"]))
               (Part000.mkModalDom (Some hiddenModal) true, freshBrowser)
               (mk_is_Some _ _ eq_refl)).
Defined.

Lemma Part001_close_consistent m b :
  ModalConsistent (Part001.closeModal m b).
Proof.
  unfold ModalConsistent, Part001.closeModal, hasClass, getAttribute. simpl.
  rewrite contains_add, lookup_insert_eq, bodyOverflow_setBodyOverflow. done.
Qed.

Lemma Part001_open_consistent m b :
  ModalConsistent (Part001.openModal m b).
Proof.
  unfold ModalConsistent, Part001.openModal, hasClass, getAttribute. simpl.
  rewrite contains_remove, lookup_insert_eq, bodyOverflow_setBodyOverflow.
  done.
Qed.

Lemma add_add token l :
  classList.add token (classList.add token l) = classList.add token l.
Proof.
  unfold classList.add at 1. by rewrite contains_add.
Qed.

(** X5.  In [src/unnamed/part_001] the accessibility attribute and the
    scroll lock follow the dialog: every trigger, close, backdrop and Escape
    leaves [aria-hidden] and the body overflow in step with the [hidden]
    class, every other event keeps them in step, and closing a dialog that
    was just closed changes nothing further. *)
Theorem part001_modal_attribute_and_lock_follow (st : Element * Browser) :
  ModalConsistent (ModalEvents.Part001_handle OpenClick st) ∧
  ModalConsistent (ModalEvents.Part001_handle CloseClick st) ∧
  (∀ evs, ModalConsistent st →
          ModalConsistent (modalRun ModalEvents.Part001_handle evs st)) ∧
  (let '(m1, b1) := Part001.closeModal (fst st) (snd st) in
   Part001.closeModal m1 b1 = (m1, b1)).
Proof.
  destruct st as [m b]. split_and!.
  - apply Part001_open_consistent.
  - apply Part001_close_consistent.
  - intros evs. unfold modalRun. generalize (m, b). clear m b.
    induction evs as [|ev evs IH]; intros st Hst; [done|].
    simpl. apply IH. destruct st as [m b].
    destruct ev as [| |[]|key]; unfold ModalEvents.Part001_handle;
      try apply Part001_open_consistent;
      try apply Part001_close_consistent; try done.
    destruct (bool_decide (key = "Escape"));
      [apply Part001_close_consistent | done].
  - simpl. unfold Part001.closeModal. simpl. f_equal.
    + unfold setAttribute, withClasses. simpl.
      by rewrite add_add, insert_insert_eq.
    + by destruct b.
Qed.

(** [X5] at the sample dialog once it has been opened. *)
Lemma part001_modal_follow_witness :
  ModalConsistent (Part001.openModal hiddenModal freshBrowser) ∧
  ModalConsistent
    (modalRun ModalEvents.Part001_handle [ModalClick false; Keydown "Tab"]
              (Part001.openModal hiddenModal freshBrowser)).
Proof.
  split; [apply Part001_open_consistent|].
  exact (proj1 (proj2 (proj2 (part001_modal_attribute_and_lock_follow
                                (Part001.openModal hiddenModal
                                                   freshBrowser))))
               [ModalClick false; Keydown "Tab"]
               (Part001_open_consistent hiddenModal freshBrowser)).
Defined.

(** ** Throttle, debounce and the frame-driven scroll listener *)

Lemma throttleRun_snoc {A} (evs : list (Timing.ThrottleEvent A)) ev :
  throttleRun (evs ++ [ev]) = throttleStep (throttleRun evs) ev.
Proof. unfold throttleRun. by rewrite foldl_app. Qed.

Lemma resetCount_snoc {A} (evs : list (Timing.ThrottleEvent A)) ev :
  resetCount (evs ++ [ev])
  = resetCount evs + match ev with
                     | Timing.ResetFired => 1
                     | Timing.Called _ => 0
                     end.
Proof.
  unfold resetCount. rewrite List.filter_app, length_app.
  by destruct ev.
Qed.

Lemma calledArgs_snoc {A} (evs : list (Timing.ThrottleEvent A)) ev :
  calledArgs (evs ++ [ev])
  = calledArgs evs ++ match ev with
                      | Timing.Called args => [args]
                      | Timing.ResetFired => []
                      end.
Proof. unfold calledArgs. rewrite omap_app. by destruct ev. Qed.

(** X6.  A function wrapped by [Utils.throttle] ([src/app.js] and
    [part_000]) runs only on calls made while the flag is clear: over any
    sequence of calls and reset firings, the arguments it ran with are a
    subsequence of the arguments it was called with, it ran at most once
    more than resets fired, never more than one reset is pending, and the
    flag is set exactly while one is.  The first call always runs. *)
Theorem throttle_runs_at_most_once_per_window {A : Type}
    (evs : list (Timing.ThrottleEvent A)) :
  let '(t, ran) := throttleRun evs in
  sublist ran (calledArgs evs) ∧
  length ran + (if Timing.inThrottle t then 0 else 1) ≤ 1 + resetCount evs ∧
  Timing.pendingResets t = (if Timing.inThrottle t then 1 else 0) ∧
  head ran = head (calledArgs evs).
Proof.
  enough (let '(t, ran) := throttleRun evs in
          (sublist ran (calledArgs evs) ∧
           length ran + (if Timing.inThrottle t then 0 else 1)
           ≤ 1 + resetCount evs ∧
           Timing.pendingResets t = (if Timing.inThrottle t then 1 else 0) ∧
           head ran = head (calledArgs evs)) ∧
          (Timing.inThrottle t = true → ran ≠ [])) as H.
  { destruct (throttleRun evs). by destruct H. }
  induction evs as [|ev evs IH] using rev_ind; [by simpl|].
  rewrite throttleRun_snoc, resetCount_snoc, calledArgs_snoc.
  destruct (throttleRun evs) as [[flag pend] ran].
  destruct IH as ((Hsub & Hlen & Hpend & Hhead) & Hran).
  simpl in Hlen, Hpend, Hran.
  destruct ev as [args|]; unfold throttleStep.
  - destruct flag; simpl.
    + split; [split_and!|done].
      * exact (sublist_inserts_r _ _ _ Hsub).
      * lia.
      * done.
      * rewrite Hhead. destruct (calledArgs evs) as [|x l]; [|done].
        apply sublist_nil_r in Hsub. by destruct (Hran eq_refl).
    + subst pend. split; [split_and!|].
      * exact (sublist_app _ _ _ _ Hsub (reflexivity [args])).
      * rewrite length_app. simpl. lia.
      * done.
      * destruct ran as [|x r]; simpl in *.
        -- symmetry in Hhead. apply head_None in Hhead. by rewrite Hhead.
        -- by destruct (calledArgs evs).
      * intros _. by destruct ran.
  - rewrite app_nil_r. destruct flag; simpl in *; subst pend; simpl.
    + split; [split_and!; [done | lia | done | done] | done].
    + split; [split_and!; [done | lia | done | done] | done].
Qed.
Lemma debounceRun_snoc {A} (evs : list (DebounceEvent A)) ev :
  debounceRun (evs ++ [ev]) = debounceStep (debounceRun evs) ev.
Proof. unfold debounceRun. by rewrite foldl_app. Qed.

(** At most the timeout the variable [timeout] names is set. *)
Lemma debounce_one_pending {A} (evs : list (DebounceEvent A)) :
  let d := fst (debounceRun evs) in
  Timing.liveTimeouts d = ∅
  ∨ ∃ h a, Timing.timeout d = Some h ∧ Timing.liveTimeouts d = {[h := a]}.
Proof.
  induction evs as [|ev evs IH] using rev_ind; [by left|].
  rewrite debounceRun_snoc. destruct (debounceRun evs) as [d ran].
  simpl in IH. destruct ev as [args|h]; simpl.
  - right. exists (Timing.nextHandle d), args. split; [done|].
    unfold Timing.clearPending.
    destruct IH as [->|(h & a & -> & ->)].
    + destruct (Timing.timeout d); by rewrite ?delete_empty.
    + by rewrite delete_singleton_eq.
  - unfold Timing.laterFires.
    destruct IH as [He|(h' & a & Ht & Hl)].
    + rewrite He, lookup_empty. simpl. by left.
    + rewrite Hl. destruct (decide (h' = h)) as [->|Hne].
      * rewrite lookup_singleton_eq. simpl. left.
        unfold Timing.clearPending. simpl. rewrite Ht.
        by rewrite delete_singleton_eq, delete_empty.
      * rewrite lookup_singleton_ne by done. simpl. right.
        exists h', a. by rewrite Ht, Hl.
Qed.

(** X7.  A function wrapped by [Utils.debounce] ([part_000]) never runs on
    a call: calls alone, however many, run nothing.  After any history, a
    call leaves exactly one timeout set, holding that call's arguments, and
    when it fires the function runs once, with those arguments, and nothing
    stays set: of a burst of calls only the last one takes effect. *)
Theorem debounce_runs_last_call_once {A : Type}
    (evs : list (DebounceEvent A)) (args : A) :
  (∀ calls : list A, snd (debounceRun (DebouncedCall <$> calls)) = []) ∧
  (let '(d, ran) := debounceRun (evs ++ [DebouncedCall args]) in
   ∃ h, Timing.timeout d = Some h ∧ Timing.liveTimeouts d = {[h := args]} ∧
        ran = snd (debounceRun evs) ∧
        let '(d', ran') :=
          debounceRun (evs ++ [DebouncedCall args; TimeoutFired h]) in
        Timing.liveTimeouts d' = ∅ ∧ ran' = ran ++ [args]).
Proof.
  split.
  - intros calls. induction calls as [|c calls IH] using rev_ind; [done|].
    rewrite fmap_app. simpl. by rewrite debounceRun_snoc.
  - pose proof (debounce_one_pending evs) as Hone.
    rewrite debounceRun_snoc.
    destruct (debounceRun evs) as [d ran] eqn:E. simpl in Hone. simpl.
    assert (Timing.clearPending d = ∅) as Hclear.
    { unfold Timing.clearPending.
      destruct Hone as [->|(h & a & -> & ->)].
      - destruct (Timing.timeout d); by rewrite ?delete_empty.
      - by rewrite delete_singleton_eq. }
    exists (Timing.nextHandle d). rewrite Hclear.
    split_and!; [done | done | done |].
    replace (evs ++ [DebouncedCall args; TimeoutFired (Timing.nextHandle d)])
      with ((evs ++ [DebouncedCall args])
            ++ [TimeoutFired (A:=A) (Timing.nextHandle d)])
      by (by rewrite <- app_assoc).
    rewrite !debounceRun_snoc, E. simpl.
    unfold Timing.laterFires. simpl. rewrite Hclear.
    rewrite lookup_insert_eq. simpl. unfold Timing.clearPending. simpl.
    by rewrite delete_insert_eq, !delete_empty.
Qed.

(** ** The scroll listener of [part_001] *)

Lemma scrollRun_snoc header links evs ev :
  scrollRun header links (evs ++ [ev])
  = Part001Scroll.handle (scrollRun header links evs) ev.
Proof. unfold scrollRun. by rewrite foldl_app. Qed.

(** X8.  The scroll listener of [Navigation.init] in [part_001] keeps at
    most one frame requested, with [ticking] set exactly while one is;
    right after a scroll event a frame is always requested, so the last
    scroll position is never missed; and a frame that runs marks the header
    [scrolled] exactly when the scroll position it reads is above 50 and
    recomputes the active link from the sections it reads. *)
Theorem part001_scroll_one_frame_per_burst (header : Element)
    (links : list Element) (evs : list Part001Scroll.Event) :
  let s := scrollRun header links evs in
  Part001Scroll.requested s
  = (if Part001Scroll.ticking s then 1 else 0) ∧
  Part001Scroll.requested
    (scrollRun header links (evs ++ [Part001Scroll.Scroll])) = 1 ∧
  (∀ y h secs,
     let s' := scrollRun header links
                 (evs ++ [Part001Scroll.Scroll; Part001Scroll.Frame y h secs])
     in
     Part001Scroll.requested s' = 0 ∧
     hasClass "scrolled" (Part001Scroll.header s') = Qltb 50 y ∧
     Part001Scroll.links s'
     = Part001.updateActive (Part001Scroll.links s) h secs).
Proof.
  assert (∀ evs, let s := scrollRun header links evs in
                 Part001Scroll.requested s
                 = (if Part001Scroll.ticking s then 1 else 0)) as Hinv.
  { clear evs. intros evs.
    induction evs as [|ev evs IH] using rev_ind; [done|].
    rewrite scrollRun_snoc. simpl in *.
    destruct (scrollRun header links evs) as [hd ls [] n];
      simpl in *; subst n; by destruct ev. }
  pose proof (Hinv evs) as H. simpl in *.
  assert (∀ s, Part001Scroll.requested s
               = (if Part001Scroll.ticking s then 1 else 0) →
               Part001Scroll.requested (Part001Scroll.onScroll s) = 1 ∧
               Part001Scroll.links (Part001Scroll.onScroll s)
               = Part001Scroll.links s) as Hscroll.
  { intros [hd ls [] n]; simpl; intros ->; done. }
  split_and!; [done | |].
  - rewrite scrollRun_snoc. by apply Hscroll.
  - intros y h secs.
    replace (evs ++ [Part001Scroll.Scroll; Part001Scroll.Frame y h secs])
      with ((evs ++ [Part001Scroll.Scroll]) ++ [Part001Scroll.Frame y h secs])
      by (by rewrite <- app_assoc).
    rewrite !scrollRun_snoc. simpl.
    destruct (Hscroll _ H) as [Hr Hl].
    unfold Part001Scroll.onFrame. rewrite Hr, Hl. simpl.
    split_and!; [done | | done].
    unfold hasClass. simpl. apply contains_toggle.
Qed.

(** ** Carousel autoplay: no interval is left behind *)

Lemma clear_named_interval timer set next :
  AtMostTheNamedInterval timer set next → clearInterval timer set = ∅.
Proof.
  intros ([->|(id & -> & ->)] & _).
  - destruct timer; simpl; set_solver.
  - simpl. set_solver.
Qed.

Lemma AppJs_startAutoplay_one s :
  AtMostTheNamedInterval (AppJsAutoplay.autoplayTimer s)
    (AppJsAutoplay.intervals s) (AppJsAutoplay.nextHandle s) →
  let s' := AppJsAutoplay.startAutoplay s in
  AppJsAutoplay.intervals s' = {[AppJsAutoplay.nextHandle s]} ∧
  AppJsAutoplay.autoplayTimer s' = Some (AppJsAutoplay.nextHandle s) ∧
  AtMostTheNamedInterval (AppJsAutoplay.autoplayTimer s')
    (AppJsAutoplay.intervals s') (AppJsAutoplay.nextHandle s').
Proof.
  intros H. pose proof (clear_named_interval _ _ _ H) as Hc.
  destruct H as (_ & _ & Hn). simpl. rewrite Hc.
  split_and!; [set_solver | done |].
  split_and!; [right; eexists; split; [done | set_solver] | | lia].
  intros id [= <-]. lia.
Qed.

Lemma autoplayRunAppJs_snoc d evs ev :
  autoplayRunAppJs d (evs ++ [ev])
  = AppJsAutoplay.handle (autoplayRunAppJs d evs) ev.
Proof. unfold autoplayRunAppJs. by rewrite foldl_app. Qed.

Lemma AppJs_handle_bound s ev :
  AppJsAutoplay.bound (AppJsAutoplay.handle s ev) = AppJsAutoplay.bound s.
Proof.
  destruct ev as [i| | |h]; simpl.
  - by destruct (AppJsAutoplay.navClickBound _ _).
  - by destruct (AppJsAutoplay.mouseEnterBound _).
  - by destruct (AppJsAutoplay.mouseLeaveBound _).
  - by case_bool_decide.
Qed.

Lemma AppJs_run_bound d evs :
  AppJsAutoplay.bound (autoplayRunAppJs d evs)
  = AppJs.bound (AppJs.TestimonialsCarousel_init d).1.
Proof.
  induction evs as [|ev evs IH] using rev_ind.
  - unfold autoplayRunAppJs, AppJsAutoplay.started. simpl.
    by destruct (AppJs.autoplay _).
  - by rewrite autoplayRunAppJs_snoc, AppJs_handle_bound.
Qed.

Lemma navClickBound_clicks (bs : list Element) i :
  AppJsAutoplay.navClickBound i
    (imap (λ j _, AppJs.TestimonialNavClick j) bs)
  = bool_decide (i < length bs).
Proof.
  unfold AppJsAutoplay.navClickBound.
  induction bs as [|b bs IH] using rev_ind; [done|].
  rewrite imap_app, existsb_app, IH, length_app. simpl.
  rewrite Nat.add_0_r, orb_false_r.
  repeat case_bool_decide; simpl; try done; lia.
Qed.

Lemma AppJs_autoplay_invariant d evs :
  let s := autoplayRunAppJs d evs in
  AtMostTheNamedInterval (AppJsAutoplay.autoplayTimer s)
    (AppJsAutoplay.intervals s) (AppJsAutoplay.nextHandle s).
Proof.
  induction evs as [|ev evs IH] using rev_ind.
  - unfold autoplayRunAppJs, AppJsAutoplay.started. cbn [foldl].
    assert (AtMostTheNamedInterval None (∅ : gset nat) 1) as H0
      by (split_and!; [by left | done | lia]).
    destruct (AppJs.autoplay _); [|exact H0].
    by apply (AppJs_startAutoplay_one (AppJsAutoplay.mkState _ _ None ∅ 1)).
  - rewrite autoplayRunAppJs_snoc. simpl in *.
    destruct (autoplayRunAppJs d evs) as [bd c t set n]. simpl in IH.
    destruct ev as [i| | |h]; simpl.
    + destruct (AppJsAutoplay.navClickBound i bd); [|done].
      apply (AppJs_startAutoplay_one
               (AppJsAutoplay.mkState bd (AppJs.showSlide (Z.of_nat i) c)
                                      t set n) IH).
    + destruct (AppJsAutoplay.mouseEnterBound bd); [|done]. simpl.
      rewrite (clear_named_interval _ _ _ IH).
      destruct IH as (_ & Hid & Hn). split_and!; [by left | done | done].
    + destruct (AppJsAutoplay.mouseLeaveBound bd); [|done].
      apply (AppJs_startAutoplay_one
               (AppJsAutoplay.mkState bd c t set n) IH).
    + by case_bool_decide.
Qed.

Lemma clicks_no_pointer (l : list Element) (f : nat → nat) :
  AppJsAutoplay.mouseEnterBound
    (imap (λ j _, AppJs.TestimonialNavClick (f j)) l) = false ∧
  AppJsAutoplay.mouseLeaveBound
    (imap (λ j _, AppJs.TestimonialNavClick (f j)) l) = false.
Proof.
  revert f. induction l as [|x l IH]; intros f; [done|].
  apply (IH (f ∘ S)).
Qed.

Lemma AppJs_single_card_inert d evs :
  length (AppJs.testimonialCards d) ≤ 1 →
  autoplayRunAppJs d evs = AppJsAutoplay.started d ∧
  AppJsAutoplay.bound (AppJsAutoplay.started d) = [] ∧
  AppJsAutoplay.intervals (AppJsAutoplay.started d) = ∅.
Proof.
  intros Hn.
  assert (AppJsAutoplay.started d
          = AppJsAutoplay.mkState []
              {| AppJs.slides := AppJs.testimonialCards d;
                 AppJs.navButtons := AppJs.testimonialNavBtns d;
                 AppJs.currentSlide := 0 |} None ∅ 1) as Hst.
  { unfold AppJsAutoplay.started, AppJs.TestimonialsCarousel_init.
    by rewrite bool_decide_eq_true_2. }
  split; [|by rewrite Hst].
  induction evs as [|ev evs IH] using rev_ind; [done|].
  rewrite autoplayRunAppJs_snoc, IH, Hst.
  by destruct ev as [i| | |h].
Qed.

(** X9.  The carousel of [src/app.js] never leaves an interval behind:
    after [init] and any sequence of selector clicks, pointer entries and
    exits and intervals coming due, at most one interval is set and
    [autoplayTimer] names it.  With at most one card [init] binds nothing
    and sets no interval, and no event changes anything.  With two cards or
    more, a click on one of the selector buttons leaves exactly one interval
    set; with the carousel container in the page as well, so does the
    pointer leaving, and once the pointer has entered none is set, so
    whatever comes due until the next click or exit, the slide shown stays
    the same.  Without the container [init] has thrown before starting the
    autoplay and the pointer is not listened to. *)
Theorem appjs_autoplay_single_interval (d : AppJs.CarouselDom)
    (evs : list CarouselEvent) :
  let s := autoplayRunAppJs d evs in
  AtMostTheNamedInterval (AppJsAutoplay.autoplayTimer s)
    (AppJsAutoplay.intervals s) (AppJsAutoplay.nextHandle s) ∧
  (length (AppJs.testimonialCards d) ≤ 1 →
   s = AppJsAutoplay.started d ∧ AppJsAutoplay.bound s = [] ∧
   AppJsAutoplay.intervals s = ∅) ∧
  (2 ≤ length (AppJs.testimonialCards d) →
   ∀ i, i < length (AppJs.testimonialNavBtns d) →
        size (AppJsAutoplay.intervals
                (autoplayRunAppJs d (evs ++ [NavClick i]))) = 1) ∧
  (2 ≤ length (AppJs.testimonialCards d) →
   is_Some (AppJs.testimonialsCarousel d) →
   size (AppJsAutoplay.intervals
           (autoplayRunAppJs d (evs ++ [MouseLeave]))) = 1 ∧
   ∀ dues : list nat,
     let paused := autoplayRunAppJs d
                     (evs ++ MouseEnter :: (IntervalDue <$> dues)) in
     AppJsAutoplay.intervals paused = ∅ ∧
     AppJsAutoplay.carousel paused = AppJsAutoplay.carousel s) ∧
  (AppJs.testimonialsCarousel d = None →
   AppJsAutoplay.intervals (AppJsAutoplay.started d) = ∅ ∧
   AppJsAutoplay.handle s MouseEnter = s ∧
   AppJsAutoplay.handle s MouseLeave = s).
Proof.
  pose proof (AppJs_autoplay_invariant d evs) as Hinv.
  pose proof (AppJs_run_bound d evs) as Hb.
  cbn zeta in *. split_and!; [done | | | |].
  - intros Hn. destruct (AppJs_single_card_inert d evs Hn) as (-> & ? & ?).
    done.
  - intros Hn i Hi. rewrite autoplayRunAppJs_snoc.
    assert (AppJsAutoplay.navClickBound i
              (AppJsAutoplay.bound (autoplayRunAppJs d evs)) = true) as Hnav.
    { rewrite Hb. unfold AppJs.TestimonialsCarousel_init.
      rewrite bool_decide_eq_false_2 by lia.
      destruct (AppJs.testimonialsCarousel d); simpl.
      - unfold AppJsAutoplay.navClickBound. rewrite existsb_app.
        fold (AppJsAutoplay.navClickBound i
                (imap (λ j _, AppJs.TestimonialNavClick j)
                      (AppJs.testimonialNavBtns d))).
        rewrite navClickBound_clicks. by rewrite bool_decide_eq_true_2.
      - rewrite navClickBound_clicks. by rewrite bool_decide_eq_true_2. }
    destruct (autoplayRunAppJs d evs) as [bd c t set n]. simpl in *.
    rewrite Hnav.
    destruct (AppJs_startAutoplay_one
                (AppJsAutoplay.mkState bd (AppJs.showSlide (Z.of_nat i) c)
                                       t set n) Hinv) as (H1 & _).
    simpl in *. rewrite H1. apply size_singleton.
  - intros Hn [el Hel].
    assert (AppJsAutoplay.mouseEnterBound
              (AppJsAutoplay.bound (autoplayRunAppJs d evs)) = true ∧
            AppJsAutoplay.mouseLeaveBound
              (AppJsAutoplay.bound (autoplayRunAppJs d evs)) = true)
      as [Hen Hlv].
    { rewrite Hb. unfold AppJs.TestimonialsCarousel_init.
      rewrite bool_decide_eq_false_2 by lia. rewrite Hel. simpl.
      unfold AppJsAutoplay.mouseEnterBound, AppJsAutoplay.mouseLeaveBound.
      rewrite !existsb_app. simpl. by rewrite !orb_true_r. }
    split.
    + rewrite autoplayRunAppJs_snoc. simpl. rewrite Hlv.
      destruct (AppJs_startAutoplay_one _ Hinv) as (H1 & _).
      simpl in *. rewrite H1. apply size_singleton.
    + intros dues.
      induction dues as [|h dues IH] using rev_ind.
      * simpl. rewrite autoplayRunAppJs_snoc. simpl. rewrite Hen. simpl.
        by rewrite (clear_named_interval _ _ _ Hinv).
      * rewrite fmap_app. simpl.
        replace (evs ++ MouseEnter :: (IntervalDue <$> dues)
                 ++ [IntervalDue h])
          with ((evs ++ MouseEnter :: (IntervalDue <$> dues))
                ++ [IntervalDue h]) by (by rewrite <- app_assoc).
        rewrite autoplayRunAppJs_snoc. destruct IH as [He Hc]. simpl.
        rewrite He. rewrite bool_decide_eq_false_2 by set_solver. done.
  - intros Hnone.
    assert (AppJs.autoplay (AppJs.TestimonialsCarousel_init d).1 = false ∧
            AppJsAutoplay.mouseEnterBound
              (AppJs.bound (AppJs.TestimonialsCarousel_init d).1) = false ∧
            AppJsAutoplay.mouseLeaveBound
              (AppJs.bound (AppJs.TestimonialsCarousel_init d).1) = false)
      as (Hauto & Hen & Hlv).
    { unfold AppJs.TestimonialsCarousel_init. rewrite Hnone.
      case_bool_decide; simpl; [done|].
      split; [done|].
      apply (clicks_no_pointer _ id). }
    split_and!.
    + unfold AppJsAutoplay.started. by rewrite Hauto.
    + simpl. by rewrite Hb, Hen.
    + simpl. by rewrite Hb, Hlv.
Qed.

(** [X9] on a page with three cards, three selector buttons and the
    container, right after [init]: a click on the second button. *)
Lemma appjs_autoplay_witness :
  let d := AppJs.mkCarouselDom (Some (element ["testimonials-carousel"]))
             threeCards threeDots in
  2 ≤ length (AppJs.testimonialCards d) ∧
  1 < length (AppJs.testimonialNavBtns d) ∧
  size (AppJsAutoplay.intervals (autoplayRunAppJs d ([] ++ [NavClick 1])))
  = 1.
Proof.
  intros d. split; [simpl; lia|]. split; [simpl; lia|].
  apply (proj1 (proj2 (proj2 (appjs_autoplay_single_interval d []))));
    simpl; lia.
Defined.

Lemma Part000_stopAutoplay_none s :
  AtMostTheNamedInterval (Part000Autoplay.autoplayTimer s)
    (Part000Autoplay.intervals s) (Part000Autoplay.nextHandle s) →
  let s' := Part000Autoplay.stopAutoplay s in
  Part000Autoplay.intervals s' = ∅ ∧
  Part000Autoplay.carousel s' = Part000Autoplay.carousel s ∧
  Part000Autoplay.nextHandle s' = Part000Autoplay.nextHandle s ∧
  AtMostTheNamedInterval (Part000Autoplay.autoplayTimer s')
    (Part000Autoplay.intervals s') (Part000Autoplay.nextHandle s').
Proof.
  destruct s as [c t set n]. simpl.
  intros ([->|(id & -> & ->)] & Hid & Hn); unfold Part000Autoplay.stopAutoplay;
    simpl.
  - destruct t as [id|]; simpl.
    + specialize (Hid id eq_refl).
      rewrite bool_decide_eq_false_2 by lia. simpl.
      split_and!; [set_solver | done | done |].
      split_and!; [left; set_solver | done | done].
    + split_and!; [done | done | done |].
      split_and!; [by left | done | done].
  - specialize (Hid id eq_refl). rewrite bool_decide_eq_false_2 by lia.
    simpl. split_and!; [set_solver | done | done |].
    split_and!; [left; set_solver | done | done].
Qed.

Lemma Part000_startAutoplay_inv s :
  AtMostTheNamedInterval (Part000Autoplay.autoplayTimer s)
    (Part000Autoplay.intervals s) (Part000Autoplay.nextHandle s) →
  let s' := Part000Autoplay.startAutoplay s in
  Part000Autoplay.carousel s' = Part000Autoplay.carousel s ∧
  (if bool_decide (Part000.totalSlides (Part000Autoplay.carousel s) > 1)%Z
   then size (Part000Autoplay.intervals s') = 1
   else Part000Autoplay.intervals s' = ∅) ∧
  AtMostTheNamedInterval (Part000Autoplay.autoplayTimer s')
    (Part000Autoplay.intervals s') (Part000Autoplay.nextHandle s').
Proof.
  intros H. destruct (Part000_stopAutoplay_none s H) as (He & Hc & Hn & Hi).
  cbv zeta in *. unfold Part000Autoplay.startAutoplay.
  destruct (Part000Autoplay.stopAutoplay s) as [c1 t1 set1 n1].
  cbn [Part000Autoplay.carousel Part000Autoplay.intervals
       Part000Autoplay.nextHandle Part000Autoplay.autoplayTimer] in *.
  subst c1 set1 n1. destruct Hi as (_ & Hid & Hpos).
  destruct (bool_decide (Part000.totalSlides (Part000Autoplay.carousel s) > 1)%Z);
    cbn [Part000Autoplay.carousel Part000Autoplay.intervals
         Part000Autoplay.nextHandle Part000Autoplay.autoplayTimer].
  - split_and!; [done | | ].
    + rewrite (left_id_L ∅ (∪)). apply size_singleton.
    + split_and!; [right; eexists; split; [done | set_solver] | | lia].
      intros id [= <-]. lia.
  - split_and!; [done | done |]. split_and!; [by left | done | done].
Qed.

Lemma autoplayRunPart000_snoc ss bs evs ev :
  autoplayRunPart000 ss bs (evs ++ [ev])
  = Part000Autoplay.handle (autoplayRunPart000 ss bs evs) ev.
Proof. unfold autoplayRunPart000. by rewrite foldl_app. Qed.

Lemma Part000_totalSlides_showSlide i c :
  Part000.totalSlides (Part000.showSlide i c) = Part000.totalSlides c.
Proof. done. Qed.

Lemma Part000_totalSlides_goToSlide i c :
  Part000.totalSlides (Part000.goToSlide i c) = Part000.totalSlides c.
Proof. unfold Part000.goToSlide. by case_bool_decide. Qed.

Lemma Part000_totalSlides_setup ss bs :
  Part000.totalSlides (Part000.setupCarousel ss bs) = Z.of_nat (length ss).
Proof. unfold Part000.setupCarousel. simpl. by case_bool_decide. Qed.

Lemma Part000_autoplay_invariant ss bs evs :
  let s := autoplayRunPart000 ss bs evs in
  Part000.totalSlides (Part000Autoplay.carousel s) = Z.of_nat (length ss) ∧
  AtMostTheNamedInterval (Part000Autoplay.autoplayTimer s)
    (Part000Autoplay.intervals s) (Part000Autoplay.nextHandle s) ∧
  (length ss ≤ 1 → Part000Autoplay.intervals s = ∅).
Proof.
  induction evs as [|ev evs IH] using rev_ind.
  - set (s0 := Part000Autoplay.mkState (Part000.setupCarousel ss bs) None ∅ 1).
    assert (AtMostTheNamedInterval (Part000Autoplay.autoplayTimer s0)
              (Part000Autoplay.intervals s0) (Part000Autoplay.nextHandle s0))
      as H0 by (split_and!; [by left | done | simpl; lia]).
    destruct (Part000_startAutoplay_inv s0 H0) as (Hc & Hsz & Hi).
    unfold autoplayRunPart000, Part000Autoplay.started. simpl in *.
    fold s0. rewrite Hc. simpl. rewrite Part000_totalSlides_setup in *.
    split_and!; [done | done |]. intros Hn.
    by rewrite bool_decide_eq_false_2 in Hsz by lia.
  - rewrite autoplayRunPart000_snoc. simpl in *.
    destruct IH as (Ht & Hi & Hz).
    destruct ev as [i| | |h]; simpl.
    + set (s1 := Part000Autoplay.mkState _ _ _ _).
      assert (AtMostTheNamedInterval (Part000Autoplay.autoplayTimer s1)
                (Part000Autoplay.intervals s1)
                (Part000Autoplay.nextHandle s1)) as H1 by done.
      destruct (Part000_stopAutoplay_none s1 H1) as (_ & Hc1 & _ & H2).
      destruct (Part000_startAutoplay_inv _ H2) as (Hc & Hsz & H3).
      unfold Part000Autoplay.restartAutoplay. simpl in *.
      rewrite Hc, Hc1 in *. simpl in *.
      rewrite Part000_totalSlides_goToSlide, Ht in *.
      split_and!; [done | done |]. intros Hn.
      by rewrite bool_decide_eq_false_2 in Hsz by lia.
    + destruct (Part000_stopAutoplay_none _ Hi) as (He & Hc & _ & H2).
      simpl in *. rewrite Hc. by split_and!.
    + destruct (Part000_startAutoplay_inv _ Hi) as (Hc & Hsz & H3).
      simpl in *. rewrite Hc, Ht in *. split_and!; [done | done |].
      intros Hn. by rewrite bool_decide_eq_false_2 in Hsz by lia.
    + case_bool_decide; simpl; [|by split_and!].
      split_and!; [exact Ht | done | done].
Qed.

(** X10.  The carousel of [part_000] likewise keeps at most the interval
    its field [autoplayTimer] names, through any sequence of selector
    clicks, pointer entries and exits and intervals coming due; once the
    pointer has entered none is set.  With at most one card no interval is
    ever set, so [nextSlide] never runs: the carousel any such sequence
    leaves is the one the selector clicks alone leave. *)
Theorem part000_autoplay_single_interval (ss bs : list Element)
    (evs : list CarouselEvent) :
  let s := autoplayRunPart000 ss bs evs in
  AtMostTheNamedInterval (Part000Autoplay.autoplayTimer s)
    (Part000Autoplay.intervals s) (Part000Autoplay.nextHandle s) ∧
  Part000Autoplay.intervals
    (autoplayRunPart000 ss bs (evs ++ [MouseEnter])) = ∅ ∧
  (length ss ≤ 1 →
   Part000Autoplay.intervals s = ∅ ∧
   Part000Autoplay.carousel s
   = Part000.run (omap (transitionOf ∅) evs) (Part000.setupCarousel ss bs)).
Proof.
  pose proof (Part000_autoplay_invariant ss bs evs) as (Ht & Hi & Hz).
  simpl in *. split_and!; [done | |].
  - rewrite autoplayRunPart000_snoc. simpl.
    by destruct (Part000_stopAutoplay_none _ Hi) as (He & _).
  - intros Hn. split; [by apply Hz|]. clear Ht Hi Hz.
    induction evs as [|ev evs IH] using rev_ind.
    + set (s0 := Part000Autoplay.mkState (Part000.setupCarousel ss bs)
                                         None ∅ 1).
      assert (AtMostTheNamedInterval (Part000Autoplay.autoplayTimer s0)
                (Part000Autoplay.intervals s0)
                (Part000Autoplay.nextHandle s0))
        as H0 by (split_and!; [by left | done | simpl; lia]).
      by destruct (Part000_startAutoplay_inv s0 H0) as (Hc & _).
    + rewrite autoplayRunPart000_snoc, omap_app.
      unfold Part000.run in *. rewrite foldl_app, <- IH.
      pose proof (Part000_autoplay_invariant ss bs evs) as (Ht & Hi & Hz).
      simpl in *. specialize (Hz Hn).
      destruct ev as [i| | |h]; simpl.
      * set (s1 := Part000Autoplay.mkState _ _ _ _).
        assert (AtMostTheNamedInterval (Part000Autoplay.autoplayTimer s1)
                  (Part000Autoplay.intervals s1)
                  (Part000Autoplay.nextHandle s1)) as H1 by done.
        destruct (Part000_stopAutoplay_none s1 H1) as (_ & Hc1 & _ & H2).
        destruct (Part000_startAutoplay_inv _ H2) as (Hc & _).
        unfold Part000Autoplay.restartAutoplay. simpl in *.
        by rewrite Hc, Hc1.
      * by destruct (Part000_stopAutoplay_none _ Hi) as (_ & Hc & _).
      * by destruct (Part000_startAutoplay_inv _ Hi) as (Hc & _).
      * rewrite Hz. by rewrite bool_decide_eq_false_2 by set_solver.
Qed.

(** [X10] at a page with a single testimonial card. *)
Lemma part000_autoplay_witness :
  length [element ["testimonial-card"]] ≤ 1 ∧
  Part000Autoplay.intervals
    (autoplayRunPart000 [element ["testimonial-card"]] []
       [MouseLeave; IntervalDue 1; NavClick 0]) = ∅.
Proof.
  split; [simpl; lia|].
  exact (proj1 (proj2 (proj2 (part000_autoplay_single_interval
                                [element ["testimonial-card"]] []
                                [MouseLeave; IntervalDue 1; NavClick 0]))
                      (le_n 1))).
Defined.

(** ** Counter animation between any two integers *)

Section EasingBothWays.
Local Open Scope Q_scope.




End EasingBothWays.




(** ** The interval-driven counter of [part_000], any start and target *)

Lemma inject_nat_succ k :
  (inject_Z (Z.of_nat (S k)) == inject_Z (Z.of_nat k) + 1)%Q.
Proof. rewrite Nat2Z.inj_succ. unfold Z.succ. by rewrite inject_Z_plus. Qed.

Lemma inject_nat_nonneg k : (0 <= inject_Z (Z.of_nat k))%Q.
Proof. rewrite <- (Zle_Qle 0). lia. Qed.

Lemma Part000_tick_stopped st :
  Part000.running (fst st) = false → Part000.tick st = st.
Proof. destruct st as [tk el]. simpl. by intros ->. Qed.

Lemma Part000_ticks_stopped st k :
  Part000.running (fst st) = false → Nat.iter k Part000.tick st = st.
Proof.
  intros H. induction k as [|k IH]; [done|].
  rewrite Nat.iter_succ, IH. by apply Part000_tick_stopped.
Qed.

Lemma ticksTowards_state el (T D : Q) k :
  (0 < D)%Q →
  let s := inject_Z (parseIntOr0 (textContent el)) in
  let tk := fst (ticksTowards el T D k) in
  let inc := ((T - s) * (16 / D))%Q in
  Part000.target tk = T ∧
  (Part000.increment tk == inc)%Q ∧
  ((Part000.running tk = true ∧
    (Part000.current tk == s + inject_Z (Z.of_nat k) * inc)%Q ∧
    (k = 0%nat ∨ (Part000.current tk < T)%Q))
   ∨ (Part000.running tk = false ∧ Part000.current tk = T ∧
      ∃ j, j < k ∧ (T <= s + inject_Z (Z.of_nat (S j)) * inc)%Q ∧
           ∀ i, 1 ≤ i ≤ j → (s + inject_Z (Z.of_nat i) * inc < T)%Q)) ∧
  (∀ i, 1 ≤ i ≤ k → Part000.running tk = true →
        (s + inject_Z (Z.of_nat i) * inc < T)%Q) ∧
  (1 ≤ k → textContent (snd (ticksTowards el T D k))
           = showZ (Qfloor (Part000.current tk))).
Proof.
  intros HD s tk inc. subst tk. induction k as [|k IH].
  - simpl. fold s. split_and!; [done | subst inc; field; lra | | lia | lia].
    left. split_and!; [done | | by left]. simpl. ring.
  - unfold ticksTowards in *. rewrite Nat.iter_succ.
    destruct (Nat.iter k Part000.tick (Part000.animateCounter el T D, el))
      as [tk c] eqn:E.
    cbn [fst snd] in IH. destruct IH as (Ht & Hi & Hcase & Hbelow & Htxt).
    pose proof (inject_nat_succ k) as HS.
    unfold Part000.tick.
    destruct Hcase as [(Hr & Hc & Hlt)|(Hr & Hc & Hge)]; rewrite Hr.
    + destruct (Qle_bool (Part000.target tk)
                         (Part000.current tk + Part000.increment tk)) eqn:Hle;
        cbn [fst snd Part000.target Part000.increment Part000.running
             Part000.current].
      * split_and!; [done | done | | done | done].
        right. split_and!; [done | done |].
        exists k. split_and!; [lia | |].
        -- apply Qle_bool_iff in Hle. rewrite Ht, Hc, Hi in Hle.
           rewrite HS. lra.
        -- intros i Hik. by apply Hbelow.
      * assert (Part000.current tk + Part000.increment tk < T)%Q as Hlt'.
        { apply Qnot_le_lt. intros Hle'. rewrite <- Ht in Hle'.
          apply Qle_bool_iff in Hle'. by rewrite Hle' in Hle. }
        split_and!; [done | done | | | done].
        -- left. split_and!; [done | rewrite Hc, Hi, HS; ring | by right].
        -- intros i Hik _. destruct (decide (i = S k)) as [->|Hne].
           ++ rewrite HS. rewrite Hc, Hi in Hlt'. lra.
           ++ apply Hbelow; [lia | done].
    + cbn [fst snd]. split_and!; [done | done | | by rewrite Hr | ].
      * right. split_and!; [done | done |].
        destruct Hge as (j & Hj & Hge & Hb). exists j.
        split_and!; [lia | done | done].
      * intros _. destruct k as [|k'].
        -- simpl in E. injection E as <- <-. simpl in Hr. done.
        -- apply Htxt. lia.
Qed.

(** X12.  The interval-driven counter of [part_000] counting up, from any
    displayed start to any higher target over any duration [D > 0]: while
    the interval is set the counter stays below the target; the interval is
    cleared only with the counter at the target, and a cleared counter
    changes no more; every firing writes the integer part of the running
    value; and what is written never goes down and stays between the start
    and the target. *)
Theorem interval_counter_counts_up (el : Counter) (T D : Q) (k : nat) :
  (0 < D)%Q →
  (inject_Z (parseIntOr0 (textContent el)) < T)%Q →
  let tk n := fst (ticksTowards el T D n) in
  (Part000.running (tk k) = true → 1 ≤ k → (Part000.current (tk k) < T)%Q) ∧
  (Part000.running (tk k) = false →
   Part000.current (tk k) = T ∧
   ticksTowards el T D (S k) = ticksTowards el T D k) ∧
  (1 ≤ k → textContent (snd (ticksTowards el T D k))
           = showZ (Qfloor (Part000.current (tk k)))) ∧
  (parseIntOr0 (textContent el) <= Qfloor (Part000.current (tk k))
   <= Qfloor T)%Z ∧
  (Qfloor (Part000.current (tk k))
   <= Qfloor (Part000.current (tk (S k))))%Z.
Proof.
  intros HD Hup tk. subst tk. cbn beta.
  set (s := inject_Z (parseIntOr0 (textContent el))) in *.
  set (inc := ((T - s) * (16 / D))%Q).
  assert (0 < 16 / D)%Q as Hr by (apply Qlt_shift_div_l; [done | lra]).
  assert (0 < inc)%Q as Hinc.
  { subst inc. apply Qmult_lt_0_compat; [lra | done]. }
  pose proof (ticksTowards_state el T D k HD)
    as (Ht & Hi & Hcase & Hbelow & Htxt).
  pose proof (ticksTowards_state el T D (S k) HD)
    as (_ & _ & Hcase' & _ & _).
  fold s inc in Hi, Hcase, Hbelow, Hcase'.
  pose proof (inject_nat_succ k) as HS.
  pose proof (inject_nat_nonneg k) as Hk0.
  split; [|split; [|split; [|split]]].
  - intros Hrun Hk.
    destruct Hcase as [(_ & _ & [->|Hlt])|(Hrun' & _)];
      [lia | done | congruence].
  - intros Hrun.
    destruct Hcase as [(Hrun' & _)|(_ & Hc & _)]; [congruence|].
    split; [done|]. unfold ticksTowards. rewrite Nat.iter_succ.
    by apply Part000_tick_stopped.
  - exact Htxt.
  - destruct Hcase as [(_ & Hc & Hlt)|(_ & Hc & _)].
    + split.
      * etrans; [|apply Qfloor_resp_le with (x := s)].
        -- subst s. by rewrite Qfloor_Z.
        -- rewrite Hc.
           assert (0 <= inject_Z (Z.of_nat k) * inc)%Q
             by (apply Qmult_le_0_compat; [done | lra]).
           lra.
      * apply Qfloor_resp_le. destruct Hlt as [->|Hlt]; [|lra].
        rewrite Hc. change (inject_Z (Z.of_nat 0)) with 0%Q. lra.
    + rewrite Hc. split; [|done].
      etrans; [|apply Qfloor_resp_le with (x := s); lra].
      subst s. by rewrite Qfloor_Z.
  - apply Qfloor_resp_le.
    destruct Hcase as [(_ & Hc & Hlt)|(Hrun & Hc & _)];
      destruct Hcase' as [(Hrun' & Hc' & Hlt')|(_ & Hc' & _)].
    + rewrite Hc, Hc', HS. lra.
    + rewrite Hc'. destruct Hlt as [->|Hlt]; [|lra].
      rewrite Hc. change (inject_Z (Z.of_nat 0)) with 0%Q. lra.
    + exfalso. unfold ticksTowards in Hrun'.
      rewrite Nat.iter_succ, Part000_tick_stopped in Hrun' by done.
      unfold ticksTowards in Hrun. by rewrite Hrun in Hrun'.
    + rewrite Hc, Hc'. apply Qle_refl.
Qed.

(** [X12] at a counter that reads 5, counted up to 25 over 2000 ms, after
    the 10th firing. *)
Lemma interval_counter_up_witness :
  (0 < 2000)%Q ∧
  (inject_Z (parseIntOr0 (textContent (mkCounter "5" None))) < 25)%Q ∧
  (5 <= Qfloor (Part000.current
                  (fst (ticksTowards (mkCounter "5" None) 25 2000 10)))
   <= 25)%Z.
Proof.
  split; [reflexivity|]. split; [reflexivity|].
  exact (proj1 (proj2 (proj2 (proj2
           (interval_counter_counts_up (mkCounter "5" None) 25 2000 10
              eq_refl eq_refl))))).
Defined.



(** ** Form submission: what is sent and when *)

Lemma formObject_lookup (f : Form) (n : string) :
  formObject f !! n
  = value <$> last (filter (λ x, fieldName x = n) (fields f)).
Proof.
  unfold formObject. induction (fields f) as [|x l IH] using rev_ind; [done|].
  rewrite foldl_app, filter_app. simpl.
  destruct (decide (fieldName x = n)) as [Heq|Hne].
  - rewrite Heq, lookup_insert_eq.
    rewrite filter_cons_True, filter_nil by done. by rewrite last_snoc.
  - rewrite lookup_insert_ne by done.
    rewrite filter_cons_False, filter_nil by done. by rewrite app_nil_r.
Qed.

(** X14.  The JSON object of a submission, in [src/app.js] and in
    [part_001]: under every name other than [access_key] it holds the value
    of the last form field of that name, and nothing when there is none;
    under [access_key] it holds the configured key, whatever field of that
    name the form has. *)
Theorem request_body_last_value_and_key (f : Form) (key n : string) :
  body (AppJs.submitRequest f) !! "access_key"
  = Some AppJs.web3FormsAccessKey ∧
  body (Part001.submitRequest key f) !! "access_key" = Some key ∧
  (n ≠ "access_key" →
   body (AppJs.submitRequest f) !! n
   = value <$> last (filter (λ x, fieldName x = n) (fields f)) ∧
   body (Part001.submitRequest key f) !! n
   = value <$> last (filter (λ x, fieldName x = n) (fields f))).
Proof.
  unfold AppJs.submitRequest, Part001.submitRequest. cbn [body].
  split_and!; [by rewrite lookup_insert_eq | by rewrite lookup_insert_eq |].
  intros Hn. rewrite !lookup_insert_ne by done.
  by rewrite formObject_lookup.
Qed.

(** [X14] at a form with two fields called [email]. *)
Lemma request_body_witness :
  "email" ≠ "access_key" ∧
  body (Part001.submitRequest "k"
          (mkForm [mkField "email" "old@example.org" EmptyString false;
                   mkField "name" "A" EmptyString false;
                   mkField "email" "new@example.org" EmptyString false]
                  None)) !! "email" = Some "new@example.org".
Proof.
  split; [done|].
  exact (proj2 (proj2 (proj2 (request_body_last_value_and_key
           (mkForm [mkField "email" "old@example.org" EmptyString false;
                    mkField "name" "A" EmptyString false;
                    mkField "email" "new@example.org" EmptyString false]
                   None) "k" "email")) ltac:(done))).
Defined.

Lemma allWhitespace_rev_app s1 s2 :
  allWhitespace (String.rev_app s1 s2)
  = allWhitespace s1 && allWhitespace s2.
Proof.
  revert s2. induction s1 as [|c r IH]; intros s2; [done|].
  simpl. rewrite IH. simpl. by destruct (isWhitespace c), (allWhitespace r).
Qed.

Lemma rev_app_empty s1 s2 :
  String.rev_app s1 s2 = EmptyString → s1 = EmptyString ∧ s2 = EmptyString.
Proof.
  revert s2. induction s1 as [|c r IH]; intros s2; [done|].
  simpl. intros H. by apply IH in H as [_ ?].
Qed.

Lemma allWhitespace_trimStart s :
  allWhitespace (trimStart s) = true → allWhitespace s = true.
Proof.
  induction s as [|c r IH]; [done|]. simpl.
  destruct (isWhitespace c) eqn:Hc; [done|]. simpl. by rewrite Hc.
Qed.

Lemma trimStart_empty s : trimStart s = EmptyString → allWhitespace s = true.
Proof.
  induction s as [|c r IH]; [done|]. simpl.
  destruct (isWhitespace c); [done|]. done.
Qed.

Lemma trim_empty s : trim s = EmptyString → allWhitespace s = true.
Proof.
  unfold trim, String.rev. intros H.
  apply rev_app_empty in H as [H _]. apply trimStart_empty in H.
  rewrite allWhitespace_rev_app, andb_true_r in H.
  by apply allWhitespace_trimStart.
Qed.

Lemma truthy_trim s : truthy (trim s) = negb (allWhitespace s).
Proof.
  destruct (allWhitespace s) eqn:Hs.
  - by rewrite (trim_allWhitespace s Hs).
  - destruct (trim s) eqn:Ht; [|done].
    apply trim_empty in Ht. congruence.
Qed.

Lemma allRequiredFilled_spec f :
  Part001.allRequiredFilled f = true
  ↔ ∀ x, x ∈ fields f → required x = true → allWhitespace (value x) = false.
Proof.
  unfold Part001.allRequiredFilled. rewrite forallb_forall. split.
  - intros H x Hx Hreq.
    specialize (H x (proj1 (list_elem_of_In _ _) Hx)).
    rewrite Hreq, truthy_trim in H. simpl in H. by apply negb_true_iff.
  - intros H x Hx. destruct (required x) eqn:Hreq; [|done]. simpl.
    rewrite truthy_trim.
    by rewrite (H x (proj2 (list_elem_of_In _ _) Hx) Hreq).
Qed.

(** X15.  The submit listener of [part_001] on a form whose required
    values are ASCII text.  It issues its POST exactly when a non-empty key
    is configured, every required field holds a character that is not white
    space, and the form has a submit button; it then issues one request,
    schedules one timeout at 4000 ms and leaves the button disabled.  When
    the key or a required value is missing it raises one alert and changes
    nothing else; when only the button is missing it throws with nothing
    sent. *)
Theorem part001_posts_iff_form_valid (cfg : Part001.AppConfig)
    (outcome : FetchOutcome) (f : Form) (b : Browser) :
  (∀ x, x ∈ fields f → required x = true → isAscii (value x) = true) →
  let valid :=
    (∃ key, Part001.web3FormsAccessKey cfg = Some key ∧ key ≠ EmptyString) ∧
    (∀ x, x ∈ fields f → required x = true →
          allWhitespace (value x) = false) in
  let f' := fst (fst (Part001.submitListener cfg outcome f b)) in
  let b' := snd (fst (Part001.submitListener cfg outcome f b)) in
  let c := snd (Part001.submitListener cfg outcome f b) in
  (requests b' ≠ requests b ↔ valid ∧ is_Some (submitButton f)) ∧
  (valid → is_Some (submitButton f) →
   (∃ key, Part001.web3FormsAccessKey cfg = Some key ∧
           requests b' = requests b ++ [Part001.submitRequest key f]) ∧
   timeouts b' = timeouts b ++ [(4000%Z, RestoreSubmit "Submit")] ∧
   alerts b' = alerts b ∧
   disabled <$> submitButton f' = Some true ∧
   c = Normal ()) ∧
  (¬ valid →
   f' = f ∧ timeouts b' = timeouts b ∧
   (∃ msg, b' = alert msg b) ∧ c = Normal ()) ∧
  (valid → submitButton f = None → f' = f ∧ b' = b ∧ ∃ e, c = Throw e).
Proof.
  intros _ valid f' b' c. subst f' b' c.
  assert (∀ l (r : Request), l ++ [r] ≠ l) as Hsnoc.
  { intros l r H. apply (f_equal length) in H.
    rewrite length_app in H. simpl in H. lia. }
  unfold Part001.submitListener.
  destruct (Part001.web3FormsAccessKey cfg) as [key|] eqn:Hkey.
  2:{ assert (¬ valid) as Hnv by (intros [(k & Hk & _) _]; done).
      cbn [fst snd]. rewrite requests_alert.
      split_and!; [| done | | done].
      - split; [done | by intros [? _]].
      - intros _. split_and!; [done | | by eexists | done].
        by destruct b. }
  destruct (truthy key) eqn:Htr; cbn [negb].
  2:{ assert (key = EmptyString) as -> by (by destruct key).
      assert (¬ valid) as Hnv.
      { intros [(k & Hk & Hne) _]. by injection Hk as <-. }
      cbn [fst snd]. rewrite requests_alert.
      split_and!; [| done | | done].
      - split; [done | by intros [? _]].
      - intros _. split_and!; [done | | by eexists | done].
        by destruct b. }
  assert (key ≠ EmptyString) as Hne by (by destruct key).
  destruct (Part001.allRequiredFilled f) eqn:Hall; cbn [negb].
  2:{ assert (¬ valid) as Hnv.
      { intros [_ Hv]. apply allRequiredFilled_spec in Hv. congruence. }
      cbn [fst snd]. rewrite requests_alert.
      split_and!; [| done | | done].
      - split; [done | by intros [? _]].
      - intros _. split_and!; [done | | by eexists | done].
        by destruct b. }
  assert valid as Hv.
  { split; [by exists key | by apply allRequiredFilled_spec]. }
  destruct (submitButton f) as [btn|] eqn:Hbtn; cbn [fst snd].
  - rewrite timeouts_setTimeout, timeouts_fetch.
    assert (requests (setTimeout (RestoreSubmit "Submit") 4000
                        (fetch (Part001.submitRequest key f) b))
            = requests b ++ [Part001.submitRequest key f]) as Hrq
      by (by destruct b).
    rewrite Hrq. split_and!.
    + split; [by intros _ | intros _; apply Hsnoc].
    + intros _ _. split_and!; [by exists key | done | by destruct b | | done].
      by destruct outcome as [| |[]].
    + done.
    + done.
  - split_and!.
    + split; [done | by intros [_ [? ?]]].
    + by intros _ [? ?].
    + done.
    + intros _ _. split_and!; [done | done | by eexists].
Qed.

(** [X15] on the filled contact form under the built-in configuration. *)
Lemma part001_posts_witness :
  (∀ x, x ∈ fields filledForm → required x = true →
        isAscii (value x) = true) ∧
  requests (snd (fst (Part001.submitListener Part001.defaultConfig Rejected
                        filledForm freshBrowser)))
  ≠ requests freshBrowser.
Proof.
  assert (∀ x, x ∈ fields filledForm → required x = true →
               isAscii (value x) = true) as Hascii.
  { intros x Hx _.
    repeat (apply elem_of_cons in Hx as [->|Hx]; [reflexivity|]).
    by apply elem_of_nil in Hx. }
  split; [exact Hascii|].
  apply (proj1 (part001_posts_iff_form_valid Part001.defaultConfig Rejected
                  filledForm freshBrowser Hascii)).
  split; [split|].
  - by eexists.
  - by apply allRequiredFilled_spec.
  - by eexists.
Defined.

(** X16.  Submission followed by its timeout, on a form whose submit button
    is enabled.  Every way the request settles leaves one request, one
    timeout at 4000 ms and the button disabled; once the timeout has run,
    [src/app.js] has the form exactly as it was when the endpoint did not
    accept, and exactly as [reset] leaves it when it did, and [part_001]
    has the same but for the button, which reads [Submit]. *)
Theorem submit_then_timeout_round_trip (outcome : FetchOutcome) (f : Form)
    (btn : Button) (b : Browser) (key : string) (cfg : Part001.AppConfig) :
  submitButton f = Some btn → disabled btn = false →
  let settled :=
    match outcome with BodyJson true => reset f | _ => f end in
  (∃ f1 b1 cb,
     AppJs.submitListener outcome f b = ((f1, b1), Normal ()) ∧
     requests b1 = requests b ++ [AppJs.submitRequest f] ∧
     timeouts b1 = timeouts b ++ [(4000%Z, cb)] ∧
     disabled <$> submitButton f1 = Some true ∧
     AppJs.runCallback cb f1 = settled) ∧
  (Part001.web3FormsAccessKey cfg = Some key → key ≠ EmptyString →
   Part001.allRequiredFilled f = true →
   ∃ f1 b1 cb,
     Part001.submitListener cfg outcome f b = ((f1, b1), Normal ()) ∧
     requests b1 = requests b ++ [Part001.submitRequest key f] ∧
     timeouts b1 = timeouts b ++ [(4000%Z, cb)] ∧
     disabled <$> submitButton f1 = Some true ∧
     Part001.runCallback cb f1
     = Part001.setButton (mkButton "Submit" false) settled ∧
     (Part001.runCallback cb f1 = settled ↔ content btn = "Submit")).
Proof.
  intros Hbtn Hdis settled.
  assert (mkButton (content btn) false = btn) as Heta
    by (destruct btn; simpl in *; by subst).
  assert (∀ g : Form, submitButton g = Some btn →
            {| fields := fields g; submitButton := Some btn |} = g) as Hform
    by (intros [fl sb]; simpl; by intros ->).
  split.
  - unfold AppJs.submitListener.
    rewrite bool_decide_eq_false_2 by done. rewrite Hbtn.
    destruct outcome as [| |[]]; cbn beta iota zeta; eexists _, _, _;
      (split_and!;
       [ reflexivity
       | by destruct b
       | by destruct b
       | done
       | subst settled;
         unfold AppJs.runCallback, AppJs.setButton, reset;
         cbn [fields submitButton]; rewrite Heta, ?Hbtn;
         try done; by apply Hform ]).
  - intros Hkey Hne Hall. unfold Part001.submitListener.
    rewrite Hkey. assert (truthy key = true) as -> by (by destruct key).
    rewrite Hall, Hbtn. cbn [negb].
    assert (∀ g : Form, submitButton g = Some btn →
              Part001.setButton (mkButton "Submit" false) g = g
              ↔ content btn = "Submit") as Hiff.
    { intros [fl sb]. simpl. intros ->. unfold Part001.setButton. simpl.
      split.
      - intros [= <-]. done.
      - intros Hc. by rewrite <- Heta, Hc. }
    destruct outcome as [| |[]]; cbn beta iota zeta; eexists _, _, _;
      (split_and!;
       [ reflexivity
       | by destruct b
       | by destruct b
       | done
       | done
       | subst settled; unfold Part001.runCallback;
         first [exact (Hiff f Hbtn) | exact (Hiff (reset f) Hbtn)] ]).
Qed.

(** [X16] on the filled contact form, the endpoint refusing. *)
Lemma submit_round_trip_witness :
  submitButton filledForm = Some (mkButton "Send Message" false) ∧
  disabled (mkButton "Send Message" false) = false ∧
  ∃ f1 b1 cb,
    AppJs.submitListener (BodyJson false) filledForm freshBrowser
    = ((f1, b1), Normal ()) ∧
    AppJs.runCallback cb f1 = filledForm.
Proof.
  split; [reflexivity|]. split; [reflexivity|].
  destruct (proj1 (submit_then_timeout_round_trip (BodyJson false) filledForm
                     (mkButton "Send Message" false) freshBrowser
                     EmptyString Part001.defaultConfig eq_refl eq_refl))
    as (f1 & b1 & cb & H1 & _ & _ & _ & H2).
  by exists f1, b1, cb.
Defined.

(** ** The e-mail pattern of [part_000] *)

Lemma test_Once class rest s :
  Part000Forms.test (Part000Forms.Once class :: rest) s = true
  ↔ ∃ c r, s = String c r ∧ class c = true ∧
           Part000Forms.test rest r = true.
Proof.
  destruct s as [|c r]; simpl.
  - split; [done | by intros (? & ? & ? & _)].
  - rewrite andb_true_iff. split.
    + intros [? ?]. by exists c, r.
    + by intros (? & ? & [= <- <-] & ? & ?).
Qed.

Lemma test_OneOrMore_cons class rest c r :
  Part000Forms.test (Part000Forms.OneOrMore class :: rest) (String c r)
  = class c && (Part000Forms.test (Part000Forms.OneOrMore class :: rest) r
                || Part000Forms.test rest r).
Proof. done. Qed.

Lemma test_OneOrMore class rest s :
  Part000Forms.test (Part000Forms.OneOrMore class :: rest) s = true
  ↔ ∃ a r, s = a +:+ r ∧ a ≠ EmptyString ∧ allChars class a = true ∧
           Part000Forms.test rest r = true.
Proof.
  induction s as [|c s IH].
  - split; [done|]. intros (a & r & Hs & Ha & _). by destruct a.
  - rewrite test_OneOrMore_cons, andb_true_iff, orb_true_iff, IH. split.
    + intros [Hc [(a & r & -> & Ha & Hall & Hr)|Hr]].
      * exists (String c a), r. simpl. by rewrite Hc, Hall.
      * exists (String c EmptyString), s. simpl. by rewrite Hc.
    + intros (a & r & Hs & Ha & Hall & Hr).
      destruct a as [|c' a]; [done|]. simpl in Hs, Hall.
      injection Hs as <- ->. apply andb_true_iff in Hall as [Hc Hall].
      split; [done|]. destruct a as [|c'' a]; [by right|].
      left. by exists (String c'' a), r.
Qed.

Lemma test_nil s : Part000Forms.test [] s = true ↔ s = EmptyString.
Proof. by destruct s. Qed.

Lemma app_empty_r (s : string) : s +:+ EmptyString = s.
Proof.
  induction s as [|c s IH]; [done|].
  change (String c (s +:+ EmptyString) = String c s). by rewrite IH.
Qed.

(** X17.  On ASCII text, the e-mail pattern of [part_000] accepts exactly
    the strings made of a local part, [@], a domain part, a dot and a last
    part, the three parts non-empty and free of white space and of [@]. *)
Theorem email_pattern_language (s : string) :
  isAscii s = true →
  (Part000Forms.test Part000Forms.emailRegex s = true
   ↔ ∃ a b c,
       s = a +:+ "@" +:+ b +:+ "." +:+ c ∧
       a ≠ EmptyString ∧ b ≠ EmptyString ∧ c ≠ EmptyString ∧
       allChars Part000Forms.notSpaceOrAt a = true ∧
       allChars Part000Forms.notSpaceOrAt b = true ∧
       allChars Part000Forms.notSpaceOrAt c = true).
Proof.
  intros _. unfold Part000Forms.emailRegex. rewrite test_OneOrMore. split.
  - intros (a & r1 & -> & Ha & Hall_a & H1).
    apply test_Once in H1 as (c1 & r2 & -> & Hc1 & H2).
    apply test_OneOrMore in H2 as (b & r3 & -> & Hb & Hall_b & H3).
    apply test_Once in H3 as (c2 & r4 & -> & Hc2 & H4).
    apply test_OneOrMore in H4 as (c & r5 & -> & Hc & Hall_c & H5).
    apply test_nil in H5 as ->.
    apply bool_decide_eq_true in Hc1 as ->.
    apply bool_decide_eq_true in Hc2 as ->.
    exists a, b, c. by rewrite app_empty_r.
  - intros (a & b & c & -> & Ha & Hb & Hc & Hall_a & Hall_b & Hall_c).
    exists a, ("@" +:+ b +:+ "." +:+ c). split_and!; [done..|].
    apply test_Once. exists "@"%char, (b +:+ "." +:+ c).
    split_and!; [done..|].
    apply test_OneOrMore. exists b, ("." +:+ c). split_and!; [done..|].
    apply test_Once. exists "."%char, c. split_and!; [done..|].
    apply test_OneOrMore. exists c, EmptyString.
    split_and!; [by rewrite app_empty_r | done..].
Qed.

(** [X17] at an address of the usual shape. *)
Lemma email_pattern_witness :
  isAscii "client@example.org" = true ∧
  ∃ a b c, "client@example.org" = a +:+ "@" +:+ b +:+ "." +:+ c ∧
           a ≠ EmptyString ∧ b ≠ EmptyString ∧ c ≠ EmptyString.
Proof.
  split; [reflexivity|].
  destruct (proj1 (email_pattern_language "client@example.org" eq_refl)
                  eq_refl) as (a & b & c & H & Ha & Hb & Hc & _).
  by exists a, b, c.
Defined.

(** ** Validation *)

Lemma isBlank_filledIn data field :
  Part000Forms.isBlank data field = false ↔ filledIn data field.
Proof.
  unfold Part000Forms.isBlank, filledIn.
  destruct (data !! field) as [v|]; [|split; [done | by intros (? & ? & _)]].
  rewrite orb_false_iff, negb_false_iff, bool_decide_eq_false. split.
  - intros [_ Ht]. exists v. split; [done|].
    apply not_true_is_false. intros Hw. by apply Ht, trim_allWhitespace.
  - intros (? & [= <-] & Hw). split.
    + by destruct v.
    + intros Ht. apply trim_empty in Ht. congruence.
Qed.

Lemma firstBlank_None required data :
  Part000Forms.firstBlank required data = None
  ↔ ∀ field, field ∈ required → filledIn data field.
Proof.
  induction required as [|x l IH]; simpl.
  - split; [intros _ ? ?; set_solver | done].
  - destruct (Part000Forms.isBlank data x) eqn:Hx.
    + split; [done|]. intros H.
      assert (filledIn data x) as Hf by (apply H; set_solver).
      apply isBlank_filledIn in Hf. congruence.
    + rewrite IH. apply isBlank_filledIn in Hx. split.
      * intros H field [->|?]%elem_of_cons; [done | by apply H].
      * intros H field ?. apply H. set_solver.
Qed.

Lemma firstBlank_Some before field after data :
  (∀ x, x ∈ before → filledIn data x) → ¬ filledIn data field →
  Part000Forms.firstBlank (before ++ field :: after) data = Some field.
Proof.
  intros Hb Hf. induction before as [|x l IH]; simpl.
  - destruct (Part000Forms.isBlank data field) eqn:Hx; [done|].
    by apply isBlank_filledIn in Hx.
  - assert (Part000Forms.isBlank data x = false) as ->.
    { apply isBlank_filledIn, Hb. set_solver. }
    apply IH. intros y ?. apply Hb. set_solver.
Qed.

(** X18.  The two validators of [part_000] on ASCII values, the dialog's
    over [name], [email], [phone], [legal-area], [message] and the contact
    form's over [name], [email], [message].  A submission passes exactly
    when every required value holds a character that is not white space
    and the e-mail value matches the pattern; it then shows no message.
    Otherwise the validator returns [false] and one error message replaces
    the one on display: it names the first required field, in that order,
    that is not filled in (the dialog writes a space for the first hyphen
    of the name), and it asks for a valid address when all are.  On a page
    without the dialog element the dialog's validator still passes a valid
    submission, and throws where it would show a message. *)
Theorem part000_validation_verdict (data : gmap string string)
    (ms : list Part000Forms.Message) (st : Part000Forms.ContactState) :
  (∀ field v, data !! field = Some v → isAscii v = true) →
  let modalFields := ["name"; "email"; "phone"; "legal-area"; "message"] in
  let contactFields := ["name"; "email"; "message"] in
  let valid fields :=
    (∀ field, field ∈ fields → filledIn data field) ∧
    Part000Forms.emailTest data = true in
  (Part000Forms.Modal_validateForm data (Some ms) = (Some ms, Normal true)
   ↔ valid modalFields) ∧
  (∀ before field after,
     modalFields = before ++ field :: after →
     (∀ x, x ∈ before → filledIn data x) → ¬ filledIn data field →
     Part000Forms.Modal_validateForm data (Some ms)
     = (Some (Part000Forms.mkMessage "error"
                ("Please fill in the "
                 +:+ Part000Forms.replaceFirst "-" " " field +:+ " field.")
              :: tail ms),
        Normal false)) ∧
  ((∀ field, field ∈ modalFields → filledIn data field) →
   Part000Forms.emailTest data = false →
   Part000Forms.Modal_validateForm data (Some ms)
   = (Some (Part000Forms.mkMessage "error"
              "Please enter a valid email address." :: tail ms),
      Normal false)) ∧
  (Part000Forms.Modal_validateForm data None = (None, Normal true)
   ↔ valid modalFields) ∧
  (¬ valid modalFields →
   ∃ e, Part000Forms.Modal_validateForm data None = (None, Throw e)) ∧
  ((Part000Forms.ContactForm_validateForm data st).1 = true
   ↔ valid contactFields) ∧
  ((Part000Forms.ContactForm_validateForm data st).1 = true →
   (Part000Forms.ContactForm_validateForm data st).2 = st) ∧
  (∀ before field after,
     contactFields = before ++ field :: after →
     (∀ x, x ∈ before → filledIn data x) → ¬ filledIn data field →
     Part000Forms.ContactForm_validateForm data st
     = (false,
        Part000Forms.showMessage
          ("Please fill in the " +:+ field +:+ " field.") "error" st)) ∧
  ((∀ field, field ∈ contactFields → filledIn data field) →
   Part000Forms.emailTest data = false →
   Part000Forms.ContactForm_validateForm data st
   = (false,
      Part000Forms.showMessage "Please enter a valid email address."
        "error" st)).
Proof.
  intros _ modalFields contactFields valid.
  subst modalFields contactFields valid. cbn beta.
  unfold Part000Forms.Modal_validateForm,
    Part000Forms.ContactForm_validateForm.
  split_and!.
  - destruct (Part000Forms.firstBlank _ data) eqn:Hfb.
    + split; [done|]. intros [H _].
      pose proof (proj2 (firstBlank_None _ _) H). congruence.
    + pose proof (proj1 (firstBlank_None _ _) Hfb).
      destruct (Part000Forms.emailTest data); [done|].
      split; [done | by intros [_ ?]].
  - intros before field after Heq Hb Hf.
    by rewrite Heq, (firstBlank_Some _ _ _ _ Hb Hf).
  - intros Hall He. rewrite (proj2 (firstBlank_None _ _) Hall).
    by rewrite He.
  - destruct (Part000Forms.firstBlank _ data) eqn:Hfb.
    + split; [done|]. intros [H _].
      pose proof (proj2 (firstBlank_None _ _) H). congruence.
    + pose proof (proj1 (firstBlank_None _ _) Hfb).
      destruct (Part000Forms.emailTest data); [done|].
      split; [done | by intros [_ ?]].
  - intros Hnv. destruct (Part000Forms.firstBlank _ data) eqn:Hfb.
    + by eexists.
    + pose proof (proj1 (firstBlank_None _ _) Hfb).
      destruct (Part000Forms.emailTest data); [by destruct Hnv | by eexists].
  - destruct (Part000Forms.firstBlank _ data) eqn:Hfb.
    + split; [done|]. intros [H _].
      pose proof (proj2 (firstBlank_None _ _) H). congruence.
    + pose proof (proj1 (firstBlank_None _ _) Hfb).
      destruct (Part000Forms.emailTest data); [done|].
      split; [done | by intros [_ ?]].
  - destruct (Part000Forms.firstBlank _ data); [done|].
    by destruct (Part000Forms.emailTest data).
  - intros before field after Heq Hb Hf.
    by rewrite Heq, (firstBlank_Some _ _ _ _ Hb Hf).
  - intros Hall He. rewrite (proj2 (firstBlank_None _ _) Hall).
    by rewrite He.
Qed.

(** [X18] on a dialog submission whose area of law was left blank. *)
Lemma part000_validation_witness :
  let data : gmap string string :=
    <["name" := "A. Client"]>
      (<["email" := "client@example.org"]>
         (<["phone" := "555 0100"]> (<["legal-area" := "  "]> ∅))) in
  (∀ field v, data !! field = Some v → isAscii v = true) ∧
  Part000Forms.Modal_validateForm data (Some [])
  = (Some [Part000Forms.mkMessage "error"
             "Please fill in the legal area field."],
     Normal false).
Proof.
  intros data.
  assert (∀ field v, data !! field = Some v → isAscii v = true) as Hascii.
  { intros field v. subst data.
    rewrite !lookup_insert_Some, lookup_empty.
    intros [[_ <-]|[_ [[_ <-]|[_ [[_ <-]|[_ [[_ <-]|[_ ?]]]]]]]];
      [reflexivity.. | done]. }
  split; [exact Hascii|].
  refine (proj1 (proj2 (part000_validation_verdict data []
            (Part000Forms.mkContactState [] 0 []) Hascii))
            ["name"; "email"; "phone"] "legal-area" ["message"]
            eq_refl _ _).
  - intros x Hx. apply isBlank_filledIn.
    repeat (apply elem_of_cons in Hx as [->|Hx]; [reflexivity|]).
    by apply elem_of_nil in Hx.
  - intros Hf. apply isBlank_filledIn in Hf. discriminate Hf.
Defined.

(** ** Messages of the contact form *)

Lemma contactRun_inv evs :
  length (Part000Forms.messages (contactRun evs)) ≤ 1 ∧
  ∀ i m, (i, m) ∈ Part000Forms.messages (contactRun evs) →
         S i = Part000Forms.created (contactRun evs).
Proof.
  unfold contactRun. induction evs as [|ev evs IH] using rev_ind.
  - simpl. split; [lia | set_solver].
  - rewrite foldl_app. simpl.
    set (st := foldl Part000Forms.handle
                 (Part000Forms.mkContactState [] 0 []) evs) in *.
    destruct IH as [Hlen Hid]. destruct ev as [message type|id]; simpl.
    + destruct (Part000Forms.messages st) as [|x [|y l]] eqn:E;
        simpl in *; try lia;
        (split; [lia|]); intros i m Hi; set_solver.
    + split.
      * etrans; [apply length_filter | done].
      * intros i m [_ Hi]%list_elem_of_filter. by apply Hid in Hi.
Qed.

(** X19.  The messages of the contact form of [part_000], on a page that
    starts without one, after any sequence of messages shown and removal
    timeouts fired: at most one message is on display; showing a message
    leaves that message alone on display; and a removal timeout either
    changes nothing or is the timeout of the message on display, the last
    one shown, which it removes. *)
Theorem contact_message_timeouts (evs : list Part000Forms.MessageEvent)
    (id : nat) (message type : string) :
  let st := contactRun evs in
  length (Part000Forms.messages st) ≤ 1 ∧
  Part000Forms.messages (Part000Forms.showMessage message type st)
  = [(Part000Forms.created st, Part000Forms.mkMessage type message)] ∧
  (Part000Forms.messages (Part000Forms.autoRemove id st)
   = Part000Forms.messages st
   ∨ (S id = Part000Forms.created st ∧
      (∃ m, Part000Forms.messages st = [(id, m)]) ∧
      Part000Forms.messages (Part000Forms.autoRemove id st) = [])).
Proof.
  intros st. destruct (contactRun_inv evs) as [Hlen Hid]. fold st in Hlen, Hid.
  split_and!; [done | |].
  - unfold Part000Forms.showMessage. simpl.
    destruct (Part000Forms.messages st) as [|x [|y l]]; simpl in *;
      [done | done | lia].
  - unfold Part000Forms.autoRemove. simpl.
    destruct (Part000Forms.messages st) as [|[i m] [|y l]] eqn:E;
      simpl in *; [by left | | lia].
    destruct (decide (i = id)) as [->|Hne].
    + right. split_and!.
      * apply (Hid id m). set_solver.
      * by exists m.
      * rewrite filter_cons_False; [done|]. simpl. by intros ?.
    + left. by rewrite filter_cons_True.
Qed.

(** ** The mobile menu *)

Lemma menu_step (st : Part000Menu.State * Browser) (ev : Part000Menu.Click) :
  MenuMirrored st → MenuMirrored (Part000Menu.handle st ev).
Proof.
  destruct st as [[open [menu|] [toggle|]] b];
    intros (menu0 & toggle0 & Hm & Ht & Hcm & Hct & Hov);
    simpl in Hm, Ht, Hcm, Hct, Hov; try done.
  injection Hm as <-. injection Ht as <-.
  assert (∀ b0, MenuMirrored
            (Part000Menu.mkState false
               (Some (withClasses (classList.remove "show-menu") menu))
               (Some (withClasses (classList.remove "active") toggle)),
             setBodyOverflow EmptyString b0)) as Hclosed.
  { intros b0. eexists _, _. simpl. split_and!; [done | done | | |].
    - apply contains_remove.
    - apply contains_remove.
    - apply bodyOverflow_setBodyOverflow. }
  assert (∀ b0 o, MenuMirrored
            (Part000Menu.mkState o
               (Some (withClasses (classList.toggle "show-menu" o) menu))
               (Some (withClasses (classList.toggle "active" o) toggle)),
             setBodyOverflow (if o then "hidden" else EmptyString) b0))
    as Htoggled.
  { intros b0 o. eexists _, _. simpl. split_and!; [done | done | | |].
    - apply contains_toggle.
    - apply contains_toggle.
    - apply bodyOverflow_setBodyOverflow. }
  assert (MenuMirrored
            (Part000Menu.mkState open (Some menu) (Some toggle), b)) as Hst.
  { by eexists _, _. }
  destruct ev as [inMenu|inMenu|inMenu|inMenu inToggle];
    unfold Part000Menu.handle, Part000Menu.toggleMenu, Part000Menu.closeMenu,
      Part000Menu.documentClick; cbn [fst snd Part000Menu.isMenuOpen
      Part000Menu.navMenu Part000Menu.navToggle].
  - destruct open; cbn [negb]; [apply (Htoggled b false)|].
    destruct inMenu; apply (Htoggled b true).
  - apply Hclosed.
  - apply Hclosed.
  - destruct open; [|done]. destruct inMenu; [done|].
    destruct inToggle; [done|]. apply Hclosed.
Qed.

(** X20.  The mobile menu of [part_000], with its menu and toggle elements
    in the page and starting closed: after any sequence of clicks the open
    flag, the class [show-menu] of the menu, the class [active] of the
    toggle and the scroll lock on the body agree; a click on the toggle
    flips the flag, and a click on the close button, on a link to a section
    or outside menu and toggle leaves the menu closed. *)
Theorem part000_menu_mirrors_flag (menu toggle : Element) (b : Browser)
    (evs : list Part000Menu.Click) :
  hasClass "show-menu" menu = false → hasClass "active" toggle = false →
  bodyOverflow b = EmptyString →
  let st := foldl Part000Menu.handle
              (Part000Menu.mkState false (Some menu) (Some toggle), b) evs in
  MenuMirrored st ∧
  (∀ inMenu,
     Part000Menu.isMenuOpen (Part000Menu.handle st (Part000Menu.ToggleClick
                                                      inMenu)).1
     = negb (Part000Menu.isMenuOpen st.1)) ∧
  (∀ ev, ev ∈ [Part000Menu.CloseClick true; Part000Menu.CloseClick false;
               Part000Menu.HashLinkClick true;
               Part000Menu.HashLinkClick false;
               Part000Menu.OtherClick false false] →
         Part000Menu.isMenuOpen (Part000Menu.handle st ev).1 = false).
Proof.
  intros Hm Ht Hb st.
  assert (MenuMirrored st) as Hst.
  { subst st. induction evs as [|ev evs IH] using rev_ind.
    - simpl. by eexists _, _.
    - rewrite foldl_app. simpl. by apply menu_step. }
  split; [done|].
  destruct st as [[open menu' toggle'] b'].
  destruct Hst as (m0 & t0 & Hm0 & Ht0 & _). simpl in Hm0, Ht0. subst.
  split.
  - intros inMenu. simpl. destruct open; simpl; [done|]. by destruct inMenu.
  - intros ev Hev.
    repeat (apply elem_of_cons in Hev as [->|Hev]; [by destruct open|]).
    by apply elem_of_nil in Hev.
Qed.

(** [X20] on a page with a bare menu and toggle, after opening the menu and
    clicking beside it. *)
Lemma part000_menu_witness :
  hasClass "show-menu" (element ["nav__menu"]) = false ∧
  hasClass "active" (element ["nav__toggle"]) = false ∧
  bodyOverflow freshBrowser = EmptyString ∧
  MenuMirrored
    (foldl Part000Menu.handle
       (Part000Menu.mkState false (Some (element ["nav__menu"]))
          (Some (element ["nav__toggle"])), freshBrowser)
       [Part000Menu.ToggleClick false; Part000Menu.OtherClick false false]).
Proof.
  split_and!; [reflexivity..|].
  exact (proj1 (part000_menu_mirrors_flag (element ["nav__menu"])
                  (element ["nav__toggle"]) freshBrowser
                  [Part000Menu.ToggleClick false;
                   Part000Menu.OtherClick false false]
                  eq_refl eq_refl eq_refl)).
Defined.

(** X21.  In [part_000] the menu and the dialog write the same scroll lock
    and neither looks at the other.  Closing the menu while the dialog is
    visible leaves the dialog visible and the body unlocked; closing the
    dialog while the menu is open leaves the menu open and the body
    unlocked. *)
Theorem part000_scroll_lock_released_by_first_close
    (s : Part000Menu.State) (menu toggle : Element)
    (d : Part000.ModalDom) (m : Element) (b : Browser) :
  Part000Menu.navMenu s = Some menu → Part000Menu.navToggle s = Some toggle →
  Part000.modal d = Some m →
  (let '(d1, b1) := Part000.openModal d b in
   let '(s2, b2) := (Part000Menu.closeMenu s b1).1 in
   bodyOverflow b1 = "hidden" ∧
   ModalEvents.isModalOpen d1 = true ∧ Part000Menu.isMenuOpen s2 = false ∧
   bodyOverflow b2 = EmptyString) ∧
  (Part000Menu.isMenuOpen s = false →
   let '(s1, b1) := (Part000Menu.toggleMenu s b).1 in
   let '(d2, b2) := Part000.closeModal d b1 in
   bodyOverflow b1 = "hidden" ∧
   Part000Menu.isMenuOpen s1 = true ∧
   (hasClass "show-menu" <$> Part000Menu.navMenu s1) = Some true ∧
   ModalEvents.isModalOpen d2 = false ∧
   bodyOverflow b2 = EmptyString).
Proof.
  intros Hm Ht Hd. destruct s as [open nm nt]. simpl in Hm, Ht. subst.
  destruct d as [dm hi]. simpl in Hd. subst. split.
  - unfold Part000.openModal, Part000Menu.closeMenu. simpl.
    split_and!.
    + destruct hi; by destruct b.
    + unfold ModalEvents.isModalOpen. simpl.
      apply negb_true_iff, contains_remove.
    + done.
    + destruct hi; by destruct b.
  - simpl. intros ->.
    unfold Part000Menu.toggleMenu, Part000.closeModal. simpl.
    split_and!.
    + by destruct b.
    + done.
    + f_equal. apply contains_add.
    + unfold ModalEvents.isModalOpen. simpl.
      apply negb_false_iff, contains_add.
    + by destruct b.
Qed.

(** [X21] on a page with a hidden dialog and a closed menu. *)
Lemma part000_scroll_lock_witness :
  let s := Part000Menu.mkState false (Some (element ["nav__menu"]))
             (Some (element ["nav__toggle"])) in
  let d := Part000.mkModalDom (Some hiddenModal) false in
  Part000Menu.navMenu s = Some (element ["nav__menu"]) ∧
  Part000Menu.navToggle s = Some (element ["nav__toggle"]) ∧
  Part000.modal d = Some hiddenModal ∧
  (let '(d1, b1) := Part000.openModal d freshBrowser in
   let '(s2, b2) := (Part000Menu.closeMenu s b1).1 in
   bodyOverflow b1 = "hidden" ∧
   ModalEvents.isModalOpen d1 = true ∧ Part000Menu.isMenuOpen s2 = false ∧
   bodyOverflow b2 = EmptyString).
Proof.
  intros s d. split_and!; [reflexivity..|].
  exact (proj1 (part000_scroll_lock_released_by_first_close s
                  (element ["nav__menu"]) (element ["nav__toggle"]) d
                  hiddenModal freshBrowser eq_refl eq_refl eq_refl)).
Defined.

(** ** Statistic counters start once *)

Lemma Part000_deliver_done counters st batches :
  StatsCounters.connected st = false →
  foldl (StatsCounters.Part000_deliver counters) st batches = st.
Proof.
  intros H. induction batches as [|e l IH]; [done|]. simpl.
  unfold StatsCounters.Part000_deliver at 2. by rewrite H.
Qed.

Lemma Part000_callback_spec counters entries st :
  StatsCounters.hasAnimated st = false →
  StatsCounters.Part000_callback counters entries st
  = if existsb id entries
    then StatsCounters.mkPart000_State true false
           (StatsCounters.tickers st ++ StatsCounters.animateCounters counters)
    else st.
Proof.
  unfold StatsCounters.Part000_callback. revert st.
  induction entries as [|e l IH]; intros st Hst; [done|]. simpl.
  destruct e; simpl.
  - rewrite Hst. simpl. clear IH Hst.
    induction l as [|e l IH]; [done|]. simpl. by rewrite andb_false_r.
  - by apply IH.
Qed.

Lemma animateCounters_elem counters i tk :
  (i, tk) ∈ StatsCounters.animateCounters counters
  ↔ ∃ s target,
      counters !! i = Some s ∧
      parseInt (StatsCounters.dataTarget s) = Some target ∧
      tk = Part000.animateCounter (StatsCounters.counter s)
             (inject_Z target) Part000.counterAnimationDuration.
Proof.
  unfold StatsCounters.animateCounters.
  rewrite list_elem_of_omap. split.
  - intros (o & Ho & Hid). simpl in Hid. subst o.
    apply list_elem_of_lookup in Ho as (j & Hj).
    rewrite list_lookup_imap in Hj.
    destruct (counters !! j) as [s|] eqn:Hs; [|done]. simpl in Hj.
    destruct (parseInt (StatsCounters.dataTarget s)) as [t|] eqn:Ht;
      [|done].
    simpl in Hj. injection Hj as <- <-. by exists s, t.
  - intros (s & t & Hs & Ht & ->). eexists. split; [|done].
    apply list_elem_of_lookup. exists i.
    by rewrite list_lookup_imap, Hs; simpl; rewrite Ht.
Qed.

Lemma indexed_omap_NoDup {A B} (g : nat → nat)
    (f : nat → A → option (nat * B)) (l : list A) :
  Inj (=) (=) g →
  (∀ i x p, f i x = Some p → p.1 = g i) →
  let r := omap id (imap f l) in
  NoDup r.*1 ∧ ∀ j, j ∈ r.*1 → ∃ i, j = g i.
Proof.
  revert g f. induction l as [|x l IH]; intros g f Hg Hf; simpl.
  - split; [constructor | set_solver].
  - destruct (IH (g ∘ S) (f ∘ S)) as [Hnd Hin].
    { apply _. }
    { intros i y p Hp. by apply Hf in Hp. }
    unfold compose in *. destruct (f 0 x) as [p|] eqn:Hp; simpl.
    + apply Hf in Hp. split.
      * constructor; [|done]. intros Hj. apply Hin in Hj as (i & Hi).
        rewrite Hp in Hi. by apply Hg in Hi.
      * intros j [->|Hj]%elem_of_cons; [by exists 0|].
        apply Hin in Hj as (i & ->). by exists (S i).
    + split; [done|]. intros j Hj.
      apply Hin in Hj as (i & ->). by exists (S i).
Qed.

Lemma animateCounters_NoDup counters :
  NoDup (fst <$> StatsCounters.animateCounters counters).
Proof.
  unfold StatsCounters.animateCounters.
  refine (proj1 (indexed_omap_NoDup id _ counters _ _)).
  intros i s p Hp.
  destruct (parseInt (StatsCounters.dataTarget s)); [|done].
  simpl in Hp. by injection Hp as <-.
Qed.

Lemma Part000_run_spec counters st batches :
  StatsCounters.connected st = true → StatsCounters.hasAnimated st = false →
  foldl (StatsCounters.Part000_deliver counters) st batches
  = if existsb (existsb id) batches
    then StatsCounters.mkPart000_State true false
           (StatsCounters.tickers st ++ StatsCounters.animateCounters counters)
    else st.
Proof.
  intros Hc Hh. induction batches as [|e bs IH]; [done|]. simpl.
  unfold StatsCounters.Part000_deliver at 2. rewrite Hc.
  rewrite Part000_callback_spec by done.
  destruct (existsb id e); simpl; [|exact IH].
  by rewrite Part000_deliver_done.
Qed.

Lemma Frame_deliver_done counters st firsts :
  StatsCounters.observing st = false →
  foldl (StatsCounters.Frame_deliver counters) st firsts = st.
Proof.
  intros H. induction firsts as [|e l IH]; [done|]. simpl.
  unfold StatsCounters.Frame_deliver at 2. by rewrite H.
Qed.

Lemma Frame_run_spec counters st firsts :
  StatsCounters.observing st = true →
  foldl (StatsCounters.Frame_deliver counters) st firsts
  = if existsb id firsts
    then StatsCounters.mkFrame_State false
           (StatsCounters.scheduled st
            ++ imap (λ i _, ((Z.of_nat i * 150)%Z, i)) counters)
    else st.
Proof.
  intros Hc. induction firsts as [|e bs IH]; [done|]. simpl.
  unfold StatsCounters.Frame_deliver at 2. rewrite Hc.
  destruct e; simpl; [|exact IH].
  by rewrite Frame_deliver_done.
Qed.

(** X22.  The statistic counters start once.  In [part_000], after any
    sequence of observer batches, the intervals started are none when no
    entry so far was intersecting and otherwise exactly those of one run of
    [animateCounters], also when one batch holds several intersecting
    entries: one interval for each counter whose [data-target] parses, from
    its displayed number towards that integer over the configured 2000 ms,
    and none for a counter whose target does not parse.  In [src/app.js]
    and [part_001], after any sequence of observer calls on a page with the
    statistics block, the timeouts set are none, or exactly one for each
    counter, the one at position [i] at [150 * i] ms. *)
Theorem stats_counters_start_once (counters : list StatsCounters.Stat)
    (batches : list (list bool)) (firsts : list bool) :
  let st := foldl (StatsCounters.Part000_deliver counters)
              (StatsCounters.Part000_setupObserver counters) batches in
  let fr := foldl (StatsCounters.Frame_deliver counters)
              (StatsCounters.Frame_init true) firsts in
  StatsCounters.tickers st
  = (if existsb (existsb id) batches
     then StatsCounters.animateCounters counters else []) ∧
  NoDup (fst <$> StatsCounters.tickers st) ∧
  (∀ i tk,
     (i, tk) ∈ StatsCounters.animateCounters counters
     ↔ ∃ s target,
         counters !! i = Some s ∧
         parseInt (StatsCounters.dataTarget s) = Some target ∧
         tk = Part000.animateCounter (StatsCounters.counter s)
                (inject_Z target) 2000) ∧
  StatsCounters.scheduled fr
  = (if existsb id firsts
     then imap (λ i _, ((Z.of_nat i * 150)%Z, i)) counters else []) ∧
  StatsCounters.observing fr = negb (existsb id firsts).
Proof.
  intros st fr.
  assert (StatsCounters.tickers st
          = (if existsb (existsb id) batches
             then StatsCounters.animateCounters counters else [])) as Htk.
  { subst st. unfold StatsCounters.Part000_setupObserver.
    destruct (decide (counters = [])) as [->|Hne].
    - simpl. rewrite Part000_deliver_done by done. simpl.
      by destruct (existsb _ batches).
    - rewrite bool_decide_eq_false_2 by done.
      rewrite Part000_run_spec by done.
      by destruct (existsb _ batches). }
  assert (fr = if existsb id firsts
               then StatsCounters.mkFrame_State false
                      (imap (λ i _, ((Z.of_nat i * 150)%Z, i)) counters)
               else StatsCounters.Frame_init true) as Hfr.
  { subst fr. by rewrite Frame_run_spec. }
  split_and!.
  - exact Htk.
  - rewrite Htk. destruct (existsb _ batches); [|constructor].
    apply animateCounters_NoDup.
  - intros i tk. apply animateCounters_elem.
  - rewrite Hfr. by destruct (existsb id firsts).
  - rewrite Hfr. by destruct (existsb id firsts).
Qed.

(** ** The highlighter touches nothing but its class *)

Lemma toggle_toggle token force l :
  classList.toggle token force (classList.toggle token force l)
  = classList.toggle token force l.
Proof. destruct force; simpl; [apply add_add | apply remove_remove]. Qed.

Lemma others_add token l :
  filter (λ t, t ≠ token) (classList.add token l)
  = filter (λ t, t ≠ token) l.
Proof.
  unfold classList.add. destruct (classList.contains token l); [done|].
  rewrite filter_app, filter_cons_False, filter_nil by (by intros ?).
  by rewrite app_nil_r.
Qed.

Lemma others_remove token l :
  filter (λ t, t ≠ token) (classList.remove token l)
  = filter (λ t, t ≠ token) l.
Proof. unfold classList.remove. apply remove_remove. Qed.

Lemma others_toggle token force l :
  filter (λ t, t ≠ token) (classList.toggle token force l)
  = filter (λ t, t ≠ token) l.
Proof. destruct force; simpl; [apply others_add | apply others_remove]. Qed.

(** What marking one link by [href] does to it. *)
Lemma marked_link_frame (mark : Element → Element) (target : string) :
  (∀ l, mark l
        = withClasses
            (classList.toggle "active-link"
               (bool_decide (getAttribute "href" l = Some target))) l) →
  ∀ l, attributes (mark l) = attributes l ∧
       filter (λ t, t ≠ "active-link") (classes (mark l))
       = filter (λ t, t ≠ "active-link") (classes l) ∧
       hasClass "active-link" (mark l)
       = bool_decide (getAttribute "href" l = Some target) ∧
       mark (mark l) = mark l.
Proof.
  intros Hmark l. rewrite !Hmark. unfold withClasses, hasClass, getAttribute.
  cbn [attributes classes]. split_and!.
  - done.
  - apply others_toggle.
  - apply contains_toggle.
  - by rewrite toggle_toggle.
Qed.

(** X23.  One run of the active-link highlighter, in each version and for
    any links and sections: the links are as many as before and each keeps
    its attributes and, in their order, its classes other than
    [active-link]; a link carries [active-link] afterwards exactly when its
    [href] is the target ([part_000]: when [setActiveLink] is called) or
    [#] followed by the section found ([src/app.js], [part_001]); and a
    second run on the same input changes nothing more. *)
Theorem highlighter_touches_only_its_class (links : list Element)
    (secs : list Section) (h : Z) (target : string) (i : nat) (l : Element) :
  links !! i = Some l →
  let others (e : Element) := filter (λ t, t ≠ "active-link") (classes e) in
  (∃ l', AppJs.updateActiveLink links h secs !! i = Some l' ∧
         attributes l' = attributes l ∧ others l' = others l ∧
         hasClass "active-link" l'
         = bool_decide
             (getAttribute "href" l
              = Some ("#" +:+ AppJs.currentSectionId (inject_Z (h + 50))
                                secs))) ∧
  length (AppJs.updateActiveLink links h secs) = length links ∧
  AppJs.updateActiveLink (AppJs.updateActiveLink links h secs) h secs
  = AppJs.updateActiveLink links h secs ∧
  (∃ l', Part001.updateActive links h secs !! i = Some l' ∧
         attributes l' = attributes l ∧ others l' = others l ∧
         hasClass "active-link" l'
         = bool_decide
             (getAttribute "href" l
              = Some ("#" +:+ Part001.currentSection (inject_Z (h + 60))
                                secs))) ∧
  length (Part001.updateActive links h secs) = length links ∧
  Part001.updateActive (Part001.updateActive links h secs) h secs
  = Part001.updateActive links h secs ∧
  (∃ l', Part000.setActiveLink target links !! i = Some l' ∧
         attributes l' = attributes l ∧ others l' = others l ∧
         hasClass "active-link" l'
         = bool_decide (getAttribute "href" l = Some target)) ∧
  length (Part000.setActiveLink target links) = length links ∧
  Part000.setActiveLink target (Part000.setActiveLink target links)
  = Part000.setActiveLink target links.
Proof.
  intros Hi others.
  assert (∀ tg (e : Element),
            getAttribute "href"
              (withClasses
                 (classList.toggle "active-link"
                    (bool_decide (getAttribute "href" e = Some tg))) e)
            = getAttribute "href" e) as Hhref by done.
  unfold AppJs.updateActiveLink, Part001.updateActive, Part000.setActiveLink.
  cbn zeta.
  set (ta := "#" +:+ AppJs.currentSectionId (inject_Z (h + 50)) secs).
  set (tb := "#" +:+ Part001.currentSection (inject_Z (h + 60)) secs).
  pose proof (marked_link_frame _ ta (λ _, eq_refl)) as Ha.
  pose proof (marked_link_frame _ tb (λ _, eq_refl)) as Hb.
  split_and!.
  - eexists. rewrite list_lookup_fmap, Hi. split; [done|].
    destruct (Ha l) as (? & ? & ? & _). by split_and!.
  - by rewrite length_fmap.
  - rewrite <- list_fmap_compose. apply list_fmap_ext. intros j e _.
    simpl. by destruct (Ha e) as (_ & _ & _ & ->).
  - eexists. rewrite list_lookup_fmap, Hi. split; [done|].
    destruct (Hb l) as (? & ? & ? & _). by split_and!.
  - by rewrite length_fmap.
  - rewrite <- list_fmap_compose. apply list_fmap_ext. intros j e _.
    simpl. by destruct (Hb e) as (_ & _ & _ & ->).
  - eexists. rewrite list_lookup_fmap, Hi. split; [done|]. simpl.
    unfold getAttribute.
    destruct (bool_decide (attributes l !! "href" = Some target)) eqn:E;
      unfold hasClass, withClasses, others; cbn [attributes classes].
    + split_and!; [done | | apply contains_add].
      by rewrite others_add, others_remove.
    + split_and!; [done | apply others_remove | apply contains_remove].
  - by rewrite length_fmap.
  - apply setActiveLink_twice.
Qed.

(** [X23] on the two links of a first visit. *)
Lemma highlighter_frame_witness :
  homeMarkedLinks !! 1 = Some (anchor "#about" ["nav__link"]) ∧
  length (Part000.setActiveLink "#about" homeMarkedLinks)
  = length homeMarkedLinks.
Proof.
  split; [reflexivity|].
  exact (proj1 (proj2 (proj2 (proj2 (proj2 (proj2 (proj2 (proj2
           (highlighter_touches_only_its_class homeMarkedLinks [] 0
              "#about" 1 (anchor "#about" ["nav__link"]) eq_refl))))))))).
Defined.

(** ** The runners call every module once, or stop *)

Lemma AppJs_runner_trace (g : nat → nat) ps w :
  foldl (AppJs.initializeModule record) w (imap (λ i, probeModule (g i)) ps)
  = w ++ concat (imap (λ i, calledAndLogged "Error initializing module"
                              (g i)) ps).
Proof.
  revert g w. induction ps as [|p ps IH]; intros g w; simpl.
  - by rewrite app_nil_r.
  - rewrite (IH (g ∘ S)). unfold compose.
    destruct p as [| |[[]|e]]; simpl; unfold record;
      by rewrite <- ?app_assoc.
Qed.

Lemma Part000_runner_trace (g : nat → nat) ps w :
  foldl (Part000.initializeModule record) w
        (imap (λ i, probeModule (g i)) ps)
  = w ++ concat (imap (λ i, calledAndLogged "Error initializing module:"
                              (g i)) ps).
Proof.
  revert g w. induction ps as [|p ps IH]; intros g w; simpl.
  - by rewrite app_nil_r.
  - rewrite (IH (g ∘ S)). unfold compose.
    destruct p as [| |[[]|e]]; simpl; unfold record;
      by rewrite <- ?app_assoc.
Qed.

Lemma Part001_runner_trace (g : nat → nat) ps w :
  Part001.forEachInit (imap (λ i, probeModule (g i)) ps) w
  = match list_find (λ p, is_Some (thrown p)) ps with
    | Some (k, p) =>
        (w ++ concat (imap (λ i, called (g i)) (take (S k) ps)),
         Throw (default (Error EmptyString) (thrown p)))
    | None => (w ++ concat (imap (λ i, called (g i)) ps), Normal ())
    end.
Proof.
  revert g w. induction ps as [|p ps IH]; intros g w; simpl.
  - by rewrite app_nil_r.
  - destruct p as [| |[[]|e]]; simpl.
    + rewrite (IH (g ∘ S)). unfold compose.
      destruct (list_find _ ps) as [[k q]|]; by simpl.
    + by rewrite app_nil_r.
    + rewrite (IH (g ∘ S)). unfold compose.
      destruct (list_find _ ps) as [[k q]|]; simpl; by rewrite <- app_assoc.
    + destruct ps; by simpl.
Qed.

(** X24.  The three runners on modules that record their calls.  The
    runners of [src/app.js] and [part_000] call every module that has an
    [init] function exactly once, in list order, whatever the modules
    throw; each exception is logged right after the call that threw it, and
    a module without such a function is passed over in silence.  The
    runner of [part_001] makes the same calls up to the first module whose
    call throws, a module whose [init] is not a function included; it logs
    nothing, calls no later module and ends with that exception. *)
Theorem runners_call_modules_in_order (ps : list Probe) :
  AppJs.App_init record (imap probeModule ps) []
  = concat (imap (calledAndLogged "Error initializing module") ps)
    ++ [Logged (LogInfo "✅ Website Initialized Successfully!")] ∧
  Part000.initializeModules record (imap probeModule ps) []
  = concat (imap (calledAndLogged "Error initializing module:") ps) ∧
  Part001.App_init record (imap probeModule ps) []
  = match list_find (λ p, is_Some (thrown p)) ps with
    | Some (k, p) =>
        (concat (imap called (take (S k) ps)),
         Throw (default (Error EmptyString) (thrown p)))
    | None =>
        (concat (imap called ps)
         ++ [Logged (LogInfo "✅ Website Initialized Successfully")],
         Normal ())
    end.
Proof.
  split_and!.
  - unfold AppJs.App_init. by rewrite (AppJs_runner_trace id).
  - unfold Part000.initializeModules.
    by rewrite (Part000_runner_trace id).
  - unfold Part001.App_init. rewrite (Part001_runner_trace id).
    by destruct (list_find _ ps) as [[k p]|].
Qed.
